(** * cst2py: field slicing and kicker parameters

    A shallow embedding of [src/sc.py] (beam converter, phase rotation,
    longitudinal and transverse kicker parameters) and of [slice_1d] from
    [src/fields.py], with the properties of the specification stated over it.
    The import of a folder of slices ([hd5_import_path]), the unpacking of
    a result buffer in [load_fields] and the clipboard functions of
    [src/curves.py] are embedded after them.

    Numbers.  A finite IEEE double is modelled by the real number it denotes
    and arithmetic on finite values is exact: rounding, overflow and signed
    zeros are not modelled.  What the program can produce without rounding,
    a non-finite value (nan, inf) from a division by zero or a square root
    of a negative number, is modelled by [None]: [xR] and [xC] are the
    doubles and complex doubles of numpy, [Some v] a finite value and [None]
    a non-finite one (a complex double with a non-finite part is [None]).
    In an input array [None] stands for nan.  From finite or nan inputs,
    every operation the program applies to a non-finite value gives a
    non-finite value again, so one marker suffices.  The two errors that
    Python raises where the square of a float leaves the range of doubles
    are added in [PyFloat], [PyBeam] and [PyKicker]. *)

From Stdlib Require Import String.
From Stdlib Require Import Reals Lra Lia List Bool Arith ZArith.
Import ListNotations.
Open Scope R_scope.

(** ** Exceptions and outcomes *)

Inductive exn : Type :=
| ValueError (msg : string)
| IndexError
| ZeroDivisionError
| OverflowError
| NotImplementedError (msg : string).

Inductive outcome (A : Type) : Type :=
| Return (a : A)
| Raise (e : exn).
Arguments Return {A} a.
Arguments Raise {A} e.

Definition obind {A B} (m : outcome A) (k : A -> outcome B) : outcome B :=
  match m with
  | Return a => k a
  | Raise e => Raise e
  end.

Notation "'let!' x ':=' m 'in' k" := (obind m (fun x => k))
  (at level 10, x pattern, m at level 100, k at level 200).

Definition raises {A} (m : outcome A) : Prop := exists e, m = Raise e.
Definition returns {A} (m : outcome A) : Prop := exists a, m = Return a.

(** ** Real and complex doubles *)

Module Num.

Definition xR := option R.

Definition Rltb (a b : R) : bool := if Rlt_dec a b then true else false.
Definition Reqb (a b : R) : bool := if Req_dec_T a b then true else false.

Definition lift1 {A B} (f : A -> B) (a : option A) : option B :=
  match a with Some x => Some (f x) | None => None end.

Definition lift2 {A B D} (f : A -> B -> D) (a : option A) (b : option B)
  : option D :=
  match a, b with
  | Some x, Some y => Some (f x y)
  | _, _ => None
  end.

Definition xRadd : xR -> xR -> xR := lift2 Rplus.
Definition xRsub : xR -> xR -> xR := lift2 Rminus.
Definition xRmul : xR -> xR -> xR := lift2 Rmult.

(** numpy division: a zero divisor gives inf or nan, silently
    ([np.seterr(divide='ignore', invalid='ignore')] at the top of sc.py). *)
Definition xRdiv (a b : xR) : xR :=
  match a, b with
  | Some x, Some y => if Reqb y 0 then None else Some (x / y)
  | _, _ => None
  end.

(** [np.sqrt] on a real: nan below zero. *)
Definition xRsqrt (a : xR) : xR :=
  match a with
  | Some x => if Rltb x 0 then None else Some (sqrt x)
  | None => None
  end.

(** [x ** 2] *)
Definition xRsq (a : xR) : xR := lift1 (fun x => x ^ 2) a.

(** [x ** (-0.5)] on a numpy double: inf at zero, nan below. *)
Definition xRpow_neg_half (a : xR) : xR :=
  match a with
  | Some x => if Rltb 0 x then Some (Rpower x (- (1 / 2))) else None
  | None => None
  end.

Record C : Type := mkC { re : R; im : R }.

Definition xC := option C.

Definition C0 : C := mkC 0 0.
Definition Ci : C := mkC 0 1.
Definition RtoC (x : R) : C := mkC x 0.
Definition Cadd (a b : C) : C := mkC (re a + re b) (im a + im b).
Definition Csub (a b : C) : C := mkC (re a - re b) (im a - im b).
Definition Cneg (a : C) : C := mkC (- re a) (- im a).
Definition Cmul (a b : C) : C :=
  mkC (re a * re b - im a * im b) (re a * im b + im a * re b).
Definition Cnorm2 (a : C) : R := re a * re a + im a * im a.
Definition Cabs (a : C) : R := sqrt (Cnorm2 a).
Definition Cdiv (a b : C) : C :=
  mkC ((re a * re b + im a * im b) / Cnorm2 b)
      ((im a * re b - re a * im b) / Cnorm2 b).
Definition Cexp (a : C) : C :=
  mkC (exp (re a) * cos (im a)) (exp (re a) * sin (im a)).

Definition Ceqb (a b : C) : bool := Reqb (re a) (re b) && Reqb (im a) (im b).

(** [np.arctan2 y x], with the values numpy gives on the axes and at the
    origin (signed zeros are not modelled). *)
Definition arctan2 (y x : R) : R :=
  if Rltb 0 x then atan (y / x)
  else if Rltb x 0 then
    if Rltb y 0 then atan (y / x) - PI else atan (y / x) + PI
  else
    if Rltb 0 y then PI / 2
    else if Rltb y 0 then - (PI / 2)
    else 0.

(** [np.angle] *)
Definition Cangle (a : C) : R := arctan2 (im a) (re a).

Definition xCadd : xC -> xC -> xC := lift2 Cadd.
Definition xCsub : xC -> xC -> xC := lift2 Csub.
Definition xCmul : xC -> xC -> xC := lift2 Cmul.
Definition xCexp : xC -> xC := lift1 Cexp.
Definition xCabs : xC -> xR := lift1 Cabs.
Definition xCangle : xC -> xR := lift1 Cangle.
Definition xRtoC : xR -> xC := lift1 RtoC.

Definition xCdiv (a b : xC) : xC :=
  match a, b with
  | Some x, Some y => if Ceqb y C0 then None else Some (Cdiv x y)
  | _, _ => None
  end.

Definition fin (x : R) : xR := Some x.
Definition cfin (c : C) : xC := Some c.

End Num.
Import Num.

(** ** Python sequences *)

(** [l[i]] for a non-negative index *)
Definition getitem {A} (l : list A) (i : nat) : outcome A :=
  match nth_error l i with
  | Some a => Return a
  | None => Raise IndexError
  end.

(** [l[-1]] *)
Definition getlast {A} (l : list A) : outcome A :=
  match rev l with
  | a :: _ => Return a
  | [] => Raise IndexError
  end.

(** [np.argmin]: index of the first occurrence of the minimum; an empty
    sequence is a ValueError. *)
Fixpoint argmin_from (best : nat) (bestv : R) (i : nat) (l : list R) : nat :=
  match l with
  | [] => best
  | v :: l' =>
      if Rltb v bestv then argmin_from i v (S i) l'
      else argmin_from best bestv (S i) l'
  end.

Definition argmin (l : list R) : outcome nat :=
  match l with
  | [] => Raise (ValueError "attempt to get argmin of an empty sequence")
  | v :: l' => Return (argmin_from 0%nat v 1%nat l')
  end.

(** ** sc.py: constants *)

Definition clight : R := 299792458.
Definition m_proton : R := 938272046.
Definition e_over_m_proton : R := 95800000.

(** ** sc.py: beam_converter

    [input_value] and [z_over_A] are Python floats.  A Python float division
    by zero raises ZeroDivisionError; the results of [np.sqrt] are numpy
    doubles, on which a division by zero is silent. *)

Module Beam.

(** The names the first half of the function may bind. *)
Record locals : Type := mkLocals {
  l_beta : xR;
  l_beta_is_pyfloat : bool;
  l_gamma : option xR;
  l_p_over_A : option xR;
  l_Wkin_over_A : option xR;
  l_Brho : option xR
}.

(** [1/x**2] on a Python float *)
Definition py_inv_sq (x : R) : outcome R :=
  if Reqb (x ^ 2) 0 then Raise ZeroDivisionError else Return (1 / x ^ 2).

(** [x ** (-0.5)] on a Python float: ZeroDivisionError at zero; below zero
    Python returns a complex number, which is no finite real. *)
Definition py_pow_neg_half (x : R) : outcome xR :=
  if Reqb x 0 then Raise ZeroDivisionError
  else if Rltb 0 x then Return (Some (Rpower x (- (1 / 2))))
  else Return None.

Definition go_backwards (input_type : string) (input_value z_over_A : R)
  : outcome locals :=
  if String.eqb input_type "beta" then
    Return (mkLocals (fin input_value) true None None None None)
  else if String.eqb input_type "gamma" then
    let gamma := input_value in
    let! q := py_inv_sq gamma in
    Return (mkLocals (xRsqrt (fin (1 - q))) false
                     (Some (fin gamma)) None None None)
  else if String.eqb input_type "p_over_A" then
    let p_over_A := input_value in
    let gamma_times_beta := p_over_A / m_proton in
    let! q := py_inv_sq gamma_times_beta in
    Return (mkLocals (xRdiv (fin 1) (xRsqrt (fin (1 + q)))) false
                     None (Some (fin p_over_A)) None None)
  else if String.eqb input_type "Wkin_over_A" then
    let Wkin_over_A := input_value in
    let gamma := Wkin_over_A / m_proton + 1 in
    let! q := py_inv_sq gamma in
    Return (mkLocals (xRsqrt (fin (1 - q))) false
                     (Some (fin gamma)) None (Some (fin Wkin_over_A)) None)
  else if String.eqb input_type "Brho" then
    if Reqb z_over_A 0 then
      Raise (ValueError "Please specify charge to calculate Brho.")
    else
      let Brho := input_value in
      let gamma_times_beta := Brho * z_over_A * e_over_m_proton / clight in
      let! q := py_inv_sq gamma_times_beta in
      Return (mkLocals (xRdiv (fin 1) (xRsqrt (fin (1 + q)))) false
                       None None None (Some (fin Brho)))
  else if String.eqb input_type "p" then
    Raise (ValueError "Please specify momentum per nucleon, p_over_A.")
  else if String.eqb input_type "Wkin" then
    Raise (ValueError "Please specify energy per nucleon, Wkin_over_A.")
  else
    Raise (ValueError "Unknown input type.").

Definition go_forward (z_over_A : R) (l : locals)
  : outcome (xR * xR * xR * xR * xR) :=
  let beta := l_beta l in
  let! gamma :=
    match l_gamma l with
    | Some g => Return g
    | None =>
        if l_beta_is_pyfloat l then
          match beta with
          | Some b => py_pow_neg_half (1 - b ^ 2)
          | None => Return None
          end
        else Return (xRpow_neg_half (xRsub (fin 1) (xRsq beta)))
    end in
  let p_over_A :=
    match l_p_over_A l with
    | Some p => p
    | None => xRmul (xRmul gamma beta) (fin m_proton)
    end in
  let Wkin_over_A :=
    match l_Wkin_over_A l with
    | Some w => w
    | None => xRmul (xRsub gamma (fin 1)) (fin m_proton)
    end in
  let Brho :=
    match l_Brho l with
    | Some b => b
    | None =>
        if Reqb z_over_A 0 then fin 0
        else xRmul (xRdiv (xRdiv (xRmul gamma beta) (fin z_over_A))
                          (fin e_over_m_proton)) (fin clight)
    end in
  Return (beta, gamma, p_over_A, Wkin_over_A, Brho).

Definition beam_converter (input_type : string) (input_value z_over_A : R)
  : outcome (xR * xR * xR * xR * xR) :=
  let! l := go_backwards input_type input_value z_over_A in
  go_forward z_over_A l.

Definition out_beta (t : xR * xR * xR * xR * xR) : xR :=
  let '(b, _, _, _, _) := t in b.
Definition out_Brho (t : xR * xR * xR * xR * xR) : xR :=
  let '(_, _, _, _, r) := t in r.

End Beam.

(** ** fields.py: slice_1d *)

Module Fields.

(** A 3-D complex array indexed [ix][iy][iz]. *)
Definition array3 := list (list (list xC)).

(** [a[ix, iy, :]] *)
Definition line_at (a : array3) (ix iy : nat) : outcome (list xC) :=
  let! plane := getitem a ix in
  getitem plane iy.

(** [(u - v) / d] on complex vectors, [d] a real scalar *)
Definition fwd_diff (u v : list xC) (d : R) : list xC :=
  map (fun p => xCdiv (xCsub (fst p) (snd p)) (xRtoC (fin d))) (combine u v).

(** [numpy.abs(lines - x0).argmin()] *)
Definition nearest (lines : list R) (x0 : R) : outcome nat :=
  argmin (map (fun x => Rabs (x - x0)) lines).

(** One round of the loop over the named fields. *)
Definition slice_field (fields3d : list (list array3)) (ix iy : nat)
    (dx dy : R) (i : nat) : outcome (list xC * list xC * list xC) :=
  let! field3d := getitem fields3d i in
  let! z_comp_3d := getitem field3d 2%nat in
  let! z_comp_0 := line_at z_comp_3d ix iy in
  let! z_comp_x := line_at z_comp_3d (ix + 1) iy in
  let! z_comp_y := line_at z_comp_3d ix (iy + 1) in
  Return (z_comp_0, fwd_diff z_comp_x z_comp_0 dx,
          fwd_diff z_comp_y z_comp_0 dy).

Fixpoint slice_loop (fields3d : list (list array3)) (ix iy : nat)
    (dx dy : R) (idx : list nat)
  : outcome (list (list xC) * list (list xC) * list (list xC)) :=
  match idx with
  | [] => Return ([], [], [])
  | i :: rest =>
      let! r := slice_field fields3d ix iy dx dy i in
      let! rs := slice_loop fields3d ix iy dx dy rest in
      let '(zc, xg, yg) := r in
      let '(zcs, xgs, ygs) := rs in
      Return (zc :: zcs, xg :: xgs, yg :: ygs)
  end.

Record slices : Type := mkSlices {
  z_comps : list (list xC);
  x_grads : list (list xC);
  y_grads : list (list xC);
  x0_used : R;
  y0_used : R
}.

Definition slice_1d (efield_names hfield_names : list string)
    (xlines ylines zlines : list R) (fields3d : list (list array3))
    (x0 y0 : R) : outcome slices :=
  let! ix := nearest xlines x0 in
  let! x0' := getitem xlines ix in
  let! x1 := getitem xlines (ix + 1) in
  let dx := x1 - x0' in
  let! iy := nearest ylines y0 in
  let! y0' := getitem ylines iy in
  let! y1 := getitem ylines (iy + 1) in
  let dy := y1 - y0' in
  let n := length (efield_names ++ hfield_names) in
  let! r := slice_loop fields3d ix iy dx dy (seq 0 n) in
  let '(zc, xg, yg) := r in
  Return (mkSlices zc xg yg x0' y0').

End Fields.

(** ** numpy arrays and the store *)

Definition matrix (A : Type) := list (list A).

(** A 2-D complex numpy array: its shape and its rows. *)
Record ndarray : Type := mkArr {
  shape0 : nat;
  shape1 : nat;
  data : matrix xC
}.

Definition wf_array (a : ndarray) : Prop :=
  length (data a) = shape0 a /\
  Forall (fun row => length row = shape1 a) (data a).

(** Arrays are mutable objects: callers and callees hold references into a
    store. *)
Definition ref := nat.
Definition heap := ref -> ndarray.

Definition store (h : heap) (p : ref) (a : ndarray) : heap :=
  fun q => if Nat.eqb q p then a else h q.

Fixpoint zipWith {A B D} (f : A -> B -> D) (l : list A) (m : list B)
  : list D :=
  match l, m with
  | a :: l', b :: m' => f a b :: zipWith f l' m'
  | _, _ => []
  end.

(** [row[mask] = 0] *)
Definition zero_where (mask : list bool) (row : list xC) : list xC :=
  zipWith (fun (m : bool) e => if m then cfin C0 else e) mask row.

(** [a[:, mask] = 0], in place; the mask must have one entry per column. *)
Definition setitem_cols_zero (p : ref) (mask : list bool) (h : heap)
  : outcome unit * heap :=
  let a := h p in
  if Nat.eqb (length mask) (shape1 a) then
    (Return tt,
     store h p (mkArr (shape0 a) (shape1 a) (map (zero_where mask) (data a))))
  else (Raise IndexError, h).

(** [np.diff] *)
Fixpoint diff (x : list R) : list R :=
  match x with
  | a :: (b :: _) as t => (b - a) :: diff t
  | _ => []
  end.

(** [y[1:] + y[:-1]] *)
Fixpoint pairsum (y : list xC) : list xC :=
  match y with
  | a :: (b :: _) as t => xCadd b a :: pairsum t
  | _ => []
  end.

(** [np.cumsum] *)
Fixpoint cumsum_from (acc : xC) (l : list xC) : list xC :=
  match l with
  | [] => []
  | a :: t => let s := xCadd acc a in s :: cumsum_from s t
  end.

Definition cumsum (l : list xC) : list xC :=
  match l with
  | [] => []
  | a :: t => a :: cumsum_from a t
  end.

(** One row of [scipy.integrate.cumtrapz(y, x=x, initial=0)]:
    [concatenate([[0], cumsum(d * (y[1:] + y[:-1]) / 2.0)])]. *)
Definition cumtrapz_row (x : list R) (y : list xC) : list xC :=
  cfin C0 ::
  cumsum (zipWith (fun d s => xCdiv (xCmul (xRtoC (fin d)) s) (cfin (RtoC 2)))
                  (diff x) (pairsum y)).

(** [cumtrapz] along the last axis of an array of [ncols] columns; scipy
    raises a ValueError unless [len(diff(x)) == ncols - 1]. *)
Definition cumtrapz (ncols : nat) (y : matrix xC) (x : list R)
  : outcome (matrix xC) :=
  if Z.eqb (Z.of_nat (length (diff x))) (Z.of_nat ncols - 1) then
    Return (map (cumtrapz_row x) y)
  else
    Raise (ValueError
      "If given, length of x along axis must be the same as y.").

(** ** sc.py: kickerLong and kickerTrans *)

Module Kicker.

(** [beta] is a number or a Python list. *)
Inductive beta_arg : Type :=
| BetaFloat (b : R)
| BetaList (l : list R).

Definition single_beta (beta : beta_arg) : outcome R :=
  match beta with
  | BetaFloat b => Return b
  | BetaList [b] => Return b
  | BetaList _ => Raise (ValueError "Currently only single betas are supported.")
  end.

Definition default_z_borders : R * R := (0, 0).
Definition default_Zc : R := 50.

(** [if (z_borders[0]**2+z_borders[1]**2) < 1e-6: z_borders = [z[0], z[-1]]] *)
Definition effective_borders (z : list R) (z_borders : R * R)
  : outcome (R * R) :=
  if Rltb (fst z_borders ^ 2 + snd z_borders ^ 2) (1 / 1000000) then
    let! lo := getitem z 0%nat in
    let! hi := getlast z in
    Return (lo, hi)
  else Return z_borders.

(** [A[:, z<z_borders[0]] = 0; A[:, z>z_borders[1]] = 0] *)
Definition gate (p : ref) (z : list R) (b : R * R) (h : heap)
  : outcome unit * heap :=
  match setitem_cols_zero p (map (fun zj => Rltb zj (fst b)) z) h with
  | (Return _, h1) =>
      setitem_cols_zero p (map (fun zj => Rltb (snd b) zj) z) h1
  | (Raise e, h1) => (Raise e, h1)
  end.

(** [k = 2*np.pi*f / (beta*clight)] *)
Definition wavenumber (f : list R) (beta : R) : list xR :=
  map (fun fi => xRdiv (fin (2 * PI * fi)) (fin (beta * clight))) f.

(** [np.exp(1j*k_*z_) * A] *)
Definition phase_weighted (k : list xR) (z : list R) (A : matrix xC)
  : matrix xC :=
  zipWith (fun ki row =>
    zipWith (fun zj e =>
      xCmul (xCexp (xCmul (xCmul (cfin Ci) (xRtoC ki)) (xRtoC (fin zj)))) e)
      z row) k A.

Definition mmap {A B} (g : A -> B) (m : matrix A) : matrix B :=
  map (map g) m.

Definition mzip {A B D} (g : A -> B -> D) (m : matrix A) (n : matrix B)
  : matrix D :=
  zipWith (zipWith g) m n.

Record long_result : Type := mkLong {
  Rshunt : matrix xR;
  K : matrix xC;
  ZP : matrix xC;
  V : matrix xC;
  VK : xR;
  V0 : matrix xC;
  R_ : matrix xR;
  T : matrix xC
}.

Definition kickerLong (Ez : ref) (z f : list R) (Pin_eff : R)
    (beta : beta_arg) (z_borders : R * R) (Zc : R) (h : heap)
  : outcome long_result * heap :=
  let nf := length f in
  let nz := length z in
  match effective_borders z z_borders with
  | Raise e => (Raise e, h)
  | Return z_borders =>
  if negb (Nat.eqb (shape0 (h Ez)) nf && Nat.eqb (shape1 (h Ez)) nz) then
    (Raise (ValueError "Ez is not of correct shape, i.e. (len(f), len(z))."),
     h)
  else
  match single_beta beta with
  | Raise e => (Raise e, h)
  | Return beta =>
  match gate Ez z z_borders h with
  | (Raise e, h') => (Raise e, h')
  | (Return _, h') =>
    let Ez_ := data (h' Ez) in
    let k := wavenumber f beta in
    let VK := xRsqrt (fin (2 * Zc * Pin_eff)) in
    (let! V0 := cumtrapz nz Ez_ z in
     let! V := cumtrapz nz (phase_weighted k z Ez_) z in
     let K := mmap (fun v => xCdiv v (xRtoC VK)) V in
     let Rshunt := mmap (fun c => xRmul (fin Zc) (xRsq (xCabs c))) K in
     let R := mmap (fun v => xRdiv (xRsq (xCabs v)) (fin (2 * Pin_eff))) V0 in
     let T := mzip xCdiv V V0 in
     let ZP := mmap (fun c => xCmul (xRtoC (fin (1 / 2 * Zc))) c) K in
     Return (mkLong Rshunt K ZP V VK V0 R T),
     h')
  end end end.

Record trans_result : Type := mkTrans {
  Ru_shunt : matrix xR;
  Ku : matrix xC;
  ZPu_prime : matrix xC;
  dV_over_du : matrix xC;
  VK_u : xR
}.

(** [1j*beta*clight/omg_*1/VK*dV_over_du], entry by entry *)
Definition Ku_entry (beta : R) (omg : R) (VK : xR) (dV : xC) : xC :=
  xCmul
    (xCdiv
       (xCmul
          (xCdiv (cfin (Cmul (Cmul Ci (RtoC beta)) (RtoC clight)))
                 (xRtoC (fin omg)))
          (cfin (RtoC 1)))
       (xRtoC VK))
    dV.

(** [-1j/2*omg_/(beta*clight)*Zc*Ku], entry by entry *)
Definition ZPu_entry (beta : R) (omg : R) (Zc : R) (ku : xC) : xC :=
  xCmul
    (xCmul
       (xCdiv
          (xCmul (xCdiv (cfin (Cneg Ci)) (cfin (RtoC 2))) (xRtoC (fin omg)))
          (xRtoC (fin (beta * clight))))
       (xRtoC (fin Zc)))
    ku.

Definition kickerTrans (dEz_du : ref) (z f : list R) (Pin_eff : R)
    (beta : beta_arg) (z_borders : R * R) (Zc : R) (extra_values : bool)
    (h : heap) : outcome trans_result * heap :=
  if extra_values then
    (Raise (NotImplementedError
       "Values like those for infinitely fast particles are not implemented yet."),
     h)
  else
  let nf := length f in
  let nz := length z in
  match effective_borders z z_borders with
  | Raise e => (Raise e, h)
  | Return z_borders =>
  if negb (Nat.eqb (shape0 (h dEz_du)) nf && Nat.eqb (shape1 (h dEz_du)) nz)
  then
    (Raise (ValueError
       "dEz_du is not of correct shape, i.e. (len(f), len(z))."), h)
  else
  match single_beta beta with
  | Raise e => (Raise e, h)
  | Return beta =>
  match gate dEz_du z z_borders h with
  | (Raise e, h') => (Raise e, h')
  | (Return _, h') =>
    let dEz_du_ := data (h' dEz_du) in
    let k := wavenumber f beta in
    let omg := map (fun fi => 2 * PI * fi) f in
    let VK := xRsqrt (fin (2 * Zc * Pin_eff)) in
    (let! dV := cumtrapz nz (phase_weighted k z dEz_du_) z in
     let Ku := zipWith (fun o row => map (Ku_entry beta o VK) row) omg dV in
     let Ru := mmap (fun c => xRmul (fin Zc) (xRsq (xCabs c))) Ku in
     let ZPu := zipWith (fun o row => map (ZPu_entry beta o Zc) row) omg Ku in
     Return (mkTrans Ru Ku ZPu dV VK),
     h')
  end end end.

End Kicker.

(** ** sc.py: rotate_phase *)

Module Phase.

(** [np.mod] on doubles *)
Definition Rmod (x y : R) : R := x - IZR (Zfloor (x / y)) * y.

(** The correction [np.unwrap] adds for one step [dd] of the phase. *)
Definition ph_correct (dd : xR) : xR :=
  match dd with
  | None => None
  | Some d =>
      let ddmod := Rmod (d + PI) (2 * PI) - PI in
      let ddmod := if Reqb ddmod (- PI) && Rltb 0 d then PI else ddmod in
      if Rltb (Rabs d) PI then Some 0 else Some (ddmod - d)
  end.

Fixpoint xdiff (p : list xR) : list xR :=
  match p with
  | a :: (b :: _) as t => xRsub b a :: xdiff t
  | _ => []
  end.

Fixpoint xcumsum_from (acc : xR) (l : list xR) : list xR :=
  match l with
  | [] => []
  | a :: t => let s := xRadd acc a in s :: xcumsum_from s t
  end.

Definition xcumsum (l : list xR) : list xR :=
  match l with
  | [] => []
  | a :: t => a :: xcumsum_from a t
  end.

(** [np.unwrap] *)
Definition unwrap (p : list xR) : list xR :=
  match p with
  | [] => []
  | p0 :: ps => p0 :: zipWith xRadd ps (xcumsum (map ph_correct (xdiff p)))
  end.

(** [A[:, -1]] *)
Definition last_column (A : ndarray) : outcome (list xC) :=
  if Nat.eqb (shape1 A) 0 then Raise IndexError
  else Return (map (fun row => last row None) (data A)).

(** [np.exp(-1j*f/(f2-f1)*(phi2-phi1))] for one frequency *)
Definition ramp (f1 f2 : R) (phi1 phi2 : xR) (fk : R) : xC :=
  xCexp
    (xCmul
       (xCdiv (xCmul (cfin (Cneg Ci)) (xRtoC (fin fk)))
              (xRtoC (fin (f2 - f1))))
       (xRtoC (xRsub phi2 phi1))).

(** [A * B] where row [k] of [B] repeats [b[k]]: numpy broadcasts a single
    row of either operand over the rows of the other. *)
Definition mul_rows (A : matrix xC) (b : list xC) : outcome (matrix xC) :=
  if Nat.eqb (length A) (length b) then
    Return (zipWith (fun row bk => map (fun a => xCmul a bk) row) A b)
  else
    match A, b with
    | _, [b0] => Return (map (fun row => map (fun a => xCmul a b0) row) A)
    | [row], _ => Return (map (fun bk => map (fun a => xCmul a bk) row) b)
    | _, _ => Raise (ValueError "operands could not be broadcast together")
    end.

(** [out[i, -1]] *)
Definition entry_last (out : matrix xC) (i : nat) : outcome xC :=
  let! row := getitem out i in
  getlast row.

Definition rotate_phase (A : ndarray) (f : list R) (f1 f2 : R)
  : outcome (matrix xC) :=
  let! i1 := argmin (map (fun fk => Rabs (fk - f1)) f) in
  let! i2 := argmin (map (fun fk => Rabs (fk - f2)) f) in
  let! col := last_column A in
  let phi := unwrap (map xCangle col) in
  let! phi1 := getitem phi i1 in
  let! phi2 := getitem phi i2 in
  let! out := mul_rows (data A) (map (ramp f1 f2 phi1 phi2) f) in
  let! w := entry_last out i1 in
  let phi0 := xCangle w in
  let r := xCexp (xCmul (cfin (Cneg Ci)) (xRtoC phi0)) in
  Return (map (map (fun a => xCmul a r)) out).

End Phase.

(** ** Vocabulary of the properties *)

(** [i] is the first index at which [l] takes its least value. *)
Definition first_min (l : list R) (i : nat) : Prop :=
  exists v, nth_error l i = Some v /\
    (forall j w, nth_error l j = Some w -> v <= w) /\
    (forall j w, (j < i)%nat -> nth_error l j = Some w -> v < w).

(** The distances the slicer minimises. *)
Definition dists (lines : list R) (x0 : R) : list R :=
  map (fun x => Rabs (x - x0)) lines.

(** Strictly increasing coordinate lines. *)
Definition increasing (l : list R) : Prop :=
  forall i j a b, (i < j)%nat ->
    nth_error l i = Some a -> nth_error l j = Some b -> a < b.

(** A 3-D array of [Nx] planes of [Ny] lines. *)
Definition shape3 (Nx Ny : nat) (a : Fields.array3) : Prop :=
  length a = Nx /\ Forall (fun plane => length plane = Ny) a.

(** Every named field has a z component on the mesh. *)
Definition fields_on_mesh (n Nx Ny : nat) (fields3d : list (list Fields.array3))
  : Prop :=
  forall i, (i < n)%nat ->
    exists field3d zc, nth_error fields3d i = Some field3d /\
      nth_error field3d 2 = Some zc /\ shape3 Nx Ny zc.

(** A small mesh and one field on it, to run the slicer on. *)
Definition demo_lines : list R := [0; 1; 2].

Definition demo_field : list Fields.array3 :=
  [[]; []; repeat (repeat [cfin (RtoC 1); cfin (RtoC 2)] 3) 3].

(** A field whose z component is affine in x and in y, with complex
    coefficients [a jz], [b jz], [c jz] on the z index [jz]. *)
Definition affine_value (a b c : C) (x y : R) : C :=
  Cadd (Cadd (Cmul a (RtoC x)) (Cmul b (RtoC y))) c.

Definition affine_array (xlines ylines : list R) (nz : nat)
    (a b c : nat -> C) : Fields.array3 :=
  map (fun x =>
    map (fun y =>
      map (fun jz => cfin (affine_value (a jz) (b jz) (c jz) x y))
          (seq 0 nz)) ylines) xlines.

(** One affine field on the small mesh: slope [3 + i] along x, [-2] along
    y. *)
Definition demo_a (i jz : nat) : C := mkC 3 1.
Definition demo_b (i jz : nat) : C := mkC (-2) 0.
Definition demo_c (i jz : nat) : C := mkC 0 0.

Definition demo_affine_fields : list (list Fields.array3) :=
  [[[]; [];
    affine_array demo_lines demo_lines 2 (demo_a 0) (demo_b 0) (demo_c 0)]].

(** The hard gate of the kicker functions on one row: zero where [z] lies
    outside the borders, the old value elsewhere. *)
Definition gated_row (z : list R) (b : R * R) (row : list xC) : list xC :=
  zipWith (fun zj e =>
             if Rltb zj (fst b) || Rltb (snd b) zj then cfin C0 else e)
          z row.

Definition gated (z : list R) (b : R * R) (a : ndarray) : ndarray :=
  mkArr (shape0 a) (shape1 a) (map (gated_row z b) (data a)).

(** Every row of [m] starts with [0]. *)
Definition first_column_zero (m : matrix xC) : Prop :=
  Forall (fun row => nth_error row 0 = Some (cfin C0)) m.

(** A store whose arrays all hold one row of three ones, to run the kicker
    functions on with [z = demo_lines] and one frequency. *)
Definition demo_row : list xC := [cfin (RtoC 1); cfin (RtoC 1); cfin (RtoC 1)].
Definition demo_heap : heap := fun _ => mkArr 1 3 [demo_row].

(** A finite double. *)
Definition is_fin {A} (e : option A) : Prop := exists v, e = Some v.

(** The last column of an array holds finite, non-zero values. *)
Definition last_column_nonzero (A : ndarray) : Prop :=
  Forall (fun row => exists c, last row None = Some c /\ c <> C0) (data A).

(** Two rows of two columns and their frequencies, to run the phase
    normaliser on. *)
Definition demo_array : ndarray :=
  mkArr 2 2 [[cfin (RtoC 1); cfin Ci]; [cfin (RtoC 2); cfin (mkC 1 1)]].
Definition demo_freqs : list R := [1; 2].

(** ** Further vocabulary *)

(** The other components of what [beam_converter] returns. *)
Definition out_gamma (t : xR * xR * xR * xR * xR) : xR :=
  let '(_, g, _, _, _) := t in g.
Definition out_p_over_A (t : xR * xR * xR * xR * xR) : xR :=
  let '(_, _, p, _, _) := t in p.
Definition out_Wkin_over_A (t : xR * xR * xR * xR * xR) : xR :=
  let '(_, _, _, w, _) := t in w.

(** The input types [beam_converter] converts from. *)
Definition convertible (input_type : string) : Prop :=
  input_type = "beta"%string \/ input_type = "gamma"%string \/
  input_type = "p_over_A"%string \/ input_type = "Wkin_over_A"%string \/
  input_type = "Brho"%string.

(** [m[i][j]] *)
Definition entry {A} (m : matrix A) (i j : nat) : option A :=
  match nth_error m i with
  | Some row => nth_error row j
  | None => None
  end.

(** A matrix of [n0] rows of [n1] entries. *)
Definition has_shape {A} (n0 n1 : nat) (m : matrix A) : Prop :=
  length m = n0 /\ Forall (fun row => length row = n1) m.

(** A field profile affine in [z], [a*z + b] with complex [a], [b], and
    its antiderivative [a*z^2/2 + b*z]. *)
Definition affine_in_z (a b : C) (zj : R) : C :=
  Cadd (Cmul a (RtoC zj)) b.

Definition affine_integral (a b : C) (zj : R) : C :=
  Cadd (Cmul a (RtoC (zj ^ 2 / 2))) (Cmul b (RtoC zj)).

(** A store whose arrays hold one row, affine in [z] on [demo_lines]. *)
Definition demo_affine_heap : heap :=
  fun _ =>
    mkArr 1 3
      [map (fun zj => cfin (affine_in_z (mkC 2 0) (mkC 1 1) zj)) demo_lines].

(** The point of the unit circle at angle [theta]. *)
Definition Cunit (theta : R) : C := mkC (cos theta) (sin theta).

(** A whole number of turns. *)
Definition is_turn (t : R) : Prop := exists k : Z, t = 2 * PI * IZR k.

(** The last column of an array holds finite values. *)
Definition last_column_finite (A : ndarray) : Prop :=
  Forall (fun row => is_fin (last row None)) (data A).

(** Rows that numpy can stack: all of the length of the first one. *)
Definition uniform {A} (rows : list (list A)) : bool :=
  match rows with
  | [] => true
  | r :: rest => forallb (fun r' => Nat.eqb (length r') (length r)) rest
  end.

(** ** sc.py: hd5_import_path

    The files are read through h5py ([h5_import_file]) and the folder
    through [os.listdir]; what they return is a parameter of the model. *)

Module H5.

Inductive io_exn : Type :=
| UnboundLocalError (name : string)
| InhomogeneousShape
| ExternalError (msg : string).

Inductive io (A : Type) : Type :=
| Done (a : A)
| Fails (e : io_exn).
Arguments Done {A} a.
Arguments Fails {A} e.

(** What [h5_import_file] returns: [f, z, Ez, dEz_dx, dEz_dy, x0, y0]. *)
Record h5_slice : Type := mkSlice {
  file_f : R;
  file_z : list R;
  file_Ez : list xC;
  file_dEz_dx : list xC;
  file_dEz_dy : list xC;
  file_x0 : R;
  file_y0 : R
}.

(** The names the loop binds: the four lists, and [z], [x0], [y0] once a
    file has been read. *)
Record import_state : Type := mkState {
  st_f : list R;
  st_dEz_dx : matrix xC;
  st_dEz_dy : matrix xC;
  st_Ez : matrix xC;
  st_z_x0_y0 : option (list R * R * R)
}.

Definition initial_state : import_state := mkState [] [] [] [] None.

(** [np.array(rows)] of a list of profiles: profiles of one length are
    stacked as the rows of a matrix, profiles of different lengths are
    refused (the ValueError of numpy 1.24 and later). *)
Definition np_array (rows : matrix xC) : io (matrix xC) :=
  if uniform rows then Done rows else Fails InhomogeneousShape.

Section ImportLoop.

Variable listdir : string -> io (list string).
Variable h5_import_file : string -> io h5_slice.

Fixpoint import_loop (path : string) (names : list string)
    (st : import_state) : io import_state :=
  match names with
  | [] => Done st
  | filename :: rest =>
      match h5_import_file (path ++ filename) with
      | Fails e => Fails e
      | Done s =>
          import_loop path rest
            (mkState (st_f st ++ [file_f s])
                     (st_dEz_dx st ++ [file_dEz_dx s])
                     (st_dEz_dy st ++ [file_dEz_dy s])
                     (st_Ez st ++ [file_Ez s])
                     (Some (file_z s, file_x0 s, file_y0 s)))
      end
  end.

(** Returns [f, z, Ez, dEz_dx, dEz_dy, x0, y0]; the arrays are built in
    the order of the source, before [z] is looked up for the result. *)
Definition hd5_import_path (path : string)
  : io (list R * list R * matrix xC * matrix xC * matrix xC * R * R) :=
  match listdir path with
  | Fails e => Fails e
  | Done names =>
      match import_loop path names initial_state with
      | Fails e => Fails e
      | Done st =>
          match np_array (st_dEz_dx st) with
          | Fails e => Fails e
          | Done dEz_dx =>
          match np_array (st_dEz_dy st) with
          | Fails e => Fails e
          | Done dEz_dy =>
          match np_array (st_Ez st) with
          | Fails e => Fails e
          | Done Ez =>
          match st_z_x0_y0 st with
          | None => Fails (UnboundLocalError "z")
          | Some (z, x0, y0) => Done (st_f st, z, Ez, dEz_dx, dEz_dy, x0, y0)
          end end end end
      end
  end.

End ImportLoop.

End H5.

(** ** fields.py: load_fields, the unpacking of one result buffer

    Lines 149 to 156 of [load_fields]: the flat buffer of interleaved real
    and imaginary parts that the result reader filled is made complex, cut
    into the three components, and each component is reshaped from the
    z-major order of the reader to an array indexed [ix][iy][iz].  The
    buffer holds finite numbers. *)

Module Load.

(** [l[0::2]] and [l[1::2]] *)
Fixpoint evens (l : list R) : list R :=
  match l with
  | [] => []
  | a :: t => a :: match t with [] => [] | _ :: t' => evens t' end
  end.

Definition odds (l : list R) : list R :=
  match l with
  | [] => []
  | _ :: t => evens t
  end.

(** [numpy.array(e) + 1j*numpy.array(o)]: equal lengths add entry by
    entry, an array of one entry is broadcast over the other one, anything
    else is a ValueError. *)
Definition plus_j (a b : R) : xC := cfin (Cadd (RtoC a) (Cmul Ci (RtoC b))).

Definition add_imaginary (e o : list R) : outcome (list xC) :=
  if Nat.eqb (length e) (length o) then Return (zipWith plus_j e o)
  else
    match e, o with
    | [a], _ => Return (map (plus_j a) o)
    | _, [b] => Return (map (fun a => plus_j a b) e)
    | _, _ => Raise (ValueError "operands could not be broadcast together")
    end.

(** [a.reshape((n0, n1, n2))] of a flat array, in C order. *)
Definition reshape3 (n0 n1 n2 : nat) (l : list xC) : outcome Fields.array3 :=
  if Nat.eqb (length l) (n0 * n1 * n2) then
    Return (map (fun i0 =>
              map (fun i1 => firstn n2 (skipn ((i0 * n1 + i1) * n2) l))
                  (seq 0 n1))
              (seq 0 n0))
  else Raise (ValueError "cannot reshape array").

(** [a[i0, i1, i2]] of an array known to hold it *)
Definition get3 (a : Fields.array3) (i0 i1 i2 : nat) : xC :=
  match nth_error a i0 with
  | Some plane =>
      match nth_error plane i1 with
      | Some line =>
          match nth_error line i2 with
          | Some e => e
          | None => None
          end
      | None => None
      end
  | None => None
  end.

(** [numpy.swapaxes(a, 0, 2)] of an array of shape [(n0, n1, n2)] *)
Definition swapaxes02 (n0 n1 n2 : nat) (a : Fields.array3) : Fields.array3 :=
  map (fun i2 =>
    map (fun i1 => map (fun i0 => get3 a i0 i1 i2) (seq 0 n0)) (seq 0 n1))
    (seq 0 n2).

(** [field3d[c*Np : (c+1)*Np].reshape((Nz, Ny, Nx))], axes 0 and 2
    swapped *)
Definition component (Nx Ny Nz : nat) (field3d : list xC) (c : nat)
  : outcome Fields.array3 :=
  let Np := (Nx * Ny * Nz)%nat in
  let! r := reshape3 Nz Ny Nx (firstn Np (skipn (c * Np) field3d)) in
  Return (swapaxes02 Nz Ny Nx r).

Definition unpack_field (Nx Ny Nz : nat) (buffer : list R)
  : outcome (list Fields.array3) :=
  let! field3d := add_imaginary (evens buffer) (odds buffer) in
  let! x_comp_3d := component Nx Ny Nz field3d 0 in
  let! y_comp_3d := component Nx Ny Nz field3d 1 in
  let! z_comp_3d := component Nx Ny Nz field3d 2 in
  Return [x_comp_3d; y_comp_3d; z_comp_3d].

End Load.

(** Two files of a folder, to run the import on. *)
Definition demo_listdir (path : string) : H5.io (list string) :=
  H5.Done ["a.hdf5"%string; "b.hdf5"%string].

Definition demo_h5_import_file (name : string) : H5.io H5.h5_slice :=
  if String.eqb name "dir/a.hdf5" then
    H5.Done (H5.mkSlice 1 [0; 1] [cfin (RtoC 1); cfin (RtoC 2)] [] [] 0 0)
  else
    H5.Done (H5.mkSlice 2 [0; 1] [cfin (RtoC 3); cfin (RtoC 4)] [] [] 0 1).

Definition demo_empty_listdir (path : string) : H5.io (list string) :=
  H5.Done [].

(** A buffer for a mesh of 2 x 1 x 2 nodes: 3 components of 4 complex
    samples, sample [k] being [k + j*(100 + k)]. *)
Definition demo_buffer : list R :=
  flat_map (fun k => [INR k; 100 + INR k]) (seq 0 12).

(** ** curves.py: paste, copy, new_label

    The clipboard of pyperclip is a string that [copy] sets and [paste]
    reads.  Characters are bytes.  How numpy prints a double
    ([np.asarray(data, str)]) and reads one ([np.asfarray], numpy 1.x) is a
    parameter of the model: [format] and [parse], the latter with [None]
    for text that is no number (a ValueError). *)

Module Curves.

Definition LF : Ascii.ascii := Ascii.Ascii false true false true false false false false.
Definition TAB : Ascii.ascii := Ascii.Ascii true false false true false false false false.
Definition CR : Ascii.ascii := Ascii.Ascii true false true true false false false false.

(** [s.split(sep)], [sep] of one character *)
Fixpoint split (sep : Ascii.ascii) (s : string) : list string :=
  match s with
  | EmptyString => [EmptyString]
  | String c s' =>
      if Ascii.eqb c sep then EmptyString :: split sep s'
      else
        match split sep s' with
        | [] => [String c EmptyString]
        | w :: ws => String c w :: ws
        end
  end.

(** [sep.join(l)] *)
Fixpoint join (sep : Ascii.ascii) (l : list string) : string :=
  match l with
  | [] => EmptyString
  | w :: ws =>
      match ws with
      | [] => w
      | _ :: _ => (w ++ String sep (join sep ws))%string
      end
  end.

(** [s[:-1]] *)
Fixpoint drop_last (s : string) : string :=
  match s with
  | EmptyString => EmptyString
  | String c s' =>
      match s' with
      | EmptyString => EmptyString
      | String _ _ => String c (drop_last s')
      end
  end.

(** [l[i] = v] on a list *)
Definition list_setitem {A} (l : list A) (i : nat) (v : A)
  : outcome (list A) :=
  if Nat.ltb i (length l) then Return (firstn i l ++ v :: skipn (S i) l)
  else Raise IndexError.

(** [data[:, j]]: an array of one axis has no columns. *)
Fixpoint column_of (data : matrix xR) (j : nat) : outcome (list xR) :=
  match data with
  | [] => Return []
  | row :: rest =>
      let! x := getitem row j in
      let! xs := column_of rest j in
      Return (x :: xs)
  end.

Definition column (data : matrix xR) (j : nat) : outcome (list xR) :=
  match data with
  | [] => Raise IndexError
  | _ :: _ => column_of data j
  end.

(** [re + 1j*im] on arrays of one length *)
Definition complex_of (a b : xR) : xC :=
  xCadd (xRtoC a) (xCmul (cfin Ci) (xRtoC b)).

Section Clipboard.

Variable format : xR -> string.
Variable parse : string -> option xR.

Fixpoint parse_row (cells : list string) : outcome (list xR) :=
  match cells with
  | [] => Return []
  | c :: cs =>
      match parse c with
      | None => Raise (ValueError "could not convert string to float")
      | Some x => let! xs := parse_row cs in Return (x :: xs)
      end
  end.

Fixpoint parse_rows (rows : list (list string)) : outcome (matrix xR) :=
  match rows with
  | [] => Return []
  | r :: rs =>
      let! x := parse_row r in
      let! xs := parse_rows rs in
      Return (x :: xs)
  end.

(** [np.asfarray(rows, float)] of a list of lists of strings; the empty
    list gives an array of one axis, here the matrix without rows. *)
Definition asfarray (rows : list (list string)) : outcome (matrix xR) :=
  if uniform rows then parse_rows rows
  else Raise (ValueError "inhomogeneous shape").

(** Returns [head, data, freq, cmplx]. *)
Definition paste (clipboard : string)
  : outcome (list string * matrix xR * list xR * list xC) :=
  let content := split LF clipboard in
  let head := firstn 24 content in
  let body := skipn 24 content in
  let! data :=
    asfarray (map (fun line => split TAB (drop_last line)) (removelast body)) in
  let! freq := column data 0 in
  let! re_part := column data 1 in
  let! im_part := column data 2 in
  Return (head, data, freq, zipWith complex_of re_part im_part).

(** The clipboard after [copy(head, data)], [data] an array of two
    axes. *)
Definition copy (head : list string) (data : matrix xR) : string :=
  let body :=
    map (fun x => (join TAB (map format x) ++ String CR EmptyString)%string)
        data in
  join LF (head ++ body).

End Clipboard.

(** The list [head] after [new_label(head, label)]. *)
Definition new_label (head : list string) (label : string)
  : outcome (list string) :=
  list_setitem head 6
    ("Curvelabel  = " ++ label ++ String CR EmptyString)%string.

(** No occurrence of [c] in [s]. *)
Fixpoint free_of (c : Ascii.ascii) (s : string) : bool :=
  match s with
  | EmptyString => true
  | String a s' => negb (Ascii.eqb a c) && free_of c s'
  end.

End Curves.

(** A header of 24 lines, and a way to print and read the numbers 0
    and 1, to run the clipboard functions on. *)
Definition demo_head : list string := repeat "#"%string 24.

Definition demo_format (x : xR) : string :=
  match x with
  | None => "nan"
  | Some r => if Reqb r 1 then "1.0" else "0.0"
  end.

Definition demo_parse (s : string) : option xR :=
  if String.eqb s "1.0" then Some (Some 1)
  else if String.eqb s "0.0" then Some (Some 0)
  else if String.eqb s "nan" then Some None
  else None.

Definition demo_curve : matrix xR :=
  [[Some 0; Some 1; Some 0]; [Some 1; Some 0; Some 1]].

(** ** The range of Python floats

    [Beam] and [Kicker] above compute the square of an argument exactly.
    On Python floats two errors come from the range of doubles: [x**2]
    raises OverflowError where the square is not finite, and a square that
    rounds to 0.0 makes [1/x**2] a division by zero.  [PyBeam] and
    [PyKicker] are the same functions with these two errors, for arguments
    that are Python floats, and with the literal [1e-6] as the double it
    denotes; the arithmetic in range stays exact. *)

Module PyFloat.

Definition Rleb (a b : R) : bool := if Rle_dec a b then true else false.

(** The square of a double rounds to 0.0 up to [2^-1075], half the least
    positive double, and to inf from [2^1024 - 2^970] on, half a unit in
    the last place above the greatest double. *)
Definition sq_min : R := / 2 ^ 1075.
Definition sq_max : R := 2 ^ 1024 - 2 ^ 970.

(** The double that the literal [1e-6] denotes. *)
Definition lit_1e_6 : R := 4722366482869645 / 2 ^ 72.

(** [x**2] *)
Definition py_sq (x : R) : outcome R :=
  if Rleb sq_max (x ^ 2) then Raise OverflowError else Return (x ^ 2).

(** [1/x**2] *)
Definition py_inv_sq (x : R) : outcome R :=
  let! s := py_sq x in
  if Rleb s sq_min then Raise ZeroDivisionError else Return (1 / s).

End PyFloat.

Module PyBeam.

Definition go_backwards (input_type : string) (input_value z_over_A : R)
  : outcome Beam.locals :=
  if String.eqb input_type "beta" then
    Return (Beam.mkLocals (fin input_value) true None None None None)
  else if String.eqb input_type "gamma" then
    let gamma := input_value in
    let! q := PyFloat.py_inv_sq gamma in
    Return (Beam.mkLocals (xRsqrt (fin (1 - q))) false
                          (Some (fin gamma)) None None None)
  else if String.eqb input_type "p_over_A" then
    let p_over_A := input_value in
    let gamma_times_beta := p_over_A / m_proton in
    let! q := PyFloat.py_inv_sq gamma_times_beta in
    Return (Beam.mkLocals (xRdiv (fin 1) (xRsqrt (fin (1 + q)))) false
                          None (Some (fin p_over_A)) None None)
  else if String.eqb input_type "Wkin_over_A" then
    let Wkin_over_A := input_value in
    let gamma := Wkin_over_A / m_proton + 1 in
    let! q := PyFloat.py_inv_sq gamma in
    Return (Beam.mkLocals (xRsqrt (fin (1 - q))) false
                          (Some (fin gamma)) None (Some (fin Wkin_over_A))
                          None)
  else if String.eqb input_type "Brho" then
    if Reqb z_over_A 0 then
      Raise (ValueError "Please specify charge to calculate Brho.")
    else
      let Brho := input_value in
      let gamma_times_beta := Brho * z_over_A * e_over_m_proton / clight in
      let! q := PyFloat.py_inv_sq gamma_times_beta in
      Return (Beam.mkLocals (xRdiv (fin 1) (xRsqrt (fin (1 + q)))) false
                            None None None (Some (fin Brho)))
  else if String.eqb input_type "p" then
    Raise (ValueError "Please specify momentum per nucleon, p_over_A.")
  else if String.eqb input_type "Wkin" then
    Raise (ValueError "Please specify energy per nucleon, Wkin_over_A.")
  else
    Raise (ValueError "Unknown input type.").

Definition go_forward (z_over_A : R) (l : Beam.locals)
  : outcome (xR * xR * xR * xR * xR) :=
  let beta := Beam.l_beta l in
  let! gamma :=
    match Beam.l_gamma l with
    | Some g => Return g
    | None =>
        if Beam.l_beta_is_pyfloat l then
          match beta with
          | Some b =>
              let! s := PyFloat.py_sq b in Beam.py_pow_neg_half (1 - s)
          | None => Return None
          end
        else Return (xRpow_neg_half (xRsub (fin 1) (xRsq beta)))
    end in
  let p_over_A :=
    match Beam.l_p_over_A l with
    | Some p => p
    | None => xRmul (xRmul gamma beta) (fin m_proton)
    end in
  let Wkin_over_A :=
    match Beam.l_Wkin_over_A l with
    | Some w => w
    | None => xRmul (xRsub gamma (fin 1)) (fin m_proton)
    end in
  let Brho :=
    match Beam.l_Brho l with
    | Some b => b
    | None =>
        if Reqb z_over_A 0 then fin 0
        else xRmul (xRdiv (xRdiv (xRmul gamma beta) (fin z_over_A))
                          (fin e_over_m_proton)) (fin clight)
    end in
  Return (beta, gamma, p_over_A, Wkin_over_A, Brho).

Definition beam_converter (input_type : string) (input_value z_over_A : R)
  : outcome (xR * xR * xR * xR * xR) :=
  let! l := go_backwards input_type input_value z_over_A in
  go_forward z_over_A l.

End PyBeam.

Module PyKicker.

(** [if (z_borders[0]**2+z_borders[1]**2) < 1e-6: z_borders = [z[0], z[-1]]],
    [z_borders] a list of Python floats *)
Definition effective_borders (z : list R) (z_borders : R * R)
  : outcome (R * R) :=
  let! s0 := PyFloat.py_sq (fst z_borders) in
  let! s1 := PyFloat.py_sq (snd z_borders) in
  if Rltb (s0 + s1) PyFloat.lit_1e_6 then
    let! lo := getitem z 0%nat in
    let! hi := getlast z in
    Return (lo, hi)
  else Return z_borders.

Definition kickerLong (Ez : ref) (z f : list R) (Pin_eff : R)
    (beta : Kicker.beta_arg) (z_borders : R * R) (Zc : R) (h : heap)
  : outcome Kicker.long_result * heap :=
  let nf := length f in
  let nz := length z in
  match effective_borders z z_borders with
  | Raise e => (Raise e, h)
  | Return z_borders =>
  if negb (Nat.eqb (shape0 (h Ez)) nf && Nat.eqb (shape1 (h Ez)) nz) then
    (Raise (ValueError "Ez is not of correct shape, i.e. (len(f), len(z))."),
     h)
  else
  match Kicker.single_beta beta with
  | Raise e => (Raise e, h)
  | Return beta =>
  match Kicker.gate Ez z z_borders h with
  | (Raise e, h') => (Raise e, h')
  | (Return _, h') =>
    let Ez_ := data (h' Ez) in
    let k := Kicker.wavenumber f beta in
    let VK := xRsqrt (fin (2 * Zc * Pin_eff)) in
    (let! V0 := cumtrapz nz Ez_ z in
     let! V := cumtrapz nz (Kicker.phase_weighted k z Ez_) z in
     let K := Kicker.mmap (fun v => xCdiv v (xRtoC VK)) V in
     let Rshunt :=
       Kicker.mmap (fun c => xRmul (fin Zc) (xRsq (xCabs c))) K in
     let R :=
       Kicker.mmap (fun v => xRdiv (xRsq (xCabs v)) (fin (2 * Pin_eff))) V0 in
     let T := Kicker.mzip xCdiv V V0 in
     let ZP := Kicker.mmap (fun c => xCmul (xRtoC (fin (1 / 2 * Zc))) c) K in
     Return (Kicker.mkLong Rshunt K ZP V VK V0 R T),
     h')
  end end end.

Definition kickerTrans (dEz_du : ref) (z f : list R) (Pin_eff : R)
    (beta : Kicker.beta_arg) (z_borders : R * R) (Zc : R)
    (extra_values : bool) (h : heap)
  : outcome Kicker.trans_result * heap :=
  if extra_values then
    (Raise (NotImplementedError
       "Values like those for infinitely fast particles are not implemented yet."),
     h)
  else
  let nf := length f in
  let nz := length z in
  match effective_borders z z_borders with
  | Raise e => (Raise e, h)
  | Return z_borders =>
  if negb (Nat.eqb (shape0 (h dEz_du)) nf && Nat.eqb (shape1 (h dEz_du)) nz)
  then
    (Raise (ValueError
       "dEz_du is not of correct shape, i.e. (len(f), len(z))."), h)
  else
  match Kicker.single_beta beta with
  | Raise e => (Raise e, h)
  | Return beta =>
  match Kicker.gate dEz_du z z_borders h with
  | (Raise e, h') => (Raise e, h')
  | (Return _, h') =>
    let dEz_du_ := data (h' dEz_du) in
    let k := Kicker.wavenumber f beta in
    let omg := map (fun fi => 2 * PI * fi) f in
    let VK := xRsqrt (fin (2 * Zc * Pin_eff)) in
    (let! dV := cumtrapz nz (Kicker.phase_weighted k z dEz_du_) z in
     let Ku :=
       zipWith (fun o row => map (Kicker.Ku_entry beta o VK) row) omg dV in
     let Ru := Kicker.mmap (fun c => xRmul (fin Zc) (xRsq (xCabs c))) Ku in
     let ZPu :=
       zipWith (fun o row => map (Kicker.ZPu_entry beta o Zc) row) omg Ku in
     Return (Kicker.mkTrans Ru Ku ZPu dV VK),
     h')
  end end end.

End PyKicker.

(** A velocity whose square rounds to 0.0, and a float whose square is not
    finite. *)
Definition demo_tiny_beta : R := / 10 ^ 162.
Definition demo_huge : R := 10 ^ 200.

(** Every entry of [a] in a column whose [z] lies outside the borders is
    zero. *)
Definition zero_outside (z : list R) (b : R * R) (a : ndarray) : Prop :=
  forall row j zj e,
    In row (data a) -> nth_error z j = Some zj -> nth_error row j = Some e ->
    zj < fst b \/ snd b < zj -> e = cfin C0.

(** * Properties *)

(** ** Comparisons *)

Lemma Rltb_true (a b : R) : a < b -> Rltb a b = true.
Proof. intros H; unfold Rltb; destruct (Rlt_dec a b); [reflexivity | contradiction]. Qed.

Lemma Rltb_false (a b : R) : ~ a < b -> Rltb a b = false.
Proof. intros H; unfold Rltb; destruct (Rlt_dec a b); [contradiction | reflexivity]. Qed.

Lemma Reqb_true (a b : R) : a = b -> Reqb a b = true.
Proof. intros H; unfold Reqb; destruct (Req_dec_T a b); [reflexivity | contradiction]. Qed.

Lemma Reqb_false (a b : R) : a <> b -> Reqb a b = false.
Proof. intros H; unfold Reqb; destruct (Req_dec_T a b); [contradiction | reflexivity]. Qed.

(** ** Beam converter *)

Section BeamRoundTrip.

Variables (beta z_over_A : R).
Hypothesis Hbeta : 0 < beta < 1.
Hypothesis HzA : 0 < z_over_A.

Let gamma : R := Rpower (1 - beta ^ 2) (- (1 / 2)).

Lemma gamma_inv_sqrt : gamma = / sqrt (1 - beta ^ 2).
Proof.
  unfold gamma. rewrite Rpower_Ropp. f_equal.
  replace (1 / 2) with (/ 2) by lra.
  apply Rpower_sqrt. nra.
Qed.

Lemma gamma_pos : 0 < gamma.
Proof. unfold gamma, Rpower. apply exp_pos. Qed.

Lemma gamma_sq : gamma ^ 2 = / (1 - beta ^ 2).
Proof.
  rewrite gamma_inv_sqrt.
  assert (H : 0 < 1 - beta ^ 2) by nra.
  rewrite <- sqrt_inv.
  pose proof (Rinv_0_lt_compat _ H) as Hi.
  replace (sqrt (/ (1 - beta ^ 2)) ^ 2)
    with (sqrt (/ (1 - beta ^ 2)) * sqrt (/ (1 - beta ^ 2))) by ring.
  apply sqrt_sqrt. lra.
Qed.

Lemma beta_recovered :
  1 / sqrt (1 + 1 / (gamma * beta) ^ 2) = beta.
Proof.
  assert (H : 0 < 1 - beta ^ 2) by nra.
  assert (Hb : beta <> 0) by lra.
  replace (1 + 1 / (gamma * beta) ^ 2) with ((/ beta) ^ 2).
  - rewrite sqrt_pow2.
    + field. exact Hb.
    + left. apply Rinv_0_lt_compat. lra.
  - replace ((gamma * beta) ^ 2) with (gamma ^ 2 * beta ^ 2) by ring.
    rewrite gamma_sq. field. split; lra.
Qed.

End BeamRoundTrip.

Ltac beam_unfold :=
  cbv beta iota zeta delta [Beam.beam_converter obind Beam.go_forward
    Beam.l_beta Beam.l_gamma Beam.l_beta_is_pyfloat Beam.l_p_over_A
    Beam.l_Wkin_over_A Beam.l_Brho fin Beam.py_pow_neg_half Beam.py_inv_sq
    xRmul xRdiv xRsub xRsq xRsqrt lift1 lift2 xRpow_neg_half].

(** What the converter returns from a velocity below the speed of light. *)
Lemma beam_converter_from_beta (beta z_over_A : R) :
  0 <= beta < 1 -> z_over_A <> 0 ->
  let gamma := Rpower (1 - beta ^ 2) (- (1 / 2)) in
  Beam.beam_converter "beta" beta z_over_A =
  Return (Some beta, Some gamma, Some (gamma * beta * m_proton),
          Some ((gamma - 1) * m_proton),
          Some (gamma * beta / z_over_A / e_over_m_proton * clight)).
Proof.
  intros Hb Hz gamma.
  unfold Beam.beam_converter, Beam.go_backwards.
  change (String.eqb "beta" "beta") with true.
  beam_unfold.
  rewrite (Reqb_false (1 - beta ^ 2) 0) by nra.
  rewrite (Rltb_true 0 (1 - beta ^ 2)) by nra.
  rewrite (Reqb_false z_over_A 0) by assumption.
  rewrite (Reqb_false e_over_m_proton 0) by (unfold e_over_m_proton; lra).
  reflexivity.
Qed.

(** What the converter returns from a non-zero magnetic rigidity. *)
Lemma beam_converter_from_Brho (Brho z_over_A : R) :
  z_over_A <> 0 -> Brho <> 0 ->
  let gtb := Brho * z_over_A * e_over_m_proton / clight in
  exists gamma p W,
    Beam.beam_converter "Brho" Brho z_over_A =
    Return (Some (1 / sqrt (1 + 1 / gtb ^ 2)), gamma, p, W, Some Brho).
Proof.
  intros Hz Hr gtb.
  assert (Hg : gtb <> 0).
  { unfold gtb, e_over_m_proton, clight. intros H.
    apply Rmult_integral in H. destruct H as [H | H].
    - apply Rmult_integral in H. destruct H as [H | H]; [|lra].
      apply Rmult_integral in H. destruct H; contradiction.
    - assert (0 < / 299792458) by (apply Rinv_0_lt_compat; lra). lra. }
  assert (Hg2 : gtb ^ 2 <> 0) by (apply pow_nonzero; exact Hg).
  assert (Hq : 0 < 1 / gtb ^ 2).
  { apply Rdiv_lt_0_compat; [lra|]. nra. }
  assert (Hs : sqrt (1 + 1 / gtb ^ 2) <> 0).
  { apply Rgt_not_eq. apply sqrt_lt_R0. lra. }
  unfold Beam.beam_converter, Beam.go_backwards.
  change (String.eqb "Brho" "beta") with false.
  change (String.eqb "Brho" "gamma") with false.
  change (String.eqb "Brho" "p_over_A") with false.
  change (String.eqb "Brho" "Wkin_over_A") with false.
  change (String.eqb "Brho" "Brho") with true.
  cbv beta iota.
  rewrite (Reqb_false z_over_A 0) by assumption.
  beam_unfold. fold gtb.
  rewrite (Reqb_false _ 0 Hg2).
  beam_unfold.
  rewrite (Rltb_false (1 + 1 / gtb ^ 2) 0) by lra.
  rewrite (Reqb_false _ 0 Hs).
  do 3 eexists. reflexivity.
Qed.

(** With squares taken as exact, converting [beta] in (0,1) to [Brho] and
    that [Brho] back gives [beta] again. *)
Lemma roundtrip_exact (beta z_over_A : R) :
  0 < beta < 1 -> 0 < z_over_A ->
  exists t Brho t',
    Beam.beam_converter "beta" beta z_over_A = Return t /\
    Beam.out_Brho t = Some Brho /\
    Beam.beam_converter "Brho" Brho z_over_A = Return t' /\
    Beam.out_beta t' = Some beta.
Proof.
  intros Hb Hz.
  set (g := Rpower (1 - beta ^ 2) (- (1 / 2))).
  assert (Hg : 0 < g) by (apply gamma_pos).
  set (Brho := g * beta / z_over_A / e_over_m_proton * clight).
  assert (Hgb : Brho * z_over_A * e_over_m_proton / clight = g * beta).
  { unfold Brho, e_over_m_proton, clight. field. lra. }
  assert (HB : Brho <> 0).
  { intros H0. rewrite H0 in Hgb.
    assert (0 < g * beta) by (apply Rmult_lt_0_compat; lra).
    unfold Rdiv in Hgb. rewrite !Rmult_0_l in Hgb. lra. }
  destruct (beam_converter_from_Brho Brho z_over_A) as (ga & p & W & E);
    [lra | exact HB |].
  eexists. exists Brho. eexists.
  split; [apply beam_converter_from_beta; lra |].
  split; [reflexivity |].
  split; [exact E |].
  simpl. rewrite Hgb. f_equal. apply beta_recovered; assumption.
Qed.

(** ** Nearest mesh line *)


Lemma first_min_unique (l : list R) (i j : nat) :
  first_min l i -> first_min l j -> i = j.
Proof.
  intros (v & Hv & Hle & Hlt) (w & Hw & Hle' & Hlt').
  destruct (Nat.lt_trichotomy i j) as [H | [H | H]]; [| exact H |].
  - pose proof (Hlt' _ _ H Hv). pose proof (Hle _ _ Hw). lra.
  - pose proof (Hlt _ _ H Hw). pose proof (Hle' _ _ Hv). lra.
Qed.

Lemma argmin_from_first_min (l pre : list R) (best : nat) (bestv : R) :
  nth_error pre best = Some bestv ->
  (forall j w, nth_error pre j = Some w -> bestv <= w) ->
  (forall j w, (j < best)%nat -> nth_error pre j = Some w -> bestv < w) ->
  first_min (pre ++ l) (argmin_from best bestv (length pre) l).
Proof.
  revert pre best bestv.
  induction l as [| v l IH]; intros pre best bestv Hb Hle Hlt.
  - simpl. rewrite app_nil_r. exists bestv. auto.
  - simpl.
    replace (pre ++ v :: l) with ((pre ++ [v]) ++ l)
      by (rewrite <- app_assoc; reflexivity).
    replace (S (length pre)) with (length (pre ++ [v]))
      by (rewrite length_app; simpl; lia).
    assert (Hsplit : forall j w, nth_error (pre ++ [v]) j = Some w ->
              nth_error pre j = Some w \/ (j = length pre /\ w = v)).
    { intros j w Hj.
      destruct (Nat.lt_ge_cases j (length pre)) as [Hlt' | Hge].
      - left. rewrite nth_error_app1 in Hj by exact Hlt'. exact Hj.
      - right. rewrite nth_error_app2 in Hj by exact Hge.
        destruct (j - length pre)%nat as [| k] eqn:E.
        + simpl in Hj. inversion Hj. split; [lia | reflexivity].
        + simpl in Hj. destruct k; discriminate. }
    unfold Rltb. destruct (Rlt_dec v bestv) as [Hv | Hv].
    + apply IH.
      * rewrite nth_error_app2 by lia. rewrite Nat.sub_diag. reflexivity.
      * intros j w Hj. destruct (Hsplit _ _ Hj) as [Hp | [_ ->]]; [| lra].
        pose proof (Hle _ _ Hp). lra.
      * intros j w Hjl Hj. destruct (Hsplit _ _ Hj) as [Hp | [E _]]; [| lia].
        pose proof (Hle _ _ Hp). lra.
    + apply IH.
      * rewrite nth_error_app1; [exact Hb |].
        apply nth_error_Some. rewrite Hb. discriminate.
      * intros j w Hj. destruct (Hsplit _ _ Hj) as [Hp | [_ ->]]; [| lra].
        exact (Hle _ _ Hp).
      * intros j w Hjl Hj. destruct (Hsplit _ _ Hj) as [Hp | [E _]].
        -- exact (Hlt _ _ Hjl Hp).
        -- assert (best < length pre)%nat
             by (apply nth_error_Some; rewrite Hb; discriminate). lia.
Qed.

(** [np.argmin] returns the first index of the least value. *)
Lemma argmin_first_min (l : list R) (i : nat) :
  argmin l = Return i <-> first_min l i.
Proof.
  destruct l as [| v l].
  - split.
    + discriminate.
    + intros (w & Hw & _). destruct i; discriminate.
  - assert (H : first_min (v :: l) (argmin_from 0%nat v 1%nat l)).
    { apply (argmin_from_first_min l [v] 0%nat v).
      - reflexivity.
      - intros [| [| j]] w Hj; simpl in Hj; try discriminate.
        inversion Hj. lra.
      - intros j w Hj. lia. }
    simpl. split.
    + intros E. inversion E. subst. exact H.
    + intros Hi. f_equal. eapply first_min_unique; eassumption.
Qed.

Lemma argmin_returns (l : list R) :
  l <> [] -> exists i, argmin l = Return i /\ (i < length l)%nat.
Proof.
  intros Hl. destruct l as [| v l]; [contradiction |].
  eexists. split; [reflexivity |].
  assert (H : first_min (v :: l) (argmin_from 0%nat v 1%nat l))
    by (apply argmin_first_min; reflexivity).
  destruct H as (w & Hw & _).
  apply nth_error_Some. rewrite Hw. discriminate.
Qed.


(** Midway between two neighbouring lines, the lower one is the first
    minimum of the distances. *)
Lemma midway_first_min (lines : list R) (i : nat) (a b : R) :
  increasing lines ->
  nth_error lines i = Some a -> nth_error lines (S i) = Some b ->
  first_min (dists lines ((a + b) / 2)) i.
Proof.
  intros Hinc Ha Hb.
  assert (Hab : a < b) by (apply (Hinc i (S i)); auto).
  exists (Rabs (a - (a + b) / 2)). unfold dists.
  split; [rewrite nth_error_map, Ha; reflexivity |].
  assert (Hda : Rabs (a - (a + b) / 2) = (b - a) / 2).
  { rewrite Rabs_left by lra. lra. }
  rewrite Hda. split.
  - intros j w Hj. rewrite nth_error_map in Hj.
    destruct (nth_error lines j) as [x |] eqn:Ex; [| discriminate].
    inversion Hj; subst w; clear Hj.
    destruct (Nat.lt_trichotomy j i) as [H | [H | H]].
    + pose proof (Hinc _ _ _ _ H Ex Ha). rewrite Rabs_left by lra. lra.
    + subst j. rewrite Ha in Ex. inversion Ex; subst x.
      rewrite Rabs_left by lra. lra.
    + destruct (Nat.eq_dec j (S i)) as [-> | Hne].
      * rewrite Hb in Ex. inversion Ex; subst x.
        rewrite Rabs_right by lra. lra.
      * assert (Hlt : (S i < j)%nat) by lia.
        pose proof (Hinc _ _ _ _ Hlt Hb Ex). rewrite Rabs_right by lra. lra.
  - intros j w Hji Hj. rewrite nth_error_map in Hj.
    destruct (nth_error lines j) as [x |] eqn:Ex; [| discriminate].
    inversion Hj; subst w; clear Hj.
    pose proof (Hinc _ _ _ _ Hji Ex Ha). rewrite Rabs_left by lra. lra.
Qed.

(** ** The field slicer *)

Module FieldsFacts.
Import Fields.


Lemma getitem_Some {A} (l : list A) (i : nat) (a : A) :
  nth_error l i = Some a -> getitem l i = Return a.
Proof. intros H. unfold getitem. rewrite H. reflexivity. Qed.

Lemma getitem_lt {A} (l : list A) (i : nat) :
  (i < length l)%nat -> exists a, nth_error l i = Some a /\ getitem l i = Return a.
Proof.
  intros H. destruct (nth_error l i) as [a |] eqn:E.
  - exists a. split; [reflexivity | apply getitem_Some; exact E].
  - apply nth_error_None in E. lia.
Qed.

Lemma getitem_ge {A} (l : list A) (i : nat) :
  (length l <= i)%nat -> getitem l i = Raise IndexError.
Proof.
  intros H. unfold getitem.
  destruct (nth_error l i) eqn:E; [| reflexivity].
  assert (i < length l)%nat by (apply nth_error_Some; rewrite E; discriminate).
  lia.
Qed.

Lemma line_at_returns (Nx Ny : nat) (a : array3) (ix iy : nat) :
  shape3 Nx Ny a -> (ix < Nx)%nat -> (iy < Ny)%nat ->
  exists l, line_at a ix iy = Return l.
Proof.
  intros [Hx Hy] Hix Hiy. unfold line_at.
  destruct (getitem_lt a ix) as (plane & Hp & ->); [lia |].
  simpl. rewrite Forall_forall in Hy.
  assert (Hlen : length plane = Ny) by (apply Hy; eapply nth_error_In; eauto).
  destruct (getitem_lt plane iy) as (l & _ & ->); [lia |].
  eauto.
Qed.

Lemma slice_field_returns (n Nx Ny : nat) fields3d ix iy dx dy i :
  fields_on_mesh n Nx Ny fields3d ->
  (S ix < Nx)%nat -> (S iy < Ny)%nat -> (i < n)%nat ->
  returns (slice_field fields3d ix iy dx dy i).
Proof.
  intros Hf Hix Hiy Hi.
  destruct (Hf i Hi) as (field3d & zc & Hfd & Hzc & Hsh).
  unfold slice_field.
  rewrite (getitem_Some _ _ _ Hfd). simpl.
  rewrite (getitem_Some _ _ _ Hzc). simpl.
  destruct (line_at_returns Nx Ny zc ix iy) as (l0 & ->); [auto | lia | lia |].
  destruct (line_at_returns Nx Ny zc (ix + 1) iy) as (lx & ->);
    [auto | lia | lia |].
  destruct (line_at_returns Nx Ny zc ix (iy + 1)) as (ly & ->);
    [auto | lia | lia |].
  simpl. eexists. reflexivity.
Qed.

Lemma slice_loop_returns (n Nx Ny : nat) fields3d ix iy dx dy idx :
  fields_on_mesh n Nx Ny fields3d ->
  (S ix < Nx)%nat -> (S iy < Ny)%nat ->
  (forall i, In i idx -> (i < n)%nat) ->
  returns (slice_loop fields3d ix iy dx dy idx).
Proof.
  intros Hf Hix Hiy. induction idx as [| i idx IH]; intros Hin.
  - eexists. reflexivity.
  - simpl.
    destruct (slice_field_returns n Nx Ny fields3d ix iy dx dy i) as (r & ->);
      auto using in_eq.
    destruct IH as (rs & ->); [intros; apply Hin; right; assumption |].
    simpl. destruct r as [[zc xg] yg]. destruct rs as [[zcs xgs] ygs].
    eexists. reflexivity.
Qed.

(** The loop collects what each round returns, in order. *)
Lemma slice_loop_map fields3d ix iy dx dy idx
    (F : nat -> list xC * list xC * list xC) :
  (forall i, In i idx -> slice_field fields3d ix iy dx dy i = Return (F i)) ->
  slice_loop fields3d ix iy dx dy idx =
  Return (map (fun i => fst (fst (F i))) idx,
          map (fun i => snd (fst (F i))) idx,
          map (fun i => snd (F i)) idx).
Proof.
  induction idx as [| i idx IH]; intros H.
  - reflexivity.
  - simpl. rewrite (H i (in_eq _ _)). simpl.
    rewrite IH by (intros; apply H; right; assumption). simpl.
    destruct (F i) as [[zc xg] yg]. reflexivity.
Qed.

(** The head of [slice_1d]: the nearest line, its coordinate and the step
    to the next line. *)
Lemma slice_1d_unfold efn hfn xlines ylines zlines fields3d x0 y0
    ix iy xa xb ya yb :
  first_min (dists xlines x0) ix -> first_min (dists ylines y0) iy ->
  nth_error xlines ix = Some xa -> nth_error xlines (S ix) = Some xb ->
  nth_error ylines iy = Some ya -> nth_error ylines (S iy) = Some yb ->
  slice_1d efn hfn xlines ylines zlines fields3d x0 y0 =
  let! r := slice_loop fields3d ix iy (xb - xa) (yb - ya)
              (seq 0 (length (efn ++ hfn))) in
  let '(zc, xg, yg) := r in
  Return (mkSlices zc xg yg xa ya).
Proof.
  intros Hix Hiy Hxa Hxb Hya Hyb.
  unfold slice_1d, nearest.
  apply argmin_first_min in Hix. apply argmin_first_min in Hiy.
  unfold dists in Hix, Hiy. rewrite Hix. simpl.
  rewrite (getitem_Some _ _ _ Hxa). simpl.
  replace (ix + 1)%nat with (S ix) by lia.
  rewrite (getitem_Some _ _ _ Hxb). simpl.
  rewrite Hiy. simpl.
  rewrite (getitem_Some _ _ _ Hya). simpl.
  replace (iy + 1)%nat with (S iy) by lia.
  rewrite (getitem_Some _ _ _ Hyb). simpl.
  reflexivity.
Qed.

(** No forward neighbour: the slicer fails with an IndexError. *)
Lemma slice_1d_last_line efn hfn xlines ylines zlines fields3d x0 y0 ix :
  first_min (dists xlines x0) ix -> S ix = length xlines ->
  slice_1d efn hfn xlines ylines zlines fields3d x0 y0 = Raise IndexError.
Proof.
  intros Hix Hlast. unfold slice_1d, nearest.
  pose proof Hix as (v & Hv & _).
  apply argmin_first_min in Hix. unfold dists in Hix, Hv. rewrite Hix. simpl.
  rewrite nth_error_map in Hv.
  destruct (nth_error xlines ix) as [xa |] eqn:E; [| discriminate].
  rewrite (getitem_Some _ _ _ E). simpl.
  rewrite getitem_ge by lia. reflexivity.
Qed.

(** Whenever the first nearest line has a forward neighbour on both axes
    the slicer returns, and reports the coordinates of those lines. *)
Lemma slice_1d_returns efn hfn xlines ylines zlines fields3d x0 y0 ix iy :
  fields_on_mesh (length (efn ++ hfn)) (length xlines) (length ylines)
    fields3d ->
  first_min (dists xlines x0) ix -> first_min (dists ylines y0) iy ->
  (S ix < length xlines)%nat -> (S iy < length ylines)%nat ->
  exists s,
    slice_1d efn hfn xlines ylines zlines fields3d x0 y0 = Return s /\
    nth_error xlines ix = Some (x0_used s) /\
    nth_error ylines iy = Some (y0_used s).
Proof.
  intros Hf Hix Hiy Hxl Hyl.
  destruct (getitem_lt xlines ix) as (xa & Hxa & _); [lia |].
  destruct (getitem_lt xlines (S ix)) as (xb & Hxb & _); [lia |].
  destruct (getitem_lt ylines iy) as (ya & Hya & _); [lia |].
  destruct (getitem_lt ylines (S iy)) as (yb & Hyb & _); [lia |].
  rewrite (slice_1d_unfold _ _ _ _ _ _ _ _ ix iy xa xb ya yb) by assumption.
  destruct (slice_loop_returns (length (efn ++ hfn))
              (length xlines) (length ylines) fields3d ix iy
              (xb - xa) (yb - ya) (seq 0 (length (efn ++ hfn))))
    as (r & ->); try assumption.
  { intros i Hi. apply in_seq in Hi. lia. }
  simpl. destruct r as [[zc xg] yg].
  eexists. split; [reflexivity |]. simpl. auto.
Qed.

End FieldsFacts.

(** C6. On strictly increasing mesh lines the slicer snaps to the first
    index of least distance on each axis: whenever that index has a forward
    neighbour it returns, and the coordinates it reports are those of the
    selected mesh lines; for a location exactly midway between two
    neighbouring lines that is the lower line, not the requested location. *)
Theorem slice_1d_snaps_to_first_nearest
    (efield_names hfield_names : list string) (xlines ylines zlines : list R)
    (fields3d : list (list Fields.array3)) :
  increasing xlines -> increasing ylines ->
  fields_on_mesh (length (efield_names ++ hfield_names))
    (length xlines) (length ylines) fields3d ->
  (forall x0 y0 ix iy,
     first_min (dists xlines x0) ix -> first_min (dists ylines y0) iy ->
     (S ix < length xlines)%nat -> (S iy < length ylines)%nat ->
     exists s,
       Fields.slice_1d efield_names hfield_names xlines ylines zlines
         fields3d x0 y0 = Return s /\
       nth_error xlines ix = Some (Fields.x0_used s) /\
       nth_error ylines iy = Some (Fields.y0_used s)) /\
  (forall i j xa xb ya yb,
     nth_error xlines i = Some xa -> nth_error xlines (S i) = Some xb ->
     nth_error ylines j = Some ya -> nth_error ylines (S j) = Some yb ->
     exists s,
       Fields.slice_1d efield_names hfield_names xlines ylines zlines
         fields3d ((xa + xb) / 2) ((ya + yb) / 2) = Return s /\
       Fields.x0_used s = xa /\ Fields.y0_used s = ya /\
       Fields.x0_used s <> (xa + xb) / 2 /\
       Fields.y0_used s <> (ya + yb) / 2).
Proof.
  intros Hxi Hyi Hf. split.
  - intros x0 y0 ix iy Hix Hiy Hxl Hyl.
    apply FieldsFacts.slice_1d_returns; assumption.
  - intros i j xa xb ya yb Hxa Hxb Hya Hyb.
    destruct (FieldsFacts.slice_1d_returns efield_names hfield_names
                xlines ylines zlines fields3d
                ((xa + xb) / 2) ((ya + yb) / 2) i j)
      as (s & Hs & Hx & Hy); try assumption.
    + apply midway_first_min; assumption.
    + apply midway_first_min; assumption.
    + apply nth_error_Some. rewrite Hxb. discriminate.
    + apply nth_error_Some. rewrite Hyb. discriminate.
    + assert (Ex : Fields.x0_used s = xa) by congruence.
      assert (Ey : Fields.y0_used s = ya) by congruence.
      pose proof (Hxi i (S i) xa xb (Nat.lt_succ_diag_r i) Hxa Hxb).
      pose proof (Hyi j (S j) ya yb (Nat.lt_succ_diag_r j) Hya Hyb).
      exists s. repeat split; try assumption; lra.
Qed.


Lemma demo_lines_increasing : increasing demo_lines.
Proof.
  intros i j a b Hij Hi Hj. unfold demo_lines in *.
  destruct i as [| [| [| i]]]; destruct j as [| [| [| j]]];
    simpl in Hi, Hj; try lia;
    try (destruct i; discriminate); try (destruct j; discriminate);
    inversion Hi; inversion Hj; subst; lra.
Qed.

Lemma demo_field_on_mesh :
  fields_on_mesh 1 3 3 [demo_field].
Proof.
  intros i Hi. assert (i = 0)%nat by lia. subst i.
  eexists. eexists. split; [reflexivity |]. split; [reflexivity |].
  split; [reflexivity |]. repeat constructor.
Qed.

Lemma slice_1d_snaps_to_first_nearest_witness :
  exists s,
    Fields.slice_1d ["e"%string] [] demo_lines demo_lines [0; 1] [demo_field]
      ((0 + 1) / 2) ((1 + 2) / 2) = Return s /\
    Fields.x0_used s = 0 /\ Fields.y0_used s = 1 /\
    Fields.x0_used s <> (0 + 1) / 2 /\ Fields.y0_used s <> (1 + 2) / 2.
Proof.
  destruct (slice_1d_snaps_to_first_nearest ["e"%string] [] demo_lines
              demo_lines [0; 1] [demo_field]
              demo_lines_increasing demo_lines_increasing demo_field_on_mesh)
    as [_ H].
  apply (H 0%nat 1%nat 0 1 1 2); reflexivity.
Defined.

(** ** Gradients of an affine field *)

Lemma Ceqb_RtoC_nonzero (d : R) : d <> 0 -> Ceqb (RtoC d) C0 = false.
Proof.
  intros H. unfold Ceqb. simpl. rewrite (Reqb_false d 0 H). reflexivity.
Qed.

(** The forward difference of an affine function is its slope. *)
Lemma affine_forward_difference_x (a b c : C) (x x' y : R) :
  x' - x <> 0 ->
  xCdiv (xCsub (cfin (affine_value a b c x' y)) (cfin (affine_value a b c x y)))
        (xRtoC (fin (x' - x))) = cfin a.
Proof.
  intros Hd. unfold xCdiv, xCsub, xRtoC, cfin, fin, lift1, lift2.
  rewrite (Ceqb_RtoC_nonzero _ Hd).
  destruct a as [ar ai], b as [br bi], c as [cr ci].
  unfold Cdiv, Csub, affine_value, Cadd, Cmul, RtoC, Cnorm2. simpl.
  f_equal. f_equal; field; exact Hd.
Qed.

Lemma affine_forward_difference_y (a b c : C) (x y y' : R) :
  y' - y <> 0 ->
  xCdiv (xCsub (cfin (affine_value a b c x y')) (cfin (affine_value a b c x y)))
        (xRtoC (fin (y' - y))) = cfin b.
Proof.
  intros Hd. unfold xCdiv, xCsub, xRtoC, cfin, fin, lift1, lift2.
  rewrite (Ceqb_RtoC_nonzero _ Hd).
  destruct a as [ar ai], b as [br bi], c as [cr ci].
  unfold Cdiv, Csub, affine_value, Cadd, Cmul, RtoC, Cnorm2. simpl.
  f_equal. f_equal; field; exact Hd.
Qed.

Lemma fwd_diff_map {A} (g g' : A -> xC) (l : list A) (d : R) :
  Fields.fwd_diff (map g' l) (map g l) d =
  map (fun j => xCdiv (xCsub (g' j) (g j)) (xRtoC (fin d))) l.
Proof.
  unfold Fields.fwd_diff. induction l as [| j l IH]; simpl.
  - reflexivity.
  - f_equal. exact IH.
Qed.

Lemma line_at_affine xlines ylines nz a b c jx jy x y :
  nth_error xlines jx = Some x -> nth_error ylines jy = Some y ->
  Fields.line_at (affine_array xlines ylines nz a b c) jx jy =
  Return (map (fun jz => cfin (affine_value (a jz) (b jz) (c jz) x y))
              (seq 0 nz)).
Proof.
  intros Hx Hy. unfold Fields.line_at, affine_array, getitem.
  rewrite nth_error_map, Hx. simpl.
  rewrite nth_error_map, Hy. reflexivity.
Qed.

(** C5. On strictly increasing mesh lines, for fields whose z component is
    affine in x and in y, the slicer returns (whenever the nearest line has
    a forward neighbour on both axes) gradients equal to the forward
    differences over the step to the next line, and these equal the slopes
    of the field (exactly, in real arithmetic). *)
Theorem slice_1d_affine_gradients
    (efield_names hfield_names : list string) (xlines ylines zlines : list R)
    (fields3d : list (list Fields.array3)) (a b c : nat -> nat -> C)
    (x0 y0 : R) (ix iy : nat) :
  let n := length (efield_names ++ hfield_names) in
  let nz := length zlines in
  let E := fun i x y jz =>
             cfin (affine_value (a i jz) (b i jz) (c i jz) x y) in
  increasing xlines -> increasing ylines ->
  (forall i, (i < n)%nat -> exists ex ey,
     nth_error fields3d i =
     Some [ex; ey; affine_array xlines ylines nz (a i) (b i) (c i)]) ->
  first_min (dists xlines x0) ix -> first_min (dists ylines y0) iy ->
  (S ix < length xlines)%nat -> (S iy < length ylines)%nat ->
  exists s xa xb ya yb,
    Fields.slice_1d efield_names hfield_names xlines ylines zlines fields3d
      x0 y0 = Return s /\
    nth_error xlines ix = Some xa /\ nth_error xlines (S ix) = Some xb /\
    nth_error ylines iy = Some ya /\ nth_error ylines (S iy) = Some yb /\
    Fields.x_grads s =
      map (fun i => map (fun jz =>
             xCdiv (xCsub (E i xb ya jz) (E i xa ya jz))
                   (xRtoC (fin (xb - xa)))) (seq 0 nz)) (seq 0 n) /\
    Fields.y_grads s =
      map (fun i => map (fun jz =>
             xCdiv (xCsub (E i xa yb jz) (E i xa ya jz))
                   (xRtoC (fin (yb - ya)))) (seq 0 nz)) (seq 0 n) /\
    Fields.x_grads s =
      map (fun i => map (fun jz => cfin (a i jz)) (seq 0 nz)) (seq 0 n) /\
    Fields.y_grads s =
      map (fun i => map (fun jz => cfin (b i jz)) (seq 0 nz)) (seq 0 n).
Proof.
  intros n nz E Hxi Hyi Hf Hix Hiy Hxl Hyl.
  destruct (FieldsFacts.getitem_lt xlines ix) as (xa & Hxa & _); [lia |].
  destruct (FieldsFacts.getitem_lt xlines (S ix)) as (xb & Hxb & _); [lia |].
  destruct (FieldsFacts.getitem_lt ylines iy) as (ya & Hya & _); [lia |].
  destruct (FieldsFacts.getitem_lt ylines (S iy)) as (yb & Hyb & _); [lia |].
  assert (Hdx : xb - xa <> 0).
  { pose proof (Hxi ix (S ix) xa xb (Nat.lt_succ_diag_r ix) Hxa Hxb). lra. }
  assert (Hdy : yb - ya <> 0).
  { pose proof (Hyi iy (S iy) ya yb (Nat.lt_succ_diag_r iy) Hya Hyb). lra. }
  set (F := fun i : nat =>
    (map (E i xa ya) (seq 0 nz),
     Fields.fwd_diff (map (E i xb ya) (seq 0 nz))
                     (map (E i xa ya) (seq 0 nz)) (xb - xa),
     Fields.fwd_diff (map (E i xa yb) (seq 0 nz))
                     (map (E i xa ya) (seq 0 nz)) (yb - ya))).
  assert (Hloop :
    Fields.slice_loop fields3d ix iy (xb - xa) (yb - ya) (seq 0 n) =
    Return (map (fun i => fst (fst (F i))) (seq 0 n),
            map (fun i => snd (fst (F i))) (seq 0 n),
            map (fun i => snd (F i)) (seq 0 n))).
  { apply FieldsFacts.slice_loop_map. intros i Hi. apply in_seq in Hi.
    destruct (Hf i) as (ex & ey & Hfi); [lia |].
    unfold Fields.slice_field.
    rewrite (FieldsFacts.getitem_Some _ _ _ Hfi). simpl.
    replace (ix + 1)%nat with (S ix) by lia.
    replace (iy + 1)%nat with (S iy) by lia.
    rewrite (line_at_affine _ _ _ _ _ _ _ _ _ _ Hxa Hya).
    rewrite (line_at_affine _ _ _ _ _ _ _ _ _ _ Hxb Hya).
    rewrite (line_at_affine _ _ _ _ _ _ _ _ _ _ Hxa Hyb).
    reflexivity. }
  exists (Fields.mkSlices
            (map (fun i => fst (fst (F i))) (seq 0 n))
            (map (fun i => snd (fst (F i))) (seq 0 n))
            (map (fun i => snd (F i)) (seq 0 n)) xa ya), xa, xb, ya, yb.
  split.
  { rewrite (FieldsFacts.slice_1d_unfold _ _ _ _ _ _ _ _ ix iy xa xb ya yb)
      by assumption.
    fold n. rewrite Hloop. reflexivity. }
  do 4 (split; [assumption |]).
  assert (Hx : Fields.x_grads
     (Fields.mkSlices
            (map (fun i => fst (fst (F i))) (seq 0 n))
            (map (fun i => snd (fst (F i))) (seq 0 n))
            (map (fun i => snd (F i)) (seq 0 n)) xa ya) =
     map (fun i => map (fun jz =>
             xCdiv (xCsub (E i xb ya jz) (E i xa ya jz))
                   (xRtoC (fin (xb - xa)))) (seq 0 nz)) (seq 0 n)).
  { simpl. apply map_ext. intros i. apply fwd_diff_map. }
  assert (Hy : Fields.y_grads
     (Fields.mkSlices
            (map (fun i => fst (fst (F i))) (seq 0 n))
            (map (fun i => snd (fst (F i))) (seq 0 n))
            (map (fun i => snd (F i)) (seq 0 n)) xa ya) =
     map (fun i => map (fun jz =>
             xCdiv (xCsub (E i xa yb jz) (E i xa ya jz))
                   (xRtoC (fin (yb - ya)))) (seq 0 nz)) (seq 0 n)).
  { simpl. apply map_ext. intros i. apply fwd_diff_map. }
  split; [exact Hx |]. split; [exact Hy |]. split.
  - rewrite Hx. apply map_ext. intros i. apply map_ext. intros jz.
    apply affine_forward_difference_x. exact Hdx.
  - rewrite Hy. apply map_ext. intros i. apply map_ext. intros jz.
    apply affine_forward_difference_y. exact Hdy.
Qed.

Lemma slice_1d_affine_gradients_witness :
  exists s,
    Fields.slice_1d ["e"%string] [] demo_lines demo_lines [0; 1]
      demo_affine_fields ((0 + 1) / 2) ((1 + 2) / 2) = Return s /\
    Fields.x_grads s = [[cfin (mkC 3 1); cfin (mkC 3 1)]] /\
    Fields.y_grads s = [[cfin (mkC (-2) 0); cfin (mkC (-2) 0)]].
Proof.
  destruct (slice_1d_affine_gradients ["e"%string] [] demo_lines demo_lines
              [0; 1] demo_affine_fields demo_a demo_b demo_c
              ((0 + 1) / 2) ((1 + 2) / 2) 0%nat 1%nat)
    as (s & xa & xb & ya & yb & Hs & _ & _ & _ & _ & _ & _ & Hx & Hy).
  - exact demo_lines_increasing.
  - exact demo_lines_increasing.
  - intros i Hi. simpl in Hi. assert (i = 0)%nat by lia. subst i.
    eexists. eexists. reflexivity.
  - apply (midway_first_min demo_lines 0 0 1);
      [exact demo_lines_increasing | reflexivity | reflexivity].
  - apply (midway_first_min demo_lines 1 1 2);
      [exact demo_lines_increasing | reflexivity | reflexivity].
  - simpl. lia.
  - simpl. lia.
  - exists s. split; [exact Hs |]. split; [exact Hx | exact Hy].
Defined.

(** ** The store *)

Lemma store_same (h : heap) (p : ref) (a : ndarray) : store h p a p = a.
Proof. unfold store. rewrite Nat.eqb_refl. reflexivity. Qed.

Lemma store_other (h : heap) (p q : ref) (a : ndarray) :
  q <> p -> store h p a q = h q.
Proof.
  intros H. unfold store. apply Nat.eqb_neq in H. rewrite H. reflexivity.
Qed.

(** ** The gate *)

Lemma zero_where_twice (z : list R) (lo hi : R) (row : list xC) :
  zero_where (map (fun zj => Rltb hi zj) z)
    (zero_where (map (fun zj => Rltb zj lo) z) row) =
  gated_row z (lo, hi) row.
Proof.
  unfold zero_where, gated_row. revert row.
  induction z as [| zj z IH]; intros row.
  - reflexivity.
  - destruct row as [| e row]; [reflexivity |].
    simpl. rewrite IH. f_equal.
    destruct (Rltb zj lo), (Rltb hi zj); reflexivity.
Qed.

Lemma gate_returns (p : ref) (z : list R) (b : R * R) (h : heap) :
  length z = shape1 (h p) ->
  exists h', Kicker.gate p z b h = (Return tt, h') /\
    h' p = gated z b (h p) /\ (forall q, q <> p -> h' q = h q).
Proof.
  intros Hlen. destruct b as [lo hi].
  unfold Kicker.gate, setitem_cols_zero.
  rewrite length_map, Hlen, Nat.eqb_refl.
  rewrite store_same. cbn [shape1 shape0 data fst snd].
  rewrite length_map, Hlen, Nat.eqb_refl.
  eexists. split; [reflexivity |]. split.
  - rewrite store_same. unfold gated. f_equal.
    rewrite map_map. apply map_ext. intros row. apply zero_where_twice.
  - intros q Hq. rewrite !store_other by exact Hq. reflexivity.
Qed.

(** Inside the borders the gate changes nothing. *)
Lemma gated_row_inside (z : list R) (b : R * R) (row : list xC) :
  length row = length z ->
  Forall (fun zj => fst b <= zj <= snd b) z ->
  gated_row z b row = row.
Proof.
  unfold gated_row. revert row.
  induction z as [| zj z IH]; intros row Hlen Hin.
  - destruct row; [reflexivity | discriminate].
  - destruct row as [| e row]; [discriminate |].
    inversion Hin as [| ? ? Hz Hrest]; subst. simpl.
    rewrite (Rltb_false zj (fst b)) by lra.
    rewrite (Rltb_false (snd b) zj) by lra.
    simpl. f_equal. apply IH; [simpl in Hlen; lia | exact Hrest].
Qed.

Lemma gated_inside (z : list R) (b : R * R) (a : ndarray) :
  wf_array a -> shape1 a = length z ->
  Forall (fun zj => fst b <= zj <= snd b) z ->
  gated z b a = a.
Proof.
  intros [_ Hrows] Hs Hin. destruct a as [s0 s1 d]. unfold gated. simpl in *.
  f_equal. rewrite <- (map_id d) at 2. apply map_ext_in.
  intros row Hrow. apply gated_row_inside; [| exact Hin].
  rewrite Forall_forall in Hrows. rewrite (Hrows row Hrow). exact Hs.
Qed.

(** Entry by entry: zero outside the borders, the old value inside. *)
Lemma gated_row_nth (z : list R) (b : R * R) (row : list xC) (j : nat)
    (zj : R) (e : xC) :
  nth_error z j = Some zj -> nth_error row j = Some e ->
  nth_error (gated_row z b row) j =
  Some (if Rltb zj (fst b) || Rltb (snd b) zj then cfin C0 else e).
Proof.
  unfold gated_row. revert row j.
  induction z as [| z0 z IH]; intros row j Hz He.
  - destruct j; discriminate.
  - destruct row as [| e0 row]; [destruct j; discriminate |].
    destruct j as [| j]; simpl in *.
    + inversion Hz; inversion He; subst. reflexivity.
    + apply IH; assumption.
Qed.

(** ** Borders *)

Lemma getlast_app {A} (l : list A) (a : A) : getlast (l ++ [a]) = Return a.
Proof. unfold getlast. rewrite rev_app_distr. reflexivity. Qed.

Lemma effective_borders_small (z : list R) (zb : R * R) :
  fst zb ^ 2 + snd zb ^ 2 < 1 / 1000000 ->
  Kicker.effective_borders z zb =
  (let! lo := getitem z 0%nat in let! hi := getlast z in Return (lo, hi)).
Proof.
  intros H. unfold Kicker.effective_borders.
  rewrite (Rltb_true _ _ H). reflexivity.
Qed.

Lemma effective_borders_large (z : list R) (zb : R * R) :
  ~ fst zb ^ 2 + snd zb ^ 2 < 1 / 1000000 ->
  Kicker.effective_borders z zb = Return zb.
Proof.
  intros H. unfold Kicker.effective_borders.
  rewrite (Rltb_false _ _ H). reflexivity.
Qed.

Lemma effective_borders_returns (z : list R) (zb : R * R) :
  z <> [] -> exists b, Kicker.effective_borders z zb = Return b.
Proof.
  intros Hz. unfold Kicker.effective_borders.
  destruct (Rltb _ _); [| eauto].
  destruct (exists_last Hz) as (l & a & E).
  assert (Hl : getlast z = Return a) by (rewrite E; apply getlast_app).
  rewrite Hl. destruct z as [| z0 z]; [contradiction |].
  simpl. eauto.
Qed.

(** ** cumtrapz *)

Lemma length_diff (x : list R) : length (diff x) = pred (length x).
Proof.
  induction x as [| a [| b x] IH]; try reflexivity.
  change (length (diff (a :: b :: x))) with (S (length (diff (b :: x)))).
  rewrite IH. reflexivity.
Qed.

Lemma cumtrapz_returns (y : matrix xC) (x : list R) :
  x <> [] -> cumtrapz (length x) y x = Return (map (cumtrapz_row x) y).
Proof.
  intros Hx. unfold cumtrapz. rewrite length_diff.
  destruct x as [| a x]; [contradiction |].
  replace (Z.of_nat (pred (length (a :: x))) =? Z.of_nat (length (a :: x)) - 1)%Z
    with true; [reflexivity |].
  symmetry. apply Z.eqb_eq. simpl length. lia.
Qed.

Lemma cumtrapz_empty (y : matrix xC) :
  exists e, cumtrapz 0 y [] = Raise e.
Proof. eexists. reflexivity. Qed.

Lemma cumtrapz_first_column_zero (x : list R) (y : matrix xC) :
  first_column_zero (map (cumtrapz_row x) y).
Proof.
  unfold first_column_zero. apply Forall_forall. intros row Hrow.
  apply in_map_iff in Hrow. destruct Hrow as (r & <- & _). reflexivity.
Qed.

(** ** kickerLong and kickerTrans on a well-shaped array *)

Lemma kickerLong_returns Ez z f Pin_eff beta b z_borders eb Zc (h : heap) :
  shape0 (h Ez) = length f -> shape1 (h Ez) = length z -> z <> [] ->
  Kicker.single_beta beta = Return b ->
  Kicker.effective_borders z z_borders = Return eb ->
  exists r h',
    Kicker.kickerLong Ez z f Pin_eff beta z_borders Zc h = (Return r, h') /\
    h' Ez = gated z eb (h Ez) /\ (forall q, q <> Ez -> h' q = h q) /\
    Kicker.V0 r = map (cumtrapz_row z) (data (gated z eb (h Ez))) /\
    Kicker.V r =
      map (cumtrapz_row z)
          (Kicker.phase_weighted (Kicker.wavenumber f b) z
             (data (gated z eb (h Ez)))).
Proof.
  intros H0 H1 Hz Hb He. unfold Kicker.kickerLong.
  rewrite He, H0, H1, !Nat.eqb_refl. cbn [andb negb]. rewrite Hb.
  destruct (gate_returns Ez z eb h) as (h' & Hg & Hp & Hq);
    [symmetry; exact H1 |].
  rewrite Hg, Hp.
  rewrite !cumtrapz_returns by exact Hz. cbn [obind].
  eexists. exists h'. split; [reflexivity |].
  split; [exact Hp |]. split; [exact Hq |]. split; reflexivity.
Qed.

Lemma kickerTrans_returns dEz_du z f Pin_eff beta b z_borders eb Zc
    (h : heap) :
  shape0 (h dEz_du) = length f -> shape1 (h dEz_du) = length z -> z <> [] ->
  Kicker.single_beta beta = Return b ->
  Kicker.effective_borders z z_borders = Return eb ->
  exists r h',
    Kicker.kickerTrans dEz_du z f Pin_eff beta z_borders Zc false h =
      (Return r, h') /\
    h' dEz_du = gated z eb (h dEz_du) /\
    (forall q, q <> dEz_du -> h' q = h q) /\
    Kicker.dV_over_du r =
      map (cumtrapz_row z)
          (Kicker.phase_weighted (Kicker.wavenumber f b) z
             (data (gated z eb (h dEz_du)))).
Proof.
  intros H0 H1 Hz Hb He. unfold Kicker.kickerTrans.
  rewrite He, H0, H1, !Nat.eqb_refl. cbn [andb negb]. rewrite Hb.
  destruct (gate_returns dEz_du z eb h) as (h' & Hg & Hp & Hq);
    [symmetry; exact H1 |].
  rewrite Hg, Hp.
  rewrite !cumtrapz_returns by exact Hz. cbn [obind].
  eexists. exists h'. split; [reflexivity |].
  split; [exact Hp |]. split; [exact Hq |]. reflexivity.
Qed.

(** ** Claims on kickerLong and kickerTrans *)

Ltac Rcmp :=
  repeat match goal with
  | |- context [Rltb ?a ?b] =>
      first [rewrite (Rltb_true a b) by lra | rewrite (Rltb_false a b) by lra]
  | |- context [Reqb ?a ?b] =>
      first [rewrite (Reqb_true a b) by lra | rewrite (Reqb_false a b) by lra]
  end.

Lemma length_zipWith {A B D} (g : A -> B -> D) (l : list A) (m : list B) :
  length (zipWith g l m) = Nat.min (length l) (length m).
Proof.
  revert m. induction l as [| a l IH]; intros [| b m]; simpl; auto.
Qed.

Lemma demo_heap_wf (p : ref) : wf_array (demo_heap p).
Proof. split; [reflexivity | repeat constructor]. Qed.

Lemma demo_lines_nonempty : demo_lines <> [].
Proof. discriminate. Qed.

Lemma increasing_bounds (z l : list R) (z0 a : R) :
  increasing z -> nth_error z 0 = Some z0 -> z = l ++ [a] ->
  Forall (fun zj => z0 <= zj <= a) z.
Proof.
  intros Hinc H0 E. apply Forall_forall. intros zj Hin.
  destruct (In_nth_error _ _ Hin) as (j & Hj).
  assert (Ha : nth_error z (length l) = Some a).
  { rewrite E, nth_error_app2 by lia. rewrite Nat.sub_diag. reflexivity. }
  assert (Hjl : (j < length z)%nat)
    by (apply nth_error_Some; rewrite Hj; discriminate).
  assert (Hlen : length z = S (length l))
    by (rewrite E, length_app; simpl; lia).
  split.
  - destruct j as [| j].
    + rewrite H0 in Hj. inversion Hj. lra.
    + left. apply (Hinc 0%nat (S j)); [lia | exact H0 | exact Hj].
  - destruct (Nat.eq_dec j (length l)) as [-> | Hne].
    + rewrite Ha in Hj. inversion Hj. lra.
    + left. apply (Hinc j (length l)); [lia | exact Hj | exact Ha].
Qed.

(** C10. With [extra_values] set, kickerTrans raises NotImplementedError at
    once, whatever the other arguments are, and leaves the store, hence
    the caller's array, as it was. *)
Theorem kickerTrans_extra_values_not_implemented
    (dEz_du : ref) (z f : list R) (Pin_eff : R) (beta : Kicker.beta_arg)
    (z_borders : R * R) (Zc : R) (h : heap) :
  exists msg,
    Kicker.kickerTrans dEz_du z f Pin_eff beta z_borders Zc true h =
    (Raise (NotImplementedError msg), h).
Proof. eexists. reflexivity. Qed.





(** What the gate leaves of [demo_row] for borders [1, 2] and [1, 1]. *)
Lemma demo_row_gated_1_2 :
  gated_row demo_lines (1, 2) demo_row =
  [cfin C0; cfin (RtoC 1); cfin (RtoC 1)].
Proof.
  unfold gated_row, demo_lines, demo_row. simpl. Rcmp. reflexivity.
Qed.

Lemma demo_row_gated_1_1 :
  gated_row demo_lines (1, 1) demo_row = [cfin C0; cfin (RtoC 1); cfin C0].
Proof.
  unfold gated_row, demo_lines, demo_row. simpl. Rcmp. reflexivity.
Qed.

Lemma demo_row_changed :
  [[cfin C0; cfin (RtoC 1); cfin (RtoC 1)]] <> data (demo_heap 0%nat).
Proof.
  simpl. unfold demo_row, cfin, C0, RtoC. intros H.
  injection H as H. lra.
Qed.

(** ** The range of Python floats *)

Lemma Rleb_true (a b : R) : a <= b -> PyFloat.Rleb a b = true.
Proof.
  intros H; unfold PyFloat.Rleb; destruct (Rle_dec a b);
    [reflexivity | contradiction].
Qed.

Lemma Rleb_false (a b : R) : ~ a <= b -> PyFloat.Rleb a b = false.
Proof.
  intros H; unfold PyFloat.Rleb; destruct (Rle_dec a b);
    [contradiction | reflexivity].
Qed.

Lemma sq_min_pos : 0 < PyFloat.sq_min.
Proof.
  unfold PyFloat.sq_min. apply Rinv_0_lt_compat. apply pow_lt. lra.
Qed.

Lemma sq_min_small : PyFloat.sq_min < / 1000000.
Proof.
  unfold PyFloat.sq_min. apply Rinv_lt_contravar.
  - apply Rmult_lt_0_compat; [lra | apply pow_lt; lra].
  - rewrite pow_IZR. apply IZR_lt. vm_compute. reflexivity.
Qed.

Lemma sq_max_large : 1000000 < PyFloat.sq_max.
Proof.
  unfold PyFloat.sq_max. rewrite !pow_IZR, <- minus_IZR.
  apply IZR_lt. vm_compute. reflexivity.
Qed.

Lemma py_sq_in_range (x : R) :
  x ^ 2 < PyFloat.sq_max -> PyFloat.py_sq x = Return (x ^ 2).
Proof.
  intros H. unfold PyFloat.py_sq. rewrite Rleb_false by lra. reflexivity.
Qed.

Lemma py_sq_overflow (x : R) :
  PyFloat.sq_max <= x ^ 2 -> PyFloat.py_sq x = Raise OverflowError.
Proof.
  intros H. unfold PyFloat.py_sq. rewrite Rleb_true by exact H. reflexivity.
Qed.

Lemma lit_1e_6_bounds : 0 < PyFloat.lit_1e_6 < 1.
Proof.
  unfold PyFloat.lit_1e_6.
  replace (2 ^ 72) with 4722366482869645213696
    by (rewrite pow_IZR; apply f_equal; vm_compute; reflexivity).
  lra.
Qed.

(** ** kickerLong and kickerTrans on Python floats *)

Lemma py_effective_borders_small (z : list R) (zb : R * R) :
  fst zb ^ 2 < PyFloat.sq_max -> snd zb ^ 2 < PyFloat.sq_max ->
  fst zb ^ 2 + snd zb ^ 2 < PyFloat.lit_1e_6 ->
  PyKicker.effective_borders z zb =
  (let! lo := getitem z 0%nat in let! hi := getlast z in Return (lo, hi)).
Proof.
  intros H0 H1 H. unfold PyKicker.effective_borders.
  rewrite (py_sq_in_range _ H0), (py_sq_in_range _ H1). cbn [obind].
  rewrite (Rltb_true _ _ H). reflexivity.
Qed.

Lemma py_effective_borders_large (z : list R) (zb : R * R) :
  fst zb ^ 2 < PyFloat.sq_max -> snd zb ^ 2 < PyFloat.sq_max ->
  ~ fst zb ^ 2 + snd zb ^ 2 < PyFloat.lit_1e_6 ->
  PyKicker.effective_borders z zb = Return zb.
Proof.
  intros H0 H1 H. unfold PyKicker.effective_borders.
  rewrite (py_sq_in_range _ H0), (py_sq_in_range _ H1). cbn [obind].
  rewrite (Rltb_false _ _ H). reflexivity.
Qed.

Lemma py_effective_borders_returns (z : list R) (zb : R * R) :
  z <> [] ->
  fst zb ^ 2 < PyFloat.sq_max -> snd zb ^ 2 < PyFloat.sq_max ->
  exists b, PyKicker.effective_borders z zb = Return b.
Proof.
  intros Hz H0 H1.
  destruct (Rlt_dec (fst zb ^ 2 + snd zb ^ 2) PyFloat.lit_1e_6) as [H | H].
  - rewrite (py_effective_borders_small z zb H0 H1 H).
    destruct (exists_last Hz) as (l & a & E).
    assert (Hl : getlast z = Return a) by (rewrite E; apply getlast_app).
    rewrite Hl. destruct z as [| z0 z]; [contradiction |].
    simpl. eauto.
  - rewrite (py_effective_borders_large z zb H0 H1 H). eauto.
Qed.

Lemma py_effective_borders_overflow (z : list R) (zb : R * R) :
  PyFloat.sq_max <= fst zb ^ 2 \/ PyFloat.sq_max <= snd zb ^ 2 ->
  PyKicker.effective_borders z zb = Raise OverflowError.
Proof.
  intros H. unfold PyKicker.effective_borders.
  destruct (Rlt_le_dec (fst zb ^ 2) PyFloat.sq_max) as [H0 | H0].
  - destruct H as [H | H]; [lra |].
    rewrite (py_sq_in_range _ H0), (py_sq_overflow _ H). reflexivity.
  - rewrite (py_sq_overflow _ H0). reflexivity.
Qed.

Lemma py_kickerLong_returns Ez z f Pin_eff beta b z_borders eb Zc (h : heap) :
  shape0 (h Ez) = length f -> shape1 (h Ez) = length z -> z <> [] ->
  Kicker.single_beta beta = Return b ->
  PyKicker.effective_borders z z_borders = Return eb ->
  exists r h',
    PyKicker.kickerLong Ez z f Pin_eff beta z_borders Zc h = (Return r, h') /\
    h' Ez = gated z eb (h Ez) /\ (forall q, q <> Ez -> h' q = h q).
Proof.
  intros H0 H1 Hz Hb He. unfold PyKicker.kickerLong.
  rewrite He, H0, H1, !Nat.eqb_refl. cbn [andb negb]. rewrite Hb.
  destruct (gate_returns Ez z eb h) as (h' & Hg & Hp & Hq);
    [symmetry; exact H1 |].
  rewrite Hg, Hp.
  rewrite !cumtrapz_returns by exact Hz. cbn [obind].
  eexists. exists h'. split; [reflexivity |].
  split; [exact Hp | exact Hq].
Qed.

Lemma py_kickerTrans_returns dEz_du z f Pin_eff beta b z_borders eb Zc
    (h : heap) :
  shape0 (h dEz_du) = length f -> shape1 (h dEz_du) = length z -> z <> [] ->
  Kicker.single_beta beta = Return b ->
  PyKicker.effective_borders z z_borders = Return eb ->
  exists r h',
    PyKicker.kickerTrans dEz_du z f Pin_eff beta z_borders Zc false h =
      (Return r, h') /\
    h' dEz_du = gated z eb (h dEz_du) /\
    (forall q, q <> dEz_du -> h' q = h q).
Proof.
  intros H0 H1 Hz Hb He. unfold PyKicker.kickerTrans.
  rewrite He, H0, H1, !Nat.eqb_refl. cbn [andb negb]. rewrite Hb.
  destruct (gate_returns dEz_du z eb h) as (h' & Hg & Hp & Hq);
    [symmetry; exact H1 |].
  rewrite Hg, Hp.
  rewrite !cumtrapz_returns by exact Hz. cbn [obind].
  eexists. exists h'. split; [reflexivity |].
  split; [exact Hp | exact Hq].
Qed.

(** The gate leaves a row as it is exactly when its entries outside the
    borders are zero already. *)
Lemma gated_row_fixed (z : list R) (b : R * R) (row : list xC) :
  length row = length z ->
  (gated_row z b row = row <->
   forall j zj e, nth_error z j = Some zj -> nth_error row j = Some e ->
     zj < fst b \/ snd b < zj -> e = cfin C0).
Proof.
  unfold gated_row. revert row.
  induction z as [| z0 z IH]; intros row Hlen.
  - destruct row; [| discriminate]. split; [| reflexivity].
    intros _ j zj e Hz. destruct j; discriminate.
  - destruct row as [| e0 row]; [discriminate |].
    simpl in Hlen. injection Hlen as Hlen.
    specialize (IH row Hlen). split.
    + intros H. simpl in H. injection H as Hhead Htail.
      intros j zj e Hz He Hout. destruct j as [| j].
      * simpl in Hz, He. injection Hz as <-. injection He as <-.
        destruct Hout as [Hout | Hout].
        -- rewrite (Rltb_true _ _ Hout) in Hhead. simpl in Hhead.
           symmetry. exact Hhead.
        -- rewrite (Rltb_true _ _ Hout), orb_true_r in Hhead.
           symmetry. exact Hhead.
      * simpl in Hz, He.
        apply (proj1 IH Htail j zj e Hz He Hout).
    + intros H. simpl. f_equal.
      * destruct (Rlt_dec z0 (fst b)) as [Hlo | Hlo].
        -- rewrite (Rltb_true _ _ Hlo). simpl. symmetry.
           apply (H 0%nat z0 e0); [reflexivity | reflexivity | left; exact Hlo].
        -- rewrite (Rltb_false _ _ Hlo). simpl.
           destruct (Rlt_dec (snd b) z0) as [Hhi | Hhi].
           ++ rewrite (Rltb_true _ _ Hhi). symmetry.
              apply (H 0%nat z0 e0);
                [reflexivity | reflexivity | right; exact Hhi].
           ++ rewrite (Rltb_false _ _ Hhi). reflexivity.
      * apply (proj2 IH). intros j zj e Hz He Hout.
        apply (H (S j) zj e); assumption.
Qed.

Lemma map_fixed {A} (g : A -> A) (l : list A) :
  map g l = l <-> forall a, In a l -> g a = a.
Proof.
  induction l as [| a l IH]; simpl.
  - split; [intros _ a [] | reflexivity].
  - split.
    + intros H. injection H as Ha Hl. intros x [<- | Hx]; [exact Ha |].
      apply (proj1 IH Hl x Hx).
    + intros H. f_equal; [apply H; left; reflexivity |].
      apply (proj2 IH). intros x Hx. apply H. right. exact Hx.
Qed.

Lemma gated_fixed (z : list R) (b : R * R) (a : ndarray) :
  wf_array a -> shape1 a = length z ->
  (gated z b a = a <-> zero_outside z b a).
Proof.
  intros [_ Hrows] Hs. rewrite Forall_forall in Hrows.
  destruct a as [s0 s1 d]. unfold gated, zero_outside. simpl in *.
  split.
  - intros H. injection H as H. intros row j zj e Hrow.
    apply (proj1 (gated_row_fixed z b row
                    (eq_trans (Hrows row Hrow) Hs))).
    apply (proj1 (map_fixed _ d) H row Hrow).
  - intros H. f_equal. apply (proj2 (map_fixed _ d)). intros row Hrow.
    apply (proj2 (gated_row_fixed z b row (eq_trans (Hrows row Hrow) Hs))).
    intros j zj e. apply (H row j zj e Hrow).
Qed.

Lemma inside_zero_outside (z : list R) (b : R * R) (a : ndarray) :
  Forall (fun zj => fst b <= zj <= snd b) z -> zero_outside z b a.
Proof.
  intros Hin row j zj e _ Hz _ Hout. rewrite Forall_forall in Hin.
  apply nth_error_In in Hz. specialize (Hin zj Hz). lra.
Qed.

Lemma demo_borders_large (lo hi : R) :
  1 <= lo ^ 2 <= 4 -> 1 <= hi ^ 2 <= 4 ->
  PyKicker.effective_borders demo_lines (lo, hi) = Return (lo, hi).
Proof.
  intros H0 H1. pose proof sq_max_large. pose proof lit_1e_6_bounds.
  apply py_effective_borders_large; simpl; lra.
Qed.

(** C1, as stated, fails: with borders [1, 2] on [z = 0, 1, 2] both
    functions return and leave a zero in the first column of the caller's
    array, which held a one. *)
Lemma kicker_overwrites_caller_array :
  (exists r h',
     PyKicker.kickerLong 0%nat demo_lines [1] 1 (Kicker.BetaFloat (1 / 2))
       (1, 2) 50 demo_heap = (Return r, h') /\
     data (h' 0%nat) = [[cfin C0; cfin (RtoC 1); cfin (RtoC 1)]] /\
     data (h' 0%nat) <> data (demo_heap 0%nat)) /\
  (exists r h',
     PyKicker.kickerTrans 0%nat demo_lines [1] 1 (Kicker.BetaFloat (1 / 2))
       (1, 2) 50 false demo_heap = (Return r, h') /\
     data (h' 0%nat) = [[cfin C0; cfin (RtoC 1); cfin (RtoC 1)]] /\
     data (h' 0%nat) <> data (demo_heap 0%nat)).
Proof.
  assert (He : PyKicker.effective_borders demo_lines (1, 2) = Return (1, 2))
    by (apply demo_borders_large; lra).
  split.
  - destruct (py_kickerLong_returns 0%nat demo_lines [1] 1
                (Kicker.BetaFloat (1 / 2)) (1 / 2) (1, 2) (1, 2) 50 demo_heap)
      as (r & h' & Hr & Hp & _); try reflexivity;
      [exact demo_lines_nonempty | exact He |].
    exists r, h'. split; [exact Hr |].
    assert (Hd : data (h' 0%nat) = [[cfin C0; cfin (RtoC 1); cfin (RtoC 1)]]).
    { rewrite Hp. simpl. rewrite demo_row_gated_1_2. reflexivity. }
    split; [exact Hd |]. rewrite Hd. exact demo_row_changed.
  - destruct (py_kickerTrans_returns 0%nat demo_lines [1] 1
                (Kicker.BetaFloat (1 / 2)) (1 / 2) (1, 2) (1, 2) 50 demo_heap)
      as (r & h' & Hr & Hp & _); try reflexivity;
      [exact demo_lines_nonempty | exact He |].
    exists r, h'. split; [exact Hr |].
    assert (Hd : data (h' 0%nat) = [[cfin C0; cfin (RtoC 1); cfin (RtoC 1)]]).
    { rewrite Hp. simpl. rewrite demo_row_gated_1_2. reflexivity. }
    split; [exact Hd |]. rewrite Hd. exact demo_row_changed.
Qed.

(** C1, amended. On every well-shaped input with at least one [z] sample
    and borders whose squares are finite, both functions return and
    overwrite the caller's array in place: afterwards each column whose [z]
    lies outside the borders in force holds zero and every other column
    its old value, and no other array of the store changes.  The caller's
    array is as before exactly when its entries in the columns outside the
    borders were zero already, as they are when no [z] sample lies
    outside. *)
Theorem kicker_gates_caller_array_in_place
    (A : ref) (z f : list R) (Pin_eff : R) (beta : Kicker.beta_arg) (b : R)
    (z_borders : R * R) (Zc : R) (h : heap) :
  shape0 (h A) = length f -> shape1 (h A) = length z -> z <> [] ->
  Kicker.single_beta beta = Return b ->
  fst z_borders ^ 2 < PyFloat.sq_max -> snd z_borders ^ 2 < PyFloat.sq_max ->
  exists eb, PyKicker.effective_borders z z_borders = Return eb /\
    (exists r h',
       PyKicker.kickerLong A z f Pin_eff beta z_borders Zc h =
         (Return r, h') /\
       h' A = gated z eb (h A) /\ (forall q, q <> A -> h' q = h q) /\
       (wf_array (h A) -> (h' A = h A <-> zero_outside z eb (h A))) /\
       (Forall (fun zj => fst eb <= zj <= snd eb) z ->
        zero_outside z eb (h A))) /\
    (exists r h',
       PyKicker.kickerTrans A z f Pin_eff beta z_borders Zc false h =
         (Return r, h') /\
       h' A = gated z eb (h A) /\ (forall q, q <> A -> h' q = h q) /\
       (wf_array (h A) -> (h' A = h A <-> zero_outside z eb (h A))) /\
       (Forall (fun zj => fst eb <= zj <= snd eb) z ->
        zero_outside z eb (h A))).
Proof.
  intros H0 H1 Hz Hb R0 R1.
  destruct (py_effective_borders_returns z z_borders Hz R0 R1) as (eb & He).
  exists eb. split; [exact He |]. split.
  - destruct (py_kickerLong_returns A z f Pin_eff beta b z_borders eb Zc h
                H0 H1 Hz Hb He) as (r & h' & Hr & Hp & Hq).
    exists r, h'. split; [exact Hr |]. split; [exact Hp |].
    split; [exact Hq |]. split.
    + intros Hwf. rewrite Hp. apply gated_fixed; assumption.
    + apply inside_zero_outside.
  - destruct (py_kickerTrans_returns A z f Pin_eff beta b z_borders eb Zc h
                H0 H1 Hz Hb He) as (r & h' & Hr & Hp & Hq).
    exists r, h'. split; [exact Hr |]. split; [exact Hp |].
    split; [exact Hq |]. split.
    + intros Hwf. rewrite Hp. apply gated_fixed; assumption.
    + apply inside_zero_outside.
Qed.

Lemma kicker_gates_caller_array_in_place_witness :
  exists eb, PyKicker.effective_borders demo_lines (1, 2) = Return eb /\
    (exists r h',
       PyKicker.kickerLong 0%nat demo_lines [1] 1 (Kicker.BetaFloat (1 / 2))
         (1, 2) 50 demo_heap = (Return r, h') /\
       h' 0%nat = gated demo_lines eb (demo_heap 0%nat) /\
       (forall q, q <> 0%nat -> h' q = demo_heap q) /\
       (wf_array (demo_heap 0%nat) ->
        (h' 0%nat = demo_heap 0%nat <->
         zero_outside demo_lines eb (demo_heap 0%nat))) /\
       (Forall (fun zj => fst eb <= zj <= snd eb) demo_lines ->
        zero_outside demo_lines eb (demo_heap 0%nat))) /\
    (exists r h',
       PyKicker.kickerTrans 0%nat demo_lines [1] 1 (Kicker.BetaFloat (1 / 2))
         (1, 2) 50 false demo_heap = (Return r, h') /\
       h' 0%nat = gated demo_lines eb (demo_heap 0%nat) /\
       (forall q, q <> 0%nat -> h' q = demo_heap q) /\
       (wf_array (demo_heap 0%nat) ->
        (h' 0%nat = demo_heap 0%nat <->
         zero_outside demo_lines eb (demo_heap 0%nat))) /\
       (Forall (fun zj => fst eb <= zj <= snd eb) demo_lines ->
        zero_outside demo_lines eb (demo_heap 0%nat))).
Proof.
  apply (kicker_gates_caller_array_in_place 0%nat demo_lines [1] 1
           (Kicker.BetaFloat (1 / 2)) (1 / 2) (1, 2) 50 demo_heap).
  - reflexivity.
  - reflexivity.
  - exact demo_lines_nonempty.
  - reflexivity.
  - pose proof sq_max_large. simpl. lra.
  - pose proof sq_max_large. simpl. lra.
Defined.



Lemma demo_huge_overflows :
  PyFloat.sq_max <= demo_huge ^ 2.
Proof.
  unfold demo_huge, PyFloat.sq_max.
  rewrite <- pow_mult, !pow_IZR, <- minus_IZR. apply IZR_le.
  vm_compute. discriminate.
Qed.


(** ** Polar form *)

Lemma Cnorm2_pos (w : C) : w <> C0 -> 0 < Cnorm2 w.
Proof.
  destruct w as [x y]. unfold Cnorm2, C0. simpl. intros H.
  destruct (Req_dec x 0) as [Hx | Hx]; destruct (Req_dec y 0) as [Hy | Hy];
    try nra.
  subst. contradiction H. reflexivity.
Qed.

Lemma sqrt_one_plus_sqr (x y : R) :
  x <> 0 -> sqrt (1 + (y / x)²) = sqrt (x * x + y * y) / Rabs x.
Proof.
  intros Hx.
  assert (Ha : 0 < Rabs x) by (apply Rabs_pos_lt; exact Hx).
  assert (Hs : 0 <= sqrt (x * x + y * y)) by apply sqrt_pos.
  apply sqrt_lem_1.
  - unfold Rsqr. assert (0 <= y / x * (y / x)) by nra. lra.
  - apply Rmult_le_pos; [exact Hs | left; apply Rinv_0_lt_compat; exact Ha].
  - replace (sqrt (x * x + y * y) / Rabs x * (sqrt (x * x + y * y) / Rabs x))
      with (sqrt (x * x + y * y) * sqrt (x * x + y * y) / (Rabs x * Rabs x))
      by (field; lra).
    rewrite sqrt_sqrt by nra.
    replace (Rabs x * Rabs x) with (x * x)
      by (unfold Rabs; destruct (Rcase_abs x); ring).
    unfold Rsqr. field. exact Hx.
Qed.

(** [np.angle] gives the argument of a non-zero complex number. *)
Lemma Cangle_cos_sin (w : C) :
  w <> C0 ->
  cos (Cangle w) = re w / Cabs w /\ sin (Cangle w) = im w / Cabs w.
Proof.
  intros Hw. pose proof (Cnorm2_pos w Hw) as Hn.
  destruct w as [x y]. unfold Cangle, Cabs, Cnorm2, arctan2 in *. simpl in *.
  assert (Hs : 0 < sqrt (x * x + y * y)) by (apply sqrt_lt_R0; exact Hn).
  destruct (Rlt_dec 0 x) as [Hx | Hx].
  - rewrite (Rltb_true 0 x Hx).
    rewrite cos_atan, sin_atan, sqrt_one_plus_sqr by lra.
    rewrite (Rabs_right x) by lra. split; field; lra.
  - rewrite (Rltb_false 0 x Hx).
    destruct (Rlt_dec x 0) as [Hx' | Hx'].
    + rewrite (Rltb_true x 0 Hx').
      destruct (Rltb y 0).
      * unfold Rminus. rewrite cos_plus, sin_plus, cos_neg, sin_neg.
        rewrite cos_PI, sin_PI.
        rewrite cos_atan, sin_atan, sqrt_one_plus_sqr by lra.
        rewrite (Rabs_left x) by lra. split; field; lra.
      * rewrite cos_plus, sin_plus, cos_PI, sin_PI.
        rewrite cos_atan, sin_atan, sqrt_one_plus_sqr by lra.
        rewrite (Rabs_left x) by lra. split; field; lra.
    + rewrite (Rltb_false x 0 Hx').
      assert (x = 0) by lra. subst x.
      replace (0 * 0 + y * y) with (y * y) in * by ring.
      destruct (Rlt_dec 0 y) as [Hy | Hy].
      * rewrite (Rltb_true 0 y Hy). rewrite cos_PI2, sin_PI2.
        rewrite sqrt_square by lra. split; field; lra.
      * rewrite (Rltb_false 0 y Hy).
        assert (Hy' : y < 0) by nra.
        rewrite (Rltb_true y 0 Hy'). rewrite cos_neg, sin_neg, cos_PI2, sin_PI2.
        replace (y * y) with ((- y) * (- y)) by ring.
        rewrite sqrt_square by lra. split; field; lra.
Qed.

(** Rotating a number back by its own argument leaves its modulus. *)
Lemma Cmul_conj_angle (w : C) :
  w <> C0 ->
  Cmul w (Cexp (Cmul (Cneg Ci) (RtoC (Cangle w)))) = RtoC (Cabs w).
Proof.
  intros Hw. destruct (Cangle_cos_sin w Hw) as [Hc Hs].
  pose proof (Cnorm2_pos w Hw) as Hn.
  assert (Hq : 0 < Cabs w) by (apply sqrt_lt_R0; exact Hn).
  assert (Hsq : Cabs w * Cabs w = Cnorm2 w)
    by (unfold Cabs; apply sqrt_sqrt; lra).
  remember (Cabs w) as s eqn:Es. remember (Cangle w) as phi eqn:Ep.
  destruct w as [x y]. unfold Cmul, Cexp, Cneg, Ci, RtoC, Cnorm2 in *.
  simpl in *.
  replace (- 0 * phi - - (1) * 0) with 0 by ring.
  replace (- 0 * 0 + - (1) * phi) with (- phi) by ring.
  rewrite exp_0, cos_neg, sin_neg, Hc, Hs.
  f_equal.
  - replace (x * (1 * (x / s)) - y * (1 * - (y / s)))
      with ((x * x + y * y) / s) by (field; lra).
    rewrite <- Hsq. field. lra.
  - field. lra.
Qed.

Lemma Cangle_RtoC_nonneg (r : R) : 0 <= r -> Cangle (RtoC r) = 0.
Proof.
  intros Hr. unfold Cangle, RtoC, arctan2. simpl.
  destruct (Rlt_dec 0 r) as [H | H].
  - rewrite (Rltb_true 0 r H). unfold Rdiv. rewrite Rmult_0_l. apply atan_0.
  - rewrite (Rltb_false 0 r H). rewrite (Rltb_false r 0) by lra.
    rewrite (Rltb_false 0 0) by lra. reflexivity.
Qed.

(** The final rotation of [rotate_phase] brings its reference entry to
    phase zero. *)
Lemma Cangle_after_rotation (w : C) :
  w <> C0 ->
  Cangle (Cmul w (Cexp (Cmul (Cneg Ci) (RtoC (Cangle w))))) = 0.
Proof.
  intros Hw. rewrite Cmul_conj_angle by exact Hw.
  apply Cangle_RtoC_nonneg. apply sqrt_pos.
Qed.

(** ** np.unwrap keeps length and finiteness *)

Lemma length_xdiff (p : list xR) : length (Phase.xdiff p) = pred (length p).
Proof.
  induction p as [| a [| b p] IH]; try reflexivity.
  change (length (Phase.xdiff (a :: b :: p)))
    with (S (length (Phase.xdiff (b :: p)))).
  rewrite IH. reflexivity.
Qed.

Lemma length_xcumsum_from (acc : xR) (l : list xR) :
  length (Phase.xcumsum_from acc l) = length l.
Proof.
  revert acc. induction l as [| a l IH]; intros acc; simpl; auto.
Qed.

Lemma length_xcumsum (l : list xR) : length (Phase.xcumsum l) = length l.
Proof.
  destruct l as [| a l]; simpl; [| rewrite length_xcumsum_from]; reflexivity.
Qed.

Lemma length_unwrap (p : list xR) : length (Phase.unwrap p) = length p.
Proof.
  destruct p as [| p0 ps]; [reflexivity |].
  change (length (Phase.unwrap (p0 :: ps)))
    with (S (length (zipWith xRadd ps
               (Phase.xcumsum
                  (map Phase.ph_correct (Phase.xdiff (p0 :: ps))))))).
  rewrite length_zipWith, length_xcumsum, length_map, length_xdiff.
  simpl. rewrite Nat.min_id. reflexivity.
Qed.

Lemma xdiff_finite (p : list xR) :
  Forall is_fin p -> Forall is_fin (Phase.xdiff p).
Proof.
  induction p as [| a p IH]; intros H; [constructor |].
  destruct p as [| b p]; [constructor |].
  inversion H as [| ? ? (va & ->) Hrest]; subst.
  pose proof Hrest as Hrest'.
  inversion Hrest' as [| ? ? (vb & ->) _]; subst.
  change (Phase.xdiff (Some va :: Some vb :: p))
    with (xRsub (Some vb) (Some va) :: Phase.xdiff (Some vb :: p)).
  constructor; [eexists; reflexivity | apply IH; exact Hrest].
Qed.

Lemma ph_correct_finite (l : list xR) :
  Forall is_fin l -> Forall is_fin (map Phase.ph_correct l).
Proof.
  induction 1 as [| e l (v & ->) _ IH]; simpl; constructor; [| exact IH].
  destruct (Rltb (Rabs v) PI); eexists; reflexivity.
Qed.

Lemma xcumsum_from_finite (acc : xR) (l : list xR) :
  is_fin acc -> Forall is_fin l -> Forall is_fin (Phase.xcumsum_from acc l).
Proof.
  intros Ha Hl. revert acc Ha.
  induction Hl as [| e l (v & ->) _ IH]; intros acc (a & ->); simpl;
    constructor.
  - eexists; reflexivity.
  - apply IH. eexists; reflexivity.
Qed.

Lemma xcumsum_finite (l : list xR) :
  Forall is_fin l -> Forall is_fin (Phase.xcumsum l).
Proof.
  intros H. destruct H as [| e l He Hl]; simpl; constructor; [exact He |].
  apply xcumsum_from_finite; assumption.
Qed.

Lemma zipWith_xRadd_finite (l m : list xR) :
  Forall is_fin l -> Forall is_fin m -> Forall is_fin (zipWith xRadd l m).
Proof.
  intros Hl. revert m.
  induction Hl as [| a l (va & ->) _ IH]; intros m Hm; [constructor |].
  destruct Hm as [| b m (vb & ->) Hm]; simpl; constructor.
  - eexists; reflexivity.
  - apply IH; exact Hm.
Qed.

Lemma unwrap_finite (p : list xR) :
  Forall is_fin p -> Forall is_fin (Phase.unwrap p).
Proof.
  intros H. destruct p as [| p0 ps]; [constructor |].
  unfold Phase.unwrap. inversion H; subst. constructor; [assumption |].
  apply zipWith_xRadd_finite; [assumption |].
  apply xcumsum_finite, ph_correct_finite, xdiff_finite. exact H.
Qed.

(** ** rotate_phase on a well-shaped array *)

Lemma nth_error_zipWith {A B D} (g : A -> B -> D) (l : list A) (m : list B)
    (i : nat) (a : A) (b : B) :
  nth_error l i = Some a -> nth_error m i = Some b ->
  nth_error (zipWith g l m) i = Some (g a b).
Proof.
  revert m i. induction l as [| a0 l IH]; intros m i Ha Hb.
  - destruct i; discriminate.
  - destruct m as [| b0 m]; [destruct i; discriminate |].
    destruct i as [| i]; simpl in *.
    + inversion Ha; inversion Hb; reflexivity.
    + apply IH; assumption.
Qed.

Lemma getlast_map {A B} (g : A -> B) (row : list A) (d : A) :
  row <> [] -> getlast (map g row) = Return (g (last row d)).
Proof.
  intros Hrow. destruct (exists_last Hrow) as (l & a & ->).
  rewrite map_app, last_last. simpl. apply getlast_app.
Qed.

Lemma rotate_phase_returns (A : ndarray) (f : list R) (f1 f2 : R)
    (i1 i2 : nat) :
  wf_array A -> shape1 A <> 0%nat -> length f = shape0 A ->
  argmin (dists f f1) = Return i1 -> argmin (dists f f2) = Return i2 ->
  exists phi1 phi2 row fk,
    let phi := Phase.unwrap
                 (map xCangle (map (fun row => last row None) (data A))) in
    nth_error phi i1 = Some phi1 /\ nth_error phi i2 = Some phi2 /\
    nth_error (data A) i1 = Some row /\ nth_error f i1 = Some fk /\
    let w := xCmul (last row None) (Phase.ramp f1 f2 phi1 phi2 fk) in
    let r := xCexp (xCmul (cfin (Cneg Ci)) (xRtoC (xCangle w))) in
    let out :=
      map (map (fun a => xCmul a r))
          (zipWith (fun row bk => map (fun a => xCmul a bk) row) (data A)
                   (map (Phase.ramp f1 f2 phi1 phi2) f)) in
    Phase.rotate_phase A f f1 f2 = Return out /\
    Phase.entry_last out i1 = Return (xCmul w r).
Proof.
  intros [Hrows Hcols] Hnz Hlen H1 H2.
  assert (Hi : forall x0 i, argmin (dists f x0) = Return i ->
                 (i < length f)%nat).
  { intros x0 i H. apply argmin_first_min in H. destruct H as (v & Hv & _).
    unfold dists in Hv.
    assert (i < length (map (fun x => Rabs (x - x0)) f))%nat
      by (apply nth_error_Some; rewrite Hv; discriminate).
    rewrite length_map in H. exact H. }
  pose proof (Hi _ _ H1) as Hi1. pose proof (Hi _ _ H2) as Hi2.
  set (phi := Phase.unwrap
                (map xCangle (map (fun row => last row None) (data A)))).
  assert (Hphi : length phi = length f).
  { unfold phi. rewrite length_unwrap, !length_map, Hlen. exact Hrows. }
  destruct (FieldsFacts.getitem_lt phi i1) as (phi1 & Hp1 & Hg1); [lia |].
  destruct (FieldsFacts.getitem_lt phi i2) as (phi2 & Hp2 & Hg2); [lia |].
  destruct (FieldsFacts.getitem_lt (data A) i1) as (row & Hrow & _); [lia |].
  destruct (FieldsFacts.getitem_lt f i1) as (fk & Hfk & _); [lia |].
  exists phi1, phi2, row, fk. cbv zeta.
  do 4 (split; [assumption |]).
  assert (Hrne : row <> []).
  { rewrite Forall_forall in Hcols.
    pose proof (Hcols row (nth_error_In _ _ Hrow)) as Hl.
    intros ->. simpl in Hl. lia. }
  set (bs := map (Phase.ramp f1 f2 phi1 phi2) f).
  set (out0 := zipWith (fun row bk => map (fun a => xCmul a bk) row)
                 (data A) bs).
  assert (Hout0 : nth_error out0 i1 =
            Some (map (fun a => xCmul a (Phase.ramp f1 f2 phi1 phi2 fk)) row)).
  { unfold out0.
    apply (nth_error_zipWith
             (fun row bk => map (fun a => xCmul a bk) row));
      [exact Hrow |].
    unfold bs. rewrite nth_error_map, Hfk. reflexivity. }
  assert (Hw : Phase.entry_last out0 i1 =
            Return (xCmul (last row None) (Phase.ramp f1 f2 phi1 phi2 fk))).
  { unfold Phase.entry_last. rewrite (FieldsFacts.getitem_Some _ _ _ Hout0).
    cbn [obind].
    apply (getlast_map (fun a => xCmul a (Phase.ramp f1 f2 phi1 phi2 fk))).
    exact Hrne. }
  split.
  - unfold Phase.rotate_phase. unfold dists in H1, H2. rewrite H1, H2.
    cbn [obind]. unfold Phase.last_column.
    apply Nat.eqb_neq in Hnz. rewrite Hnz. cbn [obind].
    fold phi. rewrite Hg1, Hg2. cbn [obind].
    unfold Phase.mul_rows. fold bs.
    replace (length (data A) =? length bs)%nat with true
      by (symmetry; apply Nat.eqb_eq; unfold bs; rewrite length_map, Hlen;
          exact Hrows).
    cbn [obind]. fold out0. rewrite Hw. cbn [obind]. reflexivity.
  - unfold Phase.entry_last.
    rewrite (FieldsFacts.getitem_Some _ _ _
               (map_nth_error _ _ _ Hout0)).
    cbn [obind]. rewrite map_map.
    set (r := xCexp _).
    rewrite (getlast_map
               (fun a => xCmul (xCmul a (Phase.ramp f1 f2 phi1 phi2 fk)) r)
               row None Hrne).
    reflexivity.
Qed.

(** ** Claims on rotate_phase *)

Lemma xCmul_None_r (a : xC) : xCmul a None = None.
Proof. destruct a; reflexivity. Qed.

(** With equal reference frequencies the ramp is a division by zero. *)
Lemma ramp_degenerate (f1 : R) (phi1 phi2 : xR) (fk : R) :
  Phase.ramp f1 f1 phi1 phi2 fk = None.
Proof.
  unfold Phase.ramp, xCdiv, xCmul, xRtoC, cfin, fin, lift1, lift2, Ceqb.
  simpl. rewrite (Reqb_true (f1 - f1) 0) by lra.
  rewrite (Reqb_true 0 0) by reflexivity. reflexivity.
Qed.

(** With distinct reference frequencies it is a point of the unit circle. *)
Lemma ramp_unit (f1 f2 p1 p2 fk : R) :
  f1 <> f2 ->
  exists theta,
    Phase.ramp f1 f2 (Some p1) (Some p2) fk = Some (mkC (cos theta) (sin theta)).
Proof.
  intros Hf. assert (Hd : f2 - f1 <> 0) by lra.
  unfold Phase.ramp, xCdiv, xCmul, xRsub, xRtoC, xCexp, cfin, fin, lift1, lift2.
  rewrite (Ceqb_RtoC_nonzero _ Hd).
  set (c := Cmul (Cdiv (Cmul (Cneg Ci) (RtoC fk)) (RtoC (f2 - f1)))
                 (RtoC (p2 - p1))).
  exists (im c). f_equal. unfold Cexp.
  assert (Hre : re c = 0).
  { unfold c, Cmul, Cdiv, Cneg, Ci, RtoC, Cnorm2. simpl. field. exact Hd. }
  rewrite Hre, exp_0. f_equal; ring.
Qed.

Lemma Cmul_unit_nonzero (a : C) (theta : R) :
  a <> C0 -> Cmul a (mkC (cos theta) (sin theta)) <> C0.
Proof.
  intros Ha H. pose proof (Cnorm2_pos a Ha) as Hn.
  assert (Hz : Cnorm2 (Cmul a (mkC (cos theta) (sin theta))) = 0)
    by (rewrite H; unfold Cnorm2, C0; simpl; ring).
  pose proof (sin2_cos2 theta) as Hsc. unfold Rsqr in Hsc.
  destruct a as [x y]. unfold Cnorm2, Cmul in *. simpl in *.
  assert (Hprod : (x * x + y * y) *
                  (sin theta * sin theta + cos theta * cos theta) = 0)
    by (rewrite <- Hz; ring).
  rewrite Hsc in Hprod. lra.
Qed.

Lemma zipWith_rows_erased (g : xC -> xC -> xC) (l : matrix xC) (m : list xC) :
  length l = length m ->
  map (map (fun _ : xC => @None C))
      (zipWith (fun row bk => map (fun a => g a bk) row) l m) =
  map (map (fun _ : xC => @None C)) l.
Proof.
  revert m. induction l as [| row l IH]; intros [| bk m] Hlen;
    try discriminate; [reflexivity |].
  simpl. rewrite map_map. f_equal. apply IH. simpl in Hlen. lia.
Qed.

Lemma rotate_phase_degenerate (A : ndarray) (f : list R) (f1 : R) :
  wf_array A -> shape0 A <> 0%nat -> shape1 A <> 0%nat ->
  length f = shape0 A ->
  Phase.rotate_phase A f f1 f1 =
  Return (map (map (fun _ : xC => @None C)) (data A)).
Proof.
  intros Hwf Hn0 Hn1 Hlen.
  assert (Hf : dists f f1 <> []).
  { unfold dists. destruct f; [simpl in Hlen; congruence | discriminate]. }
  destruct (argmin_returns _ Hf) as (i1 & Hi1 & _).
  destruct (rotate_phase_returns A f f1 f1 i1 i1 Hwf Hn1 Hlen Hi1 Hi1)
    as (phi1 & phi2 & row & fk & _ & _ & _ & _ & Hr & _).
  cbv zeta in Hr. rewrite Hr. f_equal.
  rewrite ramp_degenerate, xCmul_None_r. simpl.
  rewrite <- (zipWith_rows_erased xCmul (data A)
                (map (Phase.ramp f1 f1 phi1 phi2) f)).
  - apply map_ext. intros r. apply map_ext. intros a.
    apply xCmul_None_r.
  - rewrite length_map, Hlen. destruct Hwf as [Hrows _]. exact Hrows.
Qed.

Lemma demo_array_wf : wf_array demo_array.
Proof. split; [reflexivity | repeat constructor]. Qed.

(** C2, as stated, fails: with [f1 == f2] the phase normaliser raises
    nothing; it returns an array of nan. *)
Lemma rotate_phase_equal_frequencies_returns :
  Phase.rotate_phase demo_array demo_freqs 1 1 =
    Return [[None; None]; [None; None]] /\
  ~ raises (Phase.rotate_phase demo_array demo_freqs 1 1).
Proof.
  assert (H : Phase.rotate_phase demo_array demo_freqs 1 1 =
              Return [[None; None]; [None; None]]).
  { rewrite rotate_phase_degenerate;
      [reflexivity | exact demo_array_wf | discriminate | discriminate
      | reflexivity]. }
  split; [exact H |]. rewrite H. intros (e & He). discriminate.
Qed.

(** C2, amended. With equal reference frequencies the phase normaliser does
    not fail: on every array with at least one row and one column it
    divides by [f2 - f1 = 0] silently and returns an array of the same
    shape whose entries are all non-finite. *)
Theorem rotate_phase_equal_frequencies_is_silent
    (A : ndarray) (f : list R) (f1 : R) :
  wf_array A -> shape0 A <> 0%nat -> shape1 A <> 0%nat ->
  length f = shape0 A ->
  Phase.rotate_phase A f f1 f1 =
  Return (map (map (fun _ : xC => @None C)) (data A)).
Proof. apply rotate_phase_degenerate. Qed.

Lemma rotate_phase_equal_frequencies_is_silent_witness :
  Phase.rotate_phase demo_array demo_freqs 2 2 =
  Return (map (map (fun _ : xC => @None C)) (data demo_array)).
Proof.
  apply (rotate_phase_equal_frequencies_is_silent demo_array demo_freqs 2).
  - exact demo_array_wf.
  - discriminate.
  - discriminate.
  - reflexivity.
Defined.

(** C8. For distinct reference frequencies and an array whose last column
    is finite and non-zero, the phase normaliser returns, and the last
    entry of the row nearest to [f1] has phase exactly zero. *)
Theorem rotate_phase_reference_phase_is_zero
    (A : ndarray) (f : list R) (f1 f2 : R) (i1 : nat) :
  wf_array A -> shape1 A <> 0%nat -> length f = shape0 A ->
  last_column_nonzero A -> f1 <> f2 ->
  first_min (dists f f1) i1 ->
  exists out w,
    Phase.rotate_phase A f f1 f2 = Return out /\
    Phase.entry_last out i1 = Return w /\
    xCangle w = Some 0.
Proof.
  intros Hwf Hn1 Hlen Hcol Hf Hmin.
  pose proof Hmin as Hi1. apply argmin_first_min in Hi1.
  assert (Hne : dists f f2 <> []).
  { destruct Hmin as (v & Hv & _). unfold dists in *.
    destruct f; [destruct i1; discriminate | discriminate]. }
  destruct (argmin_returns _ Hne) as (i2 & Hi2 & _).
  destruct (rotate_phase_returns A f f1 f2 i1 i2 Hwf Hn1 Hlen Hi1 Hi2)
    as (phi1 & phi2 & row & fk & Hp1 & Hp2 & Hrow & _ & Hr & Hw).
  cbv zeta in Hp1, Hp2, Hr, Hw.
  assert (Hphi : Forall is_fin
            (Phase.unwrap
               (map xCangle (map (fun row => last row None) (data A))))).
  { apply unwrap_finite. rewrite map_map. apply Forall_map.
    unfold last_column_nonzero in Hcol.
    eapply Forall_impl; [| exact Hcol].
    intros r (c & -> & _). eexists. reflexivity. }
  rewrite Forall_forall in Hphi.
  destruct (Hphi _ (nth_error_In _ _ Hp1)) as (p1 & ->).
  destruct (Hphi _ (nth_error_In _ _ Hp2)) as (p2 & ->).
  unfold last_column_nonzero in Hcol. rewrite Forall_forall in Hcol.
  destruct (Hcol _ (nth_error_In _ _ Hrow)) as (a & Ha & Ha0).
  destruct (ramp_unit f1 f2 p1 p2 fk Hf) as (theta & Hu).
  unfold xC in Hr, Hw, Ha. rewrite Hu, Ha in Hr, Hw.
  eexists. eexists. split; [exact Hr |]. split; [exact Hw |].
  simpl. f_equal. apply Cangle_after_rotation.
  apply Cmul_unit_nonzero. exact Ha0.
Qed.

Lemma demo_freqs_first_min : first_min (dists demo_freqs 1) 0.
Proof.
  exists (Rabs (1 - 1)). split; [reflexivity |]. split.
  - intros j w Hj. replace (1 - 1) with 0 by lra. rewrite Rabs_R0.
    destruct j as [| [| j]]; simpl in Hj.
    + inversion Hj. apply Rabs_pos.
    + inversion Hj. apply Rabs_pos.
    + destruct j; discriminate.
  - intros j w Hj. lia.
Qed.

Lemma demo_array_last_column : last_column_nonzero demo_array.
Proof.
  unfold last_column_nonzero, demo_array. simpl.
  repeat constructor.
  - exists Ci. split; [reflexivity |]. unfold Ci, C0. intros H.
    injection H as H. lra.
  - exists (mkC 1 1). split; [reflexivity |]. unfold C0. intros H.
    injection H as H. lra.
Qed.

Lemma rotate_phase_reference_phase_is_zero_witness :
  exists out w,
    Phase.rotate_phase demo_array demo_freqs 1 2 = Return out /\
    Phase.entry_last out 0%nat = Return w /\
    xCangle w = Some 0.
Proof.
  apply (rotate_phase_reference_phase_is_zero demo_array demo_freqs 1 2 0%nat).
  - exact demo_array_wf.
  - discriminate.
  - reflexivity.
  - exact demo_array_last_column.
  - lra.
  - exact demo_freqs_first_min.
Defined.

(** * Further properties *)

(** ** beam_converter: the other input types *)

Ltac beam_types :=
  repeat match goal with
  | |- context [String.eqb ?a ?b] =>
      let v := eval vm_compute in (String.eqb a b) in
      change (String.eqb a b) with v
  end; cbv beta iota.

Lemma py_inv_sq_nonzero (x : R) :
  x <> 0 -> Beam.py_inv_sq x = Return (1 / x ^ 2).
Proof.
  intros H. unfold Beam.py_inv_sq.
  rewrite (Reqb_false (x ^ 2) 0) by (apply pow_nonzero; exact H).
  reflexivity.
Qed.

Lemma py_inv_sq_zero : Beam.py_inv_sq 0 = Raise ZeroDivisionError.
Proof.
  unfold Beam.py_inv_sq. rewrite (Reqb_true (0 ^ 2) 0) by ring. reflexivity.
Qed.

(** What the converter returns from a Lorentz factor of at least one. *)
Lemma beam_converter_from_gamma (g z_over_A : R) :
  1 <= g ->
  exists p Brho,
    Beam.beam_converter "gamma" g z_over_A =
    Return (Some (sqrt (1 - 1 / g ^ 2)), Some g, p,
            Some ((g - 1) * m_proton), Brho).
Proof.
  intros Hg. unfold Beam.beam_converter, Beam.go_backwards. beam_types.
  rewrite py_inv_sq_nonzero by lra.
  assert (Hq : 1 / g ^ 2 <= 1).
  { apply (Rmult_le_reg_r (g ^ 2)); [nra |].
    unfold Rdiv. rewrite Rmult_assoc, Rinv_l by nra. nra. }
  beam_unfold. rewrite (Rltb_false (1 - 1 / g ^ 2) 0) by lra.
  beam_unfold. do 2 eexists. reflexivity.
Qed.

(** What the converter returns from a non-zero momentum per nucleon. *)
Lemma beam_converter_from_p (p z_over_A : R) :
  p <> 0 ->
  let g := p / m_proton in
  let b := 1 / sqrt (1 + 1 / g ^ 2) in
  exists W Brho,
    Beam.beam_converter "p_over_A" p z_over_A =
    Return (Some b, Some (Rpower (1 - b ^ 2) (- (1 / 2))), Some p, W, Brho) /\
    0 < b < 1.
Proof.
  intros Hp g b.
  assert (Hg : g <> 0).
  { unfold g, m_proton, Rdiv. intros H. apply Rmult_integral in H.
    destruct H as [H | H]; [contradiction |].
    assert (0 < / 938272046) by (apply Rinv_0_lt_compat; lra). lra. }
  assert (Hq : 0 < 1 / g ^ 2) by (apply Rdiv_lt_0_compat; nra).
  assert (Hs : 1 < sqrt (1 + 1 / g ^ 2)).
  { rewrite <- sqrt_1 at 1. apply sqrt_lt_1; lra. }
  assert (Hb : 0 < b < 1).
  { unfold b. split.
    - apply Rdiv_lt_0_compat; lra.
    - apply (Rmult_lt_reg_r (sqrt (1 + 1 / g ^ 2))); [lra |].
      unfold Rdiv. rewrite Rmult_assoc, Rinv_l by lra. lra. }
  unfold Beam.beam_converter, Beam.go_backwards. beam_types.
  fold g. rewrite py_inv_sq_nonzero by exact Hg.
  beam_unfold. rewrite (Rltb_false (1 + 1 / g ^ 2) 0) by lra.
  rewrite (Reqb_false (sqrt (1 + 1 / g ^ 2)) 0) by lra.
  fold b. rewrite (Rltb_true 0 (1 - b ^ 2)) by nra.
  do 2 eexists. split; [reflexivity | exact Hb].
Qed.

(** What the converter returns from a velocity below the speed of light,
    with or without a charge. *)
Lemma beam_converter_from_beta_any (beta z_over_A : R) :
  0 <= beta < 1 ->
  let gamma := Rpower (1 - beta ^ 2) (- (1 / 2)) in
  exists Brho,
    Beam.beam_converter "beta" beta z_over_A =
    Return (Some beta, Some gamma, Some (gamma * beta * m_proton),
            Some ((gamma - 1) * m_proton), Brho) /\
    (z_over_A = 0 -> Brho = Some 0).
Proof.
  intros Hb gamma. unfold Beam.beam_converter, Beam.go_backwards. beam_types.
  beam_unfold.
  rewrite (Reqb_false (1 - beta ^ 2) 0) by nra.
  rewrite (Rltb_true 0 (1 - beta ^ 2)) by nra.
  destruct (Req_dec z_over_A 0) as [Hz | Hz].
  - rewrite (Reqb_true z_over_A 0 Hz). eexists. split; reflexivity.
  - rewrite (Reqb_false z_over_A 0 Hz). eexists. split; [reflexivity |].
    intros H. contradiction.
Qed.

(** What the converter returns from a positive kinetic energy per nucleon. *)
Lemma beam_converter_from_Wkin (W z_over_A : R) :
  0 <= W ->
  let g := W / m_proton + 1 in
  exists Brho,
    Beam.beam_converter "Wkin_over_A" W z_over_A =
    Return (Some (sqrt (1 - 1 / g ^ 2)), Some g,
            Some (g * sqrt (1 - 1 / g ^ 2) * m_proton), Some W, Brho).
Proof.
  intros HW g.
  assert (Hg : 1 <= g).
  { unfold g, m_proton.
    assert (0 <= W / 938272046) by (apply Rmult_le_pos;
      [exact HW | left; apply Rinv_0_lt_compat; lra]). lra. }
  unfold Beam.beam_converter, Beam.go_backwards. beam_types. fold g.
  rewrite py_inv_sq_nonzero by lra.
  assert (Hq : 1 / g ^ 2 <= 1).
  { apply (Rmult_le_reg_r (g ^ 2)); [nra |].
    unfold Rdiv. rewrite Rmult_assoc, Rinv_l by nra. nra. }
  beam_unfold. rewrite (Rltb_false (1 - 1 / g ^ 2) 0) by lra.
  beam_unfold. eexists. reflexivity.
Qed.

Lemma sqrt_one_minus_inv_sq (g : R) :
  1 < g ->
  0 < sqrt (1 - 1 / g ^ 2) < 1 /\ sqrt (1 - 1 / g ^ 2) ^ 2 = 1 - 1 / g ^ 2.
Proof.
  intros Hg.
  assert (Hq : 0 < 1 / g ^ 2 < 1).
  { split; [apply Rdiv_lt_0_compat; nra |].
    apply (Rmult_lt_reg_r (g ^ 2)); [nra |].
    unfold Rdiv. rewrite Rmult_assoc, Rinv_l by nra. nra. }
  split; [split |].
  - apply sqrt_lt_R0. lra.
  - apply Rlt_le_trans with (sqrt 1);
      [apply sqrt_lt_1; lra | rewrite sqrt_1; lra].
  - apply pow2_sqrt. lra.
Qed.

(** X1. An input type other than the five convertible ones is refused with
    a ValueError, whatever the value. *)
Theorem beam_converter_refuses_other_types
    (input_type : string) (input_value z_over_A : R) :
  ~ convertible input_type ->
  exists msg,
    Beam.beam_converter input_type input_value z_over_A =
    Raise (ValueError msg).
Proof.
  intros H. unfold convertible in H.
  unfold Beam.beam_converter, Beam.go_backwards.
  repeat match goal with
  | |- context [String.eqb input_type ?s] =>
      lazymatch s with
      | "p"%string => fail
      | "Wkin"%string => fail
      | _ => replace (String.eqb input_type s) with false
               by (symmetry; apply String.eqb_neq; tauto)
      end
  end.
  destruct (String.eqb input_type "p"); [eexists; reflexivity |].
  destruct (String.eqb input_type "Wkin"); eexists; reflexivity.
Qed.

Lemma beam_converter_refuses_other_types_witness :
  exists msg, Beam.beam_converter "Wkin" 1 1 = Raise (ValueError msg).
Proof.
  apply (beam_converter_refuses_other_types "Wkin" 1 1).
  unfold convertible. intros [H | [H | [H | [H | H]]]]; discriminate.
Defined.

(** X2. Without a charge the magnetic rigidity cannot be converted: a
    ValueError, whatever the value; and from a velocity the rigidity is then
    reported as 0. *)
Theorem beam_converter_without_charge (v beta : R) :
  0 <= beta < 1 ->
  (exists msg, Beam.beam_converter "Brho" v 0 = Raise (ValueError msg)) /\
  (exists t, Beam.beam_converter "beta" beta 0 = Return t /\
             Beam.out_Brho t = Some 0).
Proof.
  intros Hb. split.
  - unfold Beam.beam_converter, Beam.go_backwards. beam_types.
    rewrite (Reqb_true 0 0) by reflexivity. eexists. reflexivity.
  - destruct (beam_converter_from_beta_any beta 0 Hb) as (Brho & E & HB).
    eexists. split; [exact E |]. simpl. apply HB. reflexivity.
Qed.

Lemma beam_converter_without_charge_witness :
  (exists msg, Beam.beam_converter "Brho" 3 0 = Raise (ValueError msg)) /\
  (exists t, Beam.beam_converter "beta" (1 / 2) 0 = Return t /\
             Beam.out_Brho t = Some 0).
Proof. apply (beam_converter_without_charge 3 (1 / 2)). lra. Defined.



Lemma inv_ratio_aux (Q : R) :
  0 < Q -> / (1 - / (1 + Q)) * / (1 + Q) = / Q.
Proof. intros HQ. field. repeat split; lra. Qed.

(** With squares taken as exact: the velocity and the Lorentz factor
    converted from a non-zero momentum per nucleon give its size back. *)
Lemma momentum_exact (p z_over_A : R) :
  p <> 0 ->
  exists t b g,
    Beam.beam_converter "p_over_A" p z_over_A = Return t /\
    Beam.out_beta t = Some b /\ out_gamma t = Some g /\
    out_p_over_A t = Some p /\
    0 < b < 1 /\ g * b * m_proton = Rabs p.
Proof.
  intros Hp.
  destruct (beam_converter_from_p p z_over_A Hp) as (W & Brho & E & Hb).
  cbv zeta in E, Hb.
  set (q := p / m_proton) in *.
  set (b := 1 / sqrt (1 + 1 / q ^ 2)) in *.
  set (g := Rpower (1 - b ^ 2) (- (1 / 2))).
  exists (Some b, Some g, Some p, W, Brho), b, g.
  split; [exact E |]. do 3 (split; [reflexivity |]). split; [exact Hb |].
  assert (Hm : 0 < m_proton) by (unfold m_proton; lra).
  assert (Hq : q <> 0).
  { unfold q, Rdiv. intros H. apply Rmult_integral in H.
    destruct H as [H | H]; [contradiction |].
    pose proof (Rinv_0_lt_compat _ Hm). lra. }
  assert (Hq2 : 0 < 1 / q ^ 2) by (apply Rdiv_lt_0_compat; nra).
  assert (Hb2 : b ^ 2 = / (1 + 1 / q ^ 2)).
  { unfold b. replace ((1 / sqrt (1 + 1 / q ^ 2)) ^ 2)
      with (/ (sqrt (1 + 1 / q ^ 2) ^ 2)).
    - rewrite pow2_sqrt by lra. reflexivity.
    - field. apply Rgt_not_eq. apply sqrt_lt_R0. lra. }
  assert (Hgb : (g * b) ^ 2 = q ^ 2).
  { replace ((g * b) ^ 2) with (g ^ 2 * b ^ 2) by ring.
    unfold g. rewrite gamma_sq by exact Hb. rewrite Hb2.
    transitivity (/ (1 / q ^ 2));
      [apply inv_ratio_aux; exact Hq2 | field; exact Hq]. }
  assert (Hgpos : 0 < g) by apply gamma_pos.
  assert (Heq : g * b = Rabs q).
  { apply Rsqr_inj.
    - apply Rmult_le_pos; lra.
    - apply Rabs_pos.
    - rewrite <- Rsqr_abs. unfold Rsqr. nra. }
  rewrite Heq. unfold q. unfold Rdiv. rewrite Rabs_mult.
  rewrite (Rabs_right (/ m_proton))
    by (left; apply Rinv_0_lt_compat; exact Hm).
  field. lra.
Qed.

(** With squares taken as exact: the momentum converted from a positive
    kinetic energy per nucleon obeys the energy-momentum relation. *)
Lemma energy_momentum_exact (W z_over_A : R) :
  0 < W ->
  exists t b p,
    Beam.beam_converter "Wkin_over_A" W z_over_A = Return t /\
    Beam.out_beta t = Some b /\ 0 < b < 1 /\
    out_Wkin_over_A t = Some W /\
    out_p_over_A t = Some p /\ p ^ 2 = W ^ 2 + 2 * W * m_proton.
Proof.
  intros HW.
  destruct (beam_converter_from_Wkin W z_over_A) as (Brho & E); [lra |].
  cbv zeta in E. set (g := W / m_proton + 1) in *.
  assert (Hm : 0 < m_proton) by (unfold m_proton; lra).
  assert (Hg : 1 < g).
  { unfold g. assert (0 < W / m_proton) by (apply Rdiv_lt_0_compat; lra).
    lra. }
  destruct (sqrt_one_minus_inv_sq g Hg) as [Hb Hb2].
  eexists. exists (sqrt (1 - 1 / g ^ 2)).
  exists (g * sqrt (1 - 1 / g ^ 2) * m_proton).
  split; [exact E |]. split; [reflexivity |]. split; [exact Hb |].
  do 2 (split; [reflexivity |]).
  replace ((g * sqrt (1 - 1 / g ^ 2) * m_proton) ^ 2)
    with (g ^ 2 * sqrt (1 - 1 / g ^ 2) ^ 2 * m_proton ^ 2) by ring.
  rewrite Hb2. unfold g. field. lra.
Qed.

(** ** beam_converter on Python floats *)

Lemma sq_min_lt_max : PyFloat.sq_min < PyFloat.sq_max.
Proof.
  pose proof sq_min_small. pose proof sq_max_large.
  assert (/ 1000000 < 1) by lra. lra.
Qed.

Lemma py_inv_sq_in_range (x : R) :
  PyFloat.sq_min < x ^ 2 < PyFloat.sq_max ->
  PyFloat.py_inv_sq x = Beam.py_inv_sq x.
Proof.
  intros [Hlo Hhi]. pose proof sq_min_pos as Hm.
  unfold PyFloat.py_inv_sq, Beam.py_inv_sq.
  rewrite (py_sq_in_range x Hhi). cbn [obind].
  rewrite Rleb_false by lra. rewrite Reqb_false by lra. reflexivity.
Qed.

Lemma py_inv_sq_underflow (x : R) :
  x ^ 2 <= PyFloat.sq_min -> PyFloat.py_inv_sq x = Raise ZeroDivisionError.
Proof.
  intros H. pose proof sq_min_lt_max as Hm. unfold PyFloat.py_inv_sq.
  rewrite py_sq_in_range by lra. cbn [obind].
  rewrite Rleb_true by exact H. reflexivity.
Qed.

Lemma py_inv_sq_overflow (x : R) :
  PyFloat.sq_max <= x ^ 2 -> PyFloat.py_inv_sq x = Raise OverflowError.
Proof.
  intros H. unfold PyFloat.py_inv_sq. rewrite (py_sq_overflow x H).
  reflexivity.
Qed.

(** From a velocity that numpy computed the way forward has no square of a
    Python float. *)
Lemma py_go_forward_numpy (z_over_A : R) (l : Beam.locals) :
  Beam.l_beta_is_pyfloat l = false ->
  PyBeam.go_forward z_over_A l = Beam.go_forward z_over_A l.
Proof.
  intros H. unfold PyBeam.go_forward, Beam.go_forward. rewrite H.
  reflexivity.
Qed.

Lemma py_beam_from_beta (beta z_over_A : R) :
  beta ^ 2 < PyFloat.sq_max ->
  PyBeam.beam_converter "beta" beta z_over_A =
  Beam.beam_converter "beta" beta z_over_A.
Proof.
  intros H.
  unfold PyBeam.beam_converter, Beam.beam_converter, PyBeam.go_backwards,
    Beam.go_backwards.
  beam_types. cbn [obind].
  unfold PyBeam.go_forward, Beam.go_forward.
  cbn [Beam.l_gamma Beam.l_beta Beam.l_beta_is_pyfloat fin].
  rewrite (py_sq_in_range beta H). reflexivity.
Qed.

Lemma py_beam_from_p (p z_over_A : R) :
  PyFloat.sq_min < (p / m_proton) ^ 2 < PyFloat.sq_max ->
  PyBeam.beam_converter "p_over_A" p z_over_A =
  Beam.beam_converter "p_over_A" p z_over_A.
Proof.
  intros H.
  unfold PyBeam.beam_converter, Beam.beam_converter, PyBeam.go_backwards,
    Beam.go_backwards.
  beam_types. rewrite (py_inv_sq_in_range _ H).
  destruct (Beam.py_inv_sq (p / m_proton)); [| reflexivity].
  cbn [obind]. apply py_go_forward_numpy. reflexivity.
Qed.

Lemma py_beam_from_Wkin (W z_over_A : R) :
  PyFloat.sq_min < (W / m_proton + 1) ^ 2 < PyFloat.sq_max ->
  PyBeam.beam_converter "Wkin_over_A" W z_over_A =
  Beam.beam_converter "Wkin_over_A" W z_over_A.
Proof.
  intros H.
  unfold PyBeam.beam_converter, Beam.beam_converter, PyBeam.go_backwards,
    Beam.go_backwards.
  beam_types. rewrite (py_inv_sq_in_range _ H).
  destruct (Beam.py_inv_sq (W / m_proton + 1)); [| reflexivity].
  cbn [obind]. apply py_go_forward_numpy. reflexivity.
Qed.

Lemma py_beam_from_Brho (Brho z_over_A : R) :
  PyFloat.sq_min < (Brho * z_over_A * e_over_m_proton / clight) ^ 2
    < PyFloat.sq_max ->
  PyBeam.beam_converter "Brho" Brho z_over_A =
  Beam.beam_converter "Brho" Brho z_over_A.
Proof.
  intros H.
  unfold PyBeam.beam_converter, Beam.beam_converter, PyBeam.go_backwards,
    Beam.go_backwards.
  beam_types. destruct (Reqb z_over_A 0); [reflexivity |].
  rewrite (py_inv_sq_in_range _ H).
  destruct (Beam.py_inv_sq _); [| reflexivity].
  cbn [obind]. apply py_go_forward_numpy. reflexivity.
Qed.

(** The way to [Brho] from a velocity in (0,1), and what the way back
    squares. *)
Lemma py_beam_to_Brho (beta z_over_A : R) :
  0 < beta < 1 -> 0 < z_over_A ->
  exists t Brho,
    PyBeam.beam_converter "beta" beta z_over_A = Return t /\
    Beam.out_Brho t = Some Brho /\
    (Brho * z_over_A * e_over_m_proton / clight) ^ 2 =
      beta ^ 2 / (1 - beta ^ 2).
Proof.
  intros Hb Hz.
  set (g := Rpower (1 - beta ^ 2) (- (1 / 2))).
  set (Brho := g * beta / z_over_A / e_over_m_proton * clight).
  exists (Some beta, Some g, Some (g * beta * m_proton),
          Some ((g - 1) * m_proton), Some Brho), Brho.
  split.
  - rewrite py_beam_from_beta by (pose proof sq_max_large; nra).
    apply beam_converter_from_beta; lra.
  - split; [reflexivity |].
    replace (Brho * z_over_A * e_over_m_proton / clight) with (g * beta)
      by (unfold Brho, e_over_m_proton, clight; field; lra).
    replace ((g * beta) ^ 2) with (g ^ 2 * beta ^ 2) by ring.
    unfold g. rewrite gamma_sq by exact Hb. field. nra.
Qed.

Lemma py_beam_from_Brho_underflow (Brho z_over_A : R) :
  z_over_A <> 0 ->
  (Brho * z_over_A * e_over_m_proton / clight) ^ 2 <= PyFloat.sq_min ->
  PyBeam.beam_converter "Brho" Brho z_over_A = Raise ZeroDivisionError.
Proof.
  intros Hz H.
  unfold PyBeam.beam_converter, PyBeam.go_backwards. beam_types.
  rewrite (Reqb_false z_over_A 0 Hz).
  rewrite (py_inv_sq_underflow _ H). reflexivity.
Qed.

Lemma ratio_le_inv (u T : R) :
  0 < u < 1 -> 0 < T -> u * (T + 1) <= 1 -> u / (1 - u) <= / T.
Proof.
  intros Hu HT H.
  apply (Rmult_le_reg_r ((1 - u) * T)); [apply Rmult_lt_0_compat; lra |].
  replace (u / (1 - u) * ((1 - u) * T)) with (u * T) by (field; lra).
  replace (/ T * ((1 - u) * T)) with (1 - u) by (field; lra).
  lra.
Qed.

Lemma demo_tiny_beta_range : 0 < demo_tiny_beta < 1.
Proof.
  unfold demo_tiny_beta.
  assert (H : 1 < 10 ^ 162) by (apply Rlt_pow_R1; [lra | lia]).
  split.
  - apply Rinv_0_lt_compat. lra.
  - rewrite <- Rinv_1. apply Rinv_lt_contravar; lra.
Qed.

Lemma demo_tiny_beta_underflows :
  demo_tiny_beta ^ 2 / (1 - demo_tiny_beta ^ 2) <= PyFloat.sq_min.
Proof.
  pose proof demo_tiny_beta_range as Hb.
  unfold PyFloat.sq_min. apply ratio_le_inv.
  - nra.
  - apply pow_lt. lra.
  - unfold demo_tiny_beta. rewrite pow_inv, <- pow_mult.
    assert (Hk : 2 ^ 1075 + 1 <= 10 ^ (162 * 2)).
    { rewrite !pow_IZR, <- plus_IZR. apply IZR_le. vm_compute. discriminate. }
    assert (Hp : 0 < 10 ^ (162 * 2)) by (apply pow_lt; lra).
    apply (Rmult_le_reg_l (10 ^ (162 * 2))); [exact Hp |].
    rewrite <- Rmult_assoc, Rinv_r by lra. lra.
Qed.








(** X6. The limits of the velocity range are refused by Python's float
    arithmetic, with or without a charge: the speed of light as a
    velocity, and a zero Lorentz factor or momentum, raise
    ZeroDivisionError; so does a zero rigidity when a charge is given. *)
Theorem beam_converter_division_by_zero (z_over_A : R) :
  PyBeam.beam_converter "beta" 1 z_over_A = Raise ZeroDivisionError /\
  PyBeam.beam_converter "gamma" 0 z_over_A = Raise ZeroDivisionError /\
  PyBeam.beam_converter "p_over_A" 0 z_over_A = Raise ZeroDivisionError /\
  (z_over_A <> 0 ->
   PyBeam.beam_converter "Brho" 0 z_over_A = Raise ZeroDivisionError).
Proof.
  pose proof sq_min_pos as Hm. pose proof sq_max_large as HM.
  unfold PyBeam.beam_converter, PyBeam.go_backwards. beam_types.
  split; [| split; [| split]].
  - cbn [obind]. unfold PyBeam.go_forward.
    cbn [Beam.l_gamma Beam.l_beta Beam.l_beta_is_pyfloat fin].
    rewrite py_sq_in_range by lra. cbn [obind].
    unfold Beam.py_pow_neg_half.
    rewrite (Reqb_true (1 - 1 ^ 2) 0) by ring. reflexivity.
  - rewrite py_inv_sq_underflow by (replace (0 ^ 2) with 0 by ring; lra).
    reflexivity.
  - rewrite py_inv_sq_underflow
      by (replace ((0 / m_proton) ^ 2) with 0 by (unfold Rdiv; ring); lra).
    reflexivity.
  - intros Hz. rewrite (Reqb_false z_over_A 0 Hz).
    rewrite py_inv_sq_underflow; [reflexivity |].
    replace ((0 * z_over_A * e_over_m_proton / clight) ^ 2) with 0
      by (unfold Rdiv; ring).
    lra.
Qed.

Lemma beam_converter_division_by_zero_witness :
  PyBeam.beam_converter "beta" 1 0 = Raise ZeroDivisionError /\
  PyBeam.beam_converter "gamma" 0 0 = Raise ZeroDivisionError /\
  PyBeam.beam_converter "p_over_A" 0 0 = Raise ZeroDivisionError /\
  PyBeam.beam_converter "Brho" 0 1 = Raise ZeroDivisionError.
Proof.
  destruct (beam_converter_division_by_zero 0) as (H1 & H2 & H3 & _).
  destruct (beam_converter_division_by_zero 1) as (_ & _ & _ & H4).
  repeat split; [exact H1 | exact H2 | exact H3 |].
  apply H4. lra.
Defined.

(** ** kickerLong and kickerTrans: all results, errors, repeated calls *)

Lemma kickerLong_fields Ez z f Pin_eff beta b z_borders eb Zc (h : heap) :
  shape0 (h Ez) = length f -> shape1 (h Ez) = length z -> z <> [] ->
  Kicker.single_beta beta = Return b ->
  Kicker.effective_borders z z_borders = Return eb ->
  exists r h',
    Kicker.kickerLong Ez z f Pin_eff beta z_borders Zc h = (Return r, h') /\
    h' Ez = gated z eb (h Ez) /\ (forall q, q <> Ez -> h' q = h q) /\
    Kicker.V0 r = map (cumtrapz_row z) (data (gated z eb (h Ez))) /\
    Kicker.V r =
      map (cumtrapz_row z)
          (Kicker.phase_weighted (Kicker.wavenumber f b) z
             (data (gated z eb (h Ez)))) /\
    Kicker.VK r = xRsqrt (fin (2 * Zc * Pin_eff)) /\
    Kicker.K r = Kicker.mmap (fun v => xCdiv v (xRtoC (Kicker.VK r)))
                   (Kicker.V r) /\
    Kicker.Rshunt r =
      Kicker.mmap (fun c => xRmul (fin Zc) (xRsq (xCabs c))) (Kicker.K r) /\
    Kicker.R_ r =
      Kicker.mmap (fun v => xRdiv (xRsq (xCabs v)) (fin (2 * Pin_eff)))
        (Kicker.V0 r) /\
    Kicker.T r = Kicker.mzip xCdiv (Kicker.V r) (Kicker.V0 r) /\
    Kicker.ZP r =
      Kicker.mmap (fun c => xCmul (xRtoC (fin (1 / 2 * Zc))) c) (Kicker.K r).
Proof.
  intros H0 H1 Hz Hb He. unfold Kicker.kickerLong.
  rewrite He, H0, H1, !Nat.eqb_refl. cbn [andb negb]. rewrite Hb.
  destruct (gate_returns Ez z eb h) as (h' & Hg & Hp & Hq);
    [symmetry; exact H1 |].
  rewrite Hg, Hp.
  rewrite !cumtrapz_returns by exact Hz. cbn [obind].
  eexists. exists h'. split; [reflexivity |].
  split; [exact Hp |]. split; [exact Hq |].
  cbn [Kicker.V0 Kicker.V Kicker.VK Kicker.K Kicker.Rshunt Kicker.R_
       Kicker.T Kicker.ZP].
  repeat split.
Qed.

Lemma kickerTrans_fields A z f Pin_eff beta b z_borders eb Zc (h : heap) :
  shape0 (h A) = length f -> shape1 (h A) = length z -> z <> [] ->
  Kicker.single_beta beta = Return b ->
  Kicker.effective_borders z z_borders = Return eb ->
  exists r h',
    Kicker.kickerTrans A z f Pin_eff beta z_borders Zc false h =
      (Return r, h') /\
    h' A = gated z eb (h A) /\ (forall q, q <> A -> h' q = h q) /\
    Kicker.dV_over_du r =
      map (cumtrapz_row z)
          (Kicker.phase_weighted (Kicker.wavenumber f b) z
             (data (gated z eb (h A)))) /\
    Kicker.VK_u r = xRsqrt (fin (2 * Zc * Pin_eff)) /\
    Kicker.Ku r =
      zipWith (fun o row => map (Kicker.Ku_entry b o (Kicker.VK_u r)) row)
        (map (fun fi => 2 * PI * fi) f) (Kicker.dV_over_du r) /\
    Kicker.Ru_shunt r =
      Kicker.mmap (fun c => xRmul (fin Zc) (xRsq (xCabs c))) (Kicker.Ku r) /\
    Kicker.ZPu_prime r =
      zipWith (fun o row => map (Kicker.ZPu_entry b o Zc) row)
        (map (fun fi => 2 * PI * fi) f) (Kicker.Ku r).
Proof.
  intros H0 H1 Hz Hb He. unfold Kicker.kickerTrans.
  rewrite He, H0, H1, !Nat.eqb_refl. cbn [andb negb]. rewrite Hb.
  destruct (gate_returns A z eb h) as (h' & Hg & Hp & Hq);
    [symmetry; exact H1 |].
  rewrite Hg, Hp.
  rewrite !cumtrapz_returns by exact Hz. cbn [obind].
  eexists. exists h'. split; [reflexivity |].
  split; [exact Hp |]. split; [exact Hq |].
  cbn [Kicker.dV_over_du Kicker.VK_u Kicker.Ku Kicker.Ru_shunt
       Kicker.ZPu_prime].
  repeat split.
Qed.







Lemma gated_row_idempotent (z : list R) (b : R * R) (row : list xC) :
  gated_row z b (gated_row z b row) = gated_row z b row.
Proof.
  unfold gated_row. revert row.
  induction z as [| zj z IH]; intros row; [reflexivity |].
  destruct row as [| e row]; [reflexivity |]. simpl. rewrite IH. f_equal.
  destruct (Rltb zj (fst b) || Rltb (snd b) zj); reflexivity.
Qed.

Lemma gated_idempotent (z : list R) (b : R * R) (a : ndarray) :
  gated z b (gated z b a) = gated z b a.
Proof.
  unfold gated. simpl. f_equal. rewrite map_map. apply map_ext.
  intros row. apply gated_row_idempotent.
Qed.



(** ** The cumulative trapezoid rule *)

Lemma C_eq (a b : C) : re a = re b -> im a = im b -> a = b.
Proof. destruct a, b. simpl. intros -> ->. reflexivity. Qed.

Lemma Ceqb_two : Ceqb (RtoC 2) C0 = false.
Proof. apply Ceqb_RtoC_nonzero. lra. Qed.

(** One trapezoid under an affine profile is exact. *)
Lemma trapezoid_affine (a b : C) (u v : R) :
  xCdiv (xCmul (xRtoC (fin (v - u)))
               (xCadd (cfin (affine_in_z a b v)) (cfin (affine_in_z a b u))))
        (cfin (RtoC 2)) =
  cfin (Csub (affine_integral a b v) (affine_integral a b u)).
Proof.
  unfold xCdiv, xCmul, xCadd, xRtoC, cfin, fin, lift1, lift2.
  rewrite Ceqb_two. f_equal.
  destruct a as [ar ai], b as [br bi].
  apply C_eq; unfold Cdiv, Cmul, Cadd, Csub, affine_in_z, affine_integral,
    RtoC, Cnorm2; simpl; field.
Qed.

Lemma cumsum_from_affine (a b : C) (z0 u : R) (l : list R) :
  cumsum_from
    (cfin (Csub (affine_integral a b u) (affine_integral a b z0)))
    (zipWith (fun d s => xCdiv (xCmul (xRtoC (fin d)) s) (cfin (RtoC 2)))
       (diff (u :: l))
       (pairsum (map (fun zj => cfin (affine_in_z a b zj)) (u :: l)))) =
  map (fun zj => cfin (Csub (affine_integral a b zj) (affine_integral a b z0)))
      l.
Proof.
  revert u. induction l as [| v l IH]; intros u; [reflexivity |].
  change (diff (u :: v :: l)) with ((v - u) :: diff (v :: l)).
  change (pairsum (map (fun zj => cfin (affine_in_z a b zj)) (u :: v :: l)))
    with (xCadd (cfin (affine_in_z a b v)) (cfin (affine_in_z a b u)) ::
          pairsum (map (fun zj => cfin (affine_in_z a b zj)) (v :: l))).
  cbn [zipWith cumsum_from]. rewrite trapezoid_affine.
  assert (Hs : xCadd
            (cfin (Csub (affine_integral a b u) (affine_integral a b z0)))
            (cfin (Csub (affine_integral a b v) (affine_integral a b u))) =
          cfin (Csub (affine_integral a b v) (affine_integral a b z0))).
  { unfold xCadd, cfin, lift2. f_equal.
    apply C_eq; unfold Cadd, Csub; simpl; ring. }
  rewrite Hs. cbn [map]. f_equal. apply IH.
Qed.

(** The cumulative trapezoid integral of an affine profile is the exact
    integral from the first sample. *)
Lemma cumtrapz_row_affine (a b : C) (z0 : R) (l : list R) :
  cumtrapz_row (z0 :: l)
    (map (fun zj => cfin (affine_in_z a b zj)) (z0 :: l)) =
  map (fun zj => cfin (Csub (affine_integral a b zj) (affine_integral a b z0)))
      (z0 :: l).
Proof.
  unfold cumtrapz_row. cbn [map]. f_equal.
  - unfold cfin. f_equal. apply C_eq; unfold Csub, C0; simpl; ring.
  - destruct l as [| v l]; [reflexivity |].
    change (diff (z0 :: v :: l)) with ((v - z0) :: diff (v :: l)).
    change (pairsum (cfin (affine_in_z a b z0) ::
                     map (fun zj => cfin (affine_in_z a b zj)) (v :: l)))
      with (xCadd (cfin (affine_in_z a b v)) (cfin (affine_in_z a b z0)) ::
            pairsum (map (fun zj => cfin (affine_in_z a b zj)) (v :: l))).
    cbn [zipWith cumsum]. rewrite trapezoid_affine.
    cbn [map]. f_equal. apply cumsum_from_affine.
Qed.

(** X11. Where a row of [Ez] is affine in [z], [a*z + b], and no sample is
    gated out, the zero-velocity voltage [V0] of that row is the exact
    integral from the first sample: the trapezoid rule makes no error on
    it. *)
Theorem kickerLong_V0_exact_on_affine
    (Ez : ref) (z f : list R) (Pin_eff : R) (beta : Kicker.beta_arg) (b0 : R)
    (z_borders eb : R * R) (Zc : R) (h : heap) (i : nat) (a b : C) :
  wf_array (h Ez) ->
  shape0 (h Ez) = length f -> shape1 (h Ez) = length z -> z <> [] ->
  Kicker.single_beta beta = Return b0 ->
  Kicker.effective_borders z z_borders = Return eb ->
  Forall (fun zj => fst eb <= zj <= snd eb) z ->
  nth_error (data (h Ez)) i =
    Some (map (fun zj => cfin (affine_in_z a b zj)) z) ->
  exists r h' z0,
    Kicker.kickerLong Ez z f Pin_eff beta z_borders Zc h = (Return r, h') /\
    nth_error z 0 = Some z0 /\
    nth_error (Kicker.V0 r) i =
      Some (map (fun zj => cfin (Csub (affine_integral a b zj)
                                      (affine_integral a b z0))) z).
Proof.
  intros Hwf H0 H1 Hz Hb He Hin Hrow.
  destruct z as [| z0 l]; [contradiction |].
  destruct (kickerLong_fields Ez (z0 :: l) f Pin_eff beta b0 z_borders eb Zc h
              H0 H1 Hz Hb He) as (r & h' & E & _ & _ & HV0 & _).
  exists r, h', z0. split; [exact E |]. split; [reflexivity |].
  rewrite HV0, (gated_inside _ _ _ Hwf H1 Hin).
  rewrite nth_error_map, Hrow. cbn [option_map]. f_equal.
  apply cumtrapz_row_affine.
Qed.

Lemma demo_default_borders :
  Kicker.effective_borders demo_lines (0, 0) = Return (0, 2).
Proof.
  rewrite effective_borders_small by (simpl; lra). reflexivity.
Qed.

Lemma demo_lines_inside :
  Forall (fun zj => fst (0, 2) <= zj <= snd (0, 2)) demo_lines.
Proof. unfold demo_lines. repeat constructor; simpl; lra. Qed.

Lemma kickerLong_V0_exact_on_affine_witness :
  exists r h' z0,
    Kicker.kickerLong 0%nat demo_lines [1] 1 (Kicker.BetaFloat (1 / 2)) (0, 0)
      50 demo_affine_heap = (Return r, h') /\
    nth_error demo_lines 0 = Some z0 /\
    nth_error (Kicker.V0 r) 0 =
      Some (map (fun zj =>
                   cfin (Csub (affine_integral (mkC 2 0) (mkC 1 1) zj)
                              (affine_integral (mkC 2 0) (mkC 1 1) z0)))
                demo_lines).
Proof.
  apply (kickerLong_V0_exact_on_affine 0%nat demo_lines [1] 1
           (Kicker.BetaFloat (1 / 2)) (1 / 2) (0, 0) (0, 2) 50
           demo_affine_heap 0%nat (mkC 2 0) (mkC 1 1)).
  - split; [reflexivity | repeat constructor].
  - reflexivity.
  - reflexivity.
  - exact demo_lines_nonempty.
  - reflexivity.
  - exact demo_default_borders.
  - exact demo_lines_inside.
  - reflexivity.
Defined.

(** ** Zero frequency *)

Lemma zipWith_keeps_row {A} (g : A -> xC -> xC) (l : list A) (row : list xC) :
  (forall a e, g a e = e) -> (length row <= length l)%nat ->
  zipWith g l row = row.
Proof.
  intros Hg. revert row. induction l as [| a l IH]; intros row Hlen.
  - destruct row; [reflexivity | simpl in Hlen; lia].
  - destruct row as [| e row]; [reflexivity |].
    simpl. rewrite Hg, IH by (simpl in Hlen; lia). reflexivity.
Qed.

(** At wavenumber zero the phase weight is one. *)
Lemma phase_weight_zero (beta zj : R) (e : xC) :
  beta <> 0 ->
  xCmul (xCexp (xCmul (xCmul (cfin Ci)
                         (xRtoC (xRdiv (fin (2 * PI * 0))
                                       (fin (beta * clight)))))
                      (xRtoC (fin zj)))) e = e.
Proof.
  intros Hb.
  assert (Hc : beta * clight <> 0).
  { unfold clight. intros H. apply Rmult_integral in H. destruct H; lra. }
  unfold xRdiv, fin. rewrite (Reqb_false _ 0 Hc).
  destruct e as [c |]; [| reflexivity].
  unfold xCmul, xCexp, xRtoC, cfin, lift1, lift2. f_equal.
  replace (2 * PI * 0 / (beta * clight)) with 0 by (unfold Rdiv; ring).
  unfold Cexp, Cmul, Ci, RtoC. simpl.
  replace ((0 * 0 - 1 * 0) * zj - (0 * 0 + 1 * 0) * 0) with 0 by ring.
  replace ((0 * 0 - 1 * 0) * 0 + (0 * 0 + 1 * 0) * zj) with 0 by ring.
  rewrite exp_0, cos_0, sin_0. destruct c as [x y]. simpl.
  apply C_eq; simpl; ring.
Qed.

Lemma length_gated_row (z : list R) (b : R * R) (row : list xC) :
  length (gated_row z b row) = Nat.min (length z) (length row).
Proof. unfold gated_row. apply length_zipWith. Qed.



(** ** Identities between the results *)

Lemma entry_mmap {A B} (g : A -> B) (m : matrix A) (i j : nat) :
  entry (Kicker.mmap g m) i j = option_map g (entry m i j).
Proof.
  unfold entry, Kicker.mmap. rewrite nth_error_map.
  destruct (nth_error m i) as [row |]; [| reflexivity].
  simpl. apply nth_error_map.
Qed.

Lemma entry_mzip {A B D} (g : A -> B -> D) (m : matrix A) (n : matrix B)
    (i j : nat) (a : A) (b : B) :
  entry m i j = Some a -> entry n i j = Some b ->
  entry (Kicker.mzip g m n) i j = Some (g a b).
Proof.
  unfold entry, Kicker.mzip. intros Ha Hb.
  destruct (nth_error m i) as [rm |] eqn:Em; [| discriminate].
  destruct (nth_error n i) as [rn |] eqn:En; [| discriminate].
  rewrite (nth_error_zipWith (zipWith g) m n i rm rn Em En).
  apply nth_error_zipWith; assumption.
Qed.

Lemma entry_zipWith_rows {A B D} (g : A -> B -> D) (os : list A)
    (m : matrix B) (i j : nat) (o : A) (b : B) :
  nth_error os i = Some o -> entry m i j = Some b ->
  entry (zipWith (fun o row => map (g o) row) os m) i j = Some (g o b).
Proof.
  unfold entry. intros Ho Hb.
  destruct (nth_error m i) as [row |] eqn:Em; [| discriminate].
  rewrite (nth_error_zipWith (fun o row => map (g o) row) os m i o row Ho Em).
  rewrite nth_error_map, Hb. reflexivity.
Qed.

Lemma Cabs_sq (c : C) : Cabs c ^ 2 = Cnorm2 c.
Proof.
  unfold Cabs. apply pow2_sqrt. unfold Cnorm2.
  pose proof (Rle_0_sqr (re c)). pose proof (Rle_0_sqr (im c)).
  unfold Rsqr in *. lra.
Qed.

Lemma Cnorm2_nonzero (c : C) : c <> C0 -> Cnorm2 c <> 0.
Proof. intros H. pose proof (Cnorm2_pos c H). lra. Qed.

Lemma Cnorm2_div (a b : C) :
  b <> C0 -> Cnorm2 (Cdiv a b) = Cnorm2 a / Cnorm2 b.
Proof.
  intros Hb. pose proof (Cnorm2_nonzero b Hb) as Hn.
  destruct a as [ar ai], b as [br bi]. unfold Cdiv, Cnorm2 in *. simpl in *.
  field. exact Hn.
Qed.

Lemma Ceqb_nonzero (c : C) : c <> C0 -> Ceqb c C0 = false.
Proof.
  intros H. unfold Ceqb. destruct c as [x y]. simpl.
  destruct (Req_dec x 0) as [Hx | Hx].
  - destruct (Req_dec y 0) as [Hy | Hy].
    + subst. contradiction H. reflexivity.
    + rewrite (Reqb_false y 0 Hy). apply andb_false_r.
  - rewrite (Reqb_false x 0 Hx). reflexivity.
Qed.



(** The transverse kicker constant and pickup impedance of one entry. *)
Lemma Ku_ZPu_entry (beta omg Zc vk : R) (dv : C) :
  beta <> 0 -> omg <> 0 -> vk <> 0 ->
  Kicker.Ku_entry beta omg (Some vk) (Some dv) =
    Some (Cmul (mkC 0 (beta * clight / (omg * vk))) dv) /\
  Kicker.ZPu_entry beta omg Zc
    (Some (Cmul (mkC 0 (beta * clight / (omg * vk))) dv)) =
    Some (Cmul (RtoC (Zc / (2 * vk))) dv).
Proof.
  intros Hb Ho Hv.
  assert (Hc : beta * clight <> 0).
  { unfold clight. intros H. apply Rmult_integral in H. destruct H; lra. }
  unfold Kicker.Ku_entry, Kicker.ZPu_entry, xCdiv, xCmul, xRtoC, cfin, fin,
    lift1, lift2.
  rewrite (Ceqb_RtoC_nonzero omg Ho), (Ceqb_RtoC_nonzero vk Hv), Ceqb_two,
    (Ceqb_RtoC_nonzero _ Hc).
  destruct dv as [x y]. split; f_equal;
    apply C_eq; unfold Cdiv, Cmul, Cneg, Ci, RtoC, Cnorm2; simpl; field;
    repeat split; try assumption; unfold clight in *; lra.
Qed.



(** ** Shapes of the results *)

Lemma length_pairsum (y : list xC) : length (pairsum y) = pred (length y).
Proof.
  induction y as [| a [| b y] IH]; try reflexivity.
  change (length (pairsum (a :: b :: y)))
    with (S (length (pairsum (b :: y)))).
  rewrite IH. reflexivity.
Qed.

Lemma length_cumsum_from (acc : xC) (l : list xC) :
  length (cumsum_from acc l) = length l.
Proof. revert acc. induction l as [| a l IH]; intros acc; simpl; auto. Qed.

Lemma length_cumsum (l : list xC) : length (cumsum l) = length l.
Proof.
  destruct l as [| a l]; simpl; [| rewrite length_cumsum_from]; reflexivity.
Qed.

Lemma length_cumtrapz_row (x : list R) (y : list xC) :
  x <> [] -> length y = length x -> length (cumtrapz_row x y) = length x.
Proof.
  intros Hx Hy. unfold cumtrapz_row. simpl length.
  rewrite length_cumsum, length_zipWith, length_diff, length_pairsum, Hy.
  destruct x; [contradiction | simpl; lia].
Qed.

Lemma has_shape_map {A B} (g : list A -> list B) (n0 n1 n1' : nat)
    (m : matrix A) :
  (forall row, length row = n1 -> length (g row) = n1') ->
  has_shape n0 n1 m -> has_shape n0 n1' (map g m).
Proof.
  intros Hg [Hl Hr]. split; [rewrite length_map; exact Hl |].
  apply Forall_map. eapply Forall_impl; [| exact Hr]. exact Hg.
Qed.

Lemma has_shape_mmap {A B} (g : A -> B) (n0 n1 : nat) (m : matrix A) :
  has_shape n0 n1 m -> has_shape n0 n1 (Kicker.mmap g m).
Proof.
  apply has_shape_map. intros row Hrow. rewrite length_map. exact Hrow.
Qed.

Lemma has_shape_zipWith {A B D} (g : A -> list B -> list D) (n0 n1 n1' : nat)
    (l : list A) (m : matrix B) :
  (forall a row, length row = n1 -> length (g a row) = n1') ->
  length l = n0 -> has_shape n0 n1 m -> has_shape n0 n1' (zipWith g l m).
Proof.
  intros Hg Hl [Hm Hr]. split.
  - rewrite length_zipWith. lia.
  - clear Hl Hm. revert l. induction Hr as [| row m Hrow _ IH]; intros l.
    + destruct l; constructor.
    + destruct l as [| a l]; [constructor |]. simpl.
      constructor; [apply Hg; exact Hrow | apply IH].
Qed.

Lemma has_shape_mzip {A B D} (g : A -> B -> D) (n0 n1 : nat)
    (m : matrix A) (n : matrix B) :
  has_shape n0 n1 m -> has_shape n0 n1 n ->
  has_shape n0 n1 (Kicker.mzip g m n).
Proof.
  intros [Hm Hrm] Hn. unfold Kicker.mzip.
  revert n0 n Hm Hn. induction Hrm as [| row m Hrow _ IH]; intros n0 n Hm Hn.
  - destruct Hn as [Hn _]. simpl in *. subst n0.
    destruct n; [split; [reflexivity | constructor] | discriminate].
  - destruct Hn as [Hn Hrn]. destruct n as [| rn n]; simpl in *; [lia |].
    pose proof (Forall_inv Hrn) as Hrn1.
    pose proof (Forall_inv_tail Hrn) as Hrn2.
    destruct (IH (length m) n eq_refl) as [IH1 IH2];
      [split; [lia | exact Hrn2] |].
    simpl in Hrn1.
    split; [simpl; rewrite IH1; exact Hm |].
    constructor; [rewrite length_zipWith, Hrow, Hrn1; apply Nat.min_id
                 | exact IH2].
Qed.

Lemma has_shape_gated (z : list R) (b : R * R) (a : ndarray) :
  wf_array a -> shape1 a = length z ->
  has_shape (shape0 a) (length z) (data (gated z b a)).
Proof.
  intros [Hl Hr] Hs. unfold gated. simpl.
  apply (has_shape_map _ _ (shape1 a)).
  - intros row Hrow. rewrite length_gated_row, Hrow, Hs. apply Nat.min_id.
  - split; assumption.
Qed.



(** ** rotate_phase: errors, moduli, the second reference *)

(** X16. Without frequencies the phase normaliser fails with a ValueError
    (argmin of an empty sequence), and on an array without columns with an
    IndexError. *)
Theorem rotate_phase_empty_input (A : ndarray) (f : list R) (f1 f2 : R) :
  (exists msg, Phase.rotate_phase A [] f1 f2 = Raise (ValueError msg)) /\
  (f <> [] -> shape1 A = 0%nat ->
   Phase.rotate_phase A f f1 f2 = Raise IndexError).
Proof.
  split; [eexists; reflexivity |].
  intros Hf Hs. unfold Phase.rotate_phase.
  destruct f as [| x f]; [contradiction |].
  cbn [map argmin obind]. unfold Phase.last_column. rewrite Hs. reflexivity.
Qed.

Lemma rotate_phase_empty_input_witness :
  (exists msg, Phase.rotate_phase (mkArr 1 0 [[]]) [] 1 2 =
               Raise (ValueError msg)) /\
  Phase.rotate_phase (mkArr 1 0 [[]]) [1] 1 2 = Raise IndexError.
Proof.
  destruct (rotate_phase_empty_input (mkArr 1 0 [[]]) [1] 1 2) as [H1 H2].
  split; [exact H1 |]. apply H2; [discriminate | reflexivity].
Defined.

(** The ramp, with its angle. *)
Lemma ramp_angle (f1 f2 p1 p2 fk : R) :
  f1 <> f2 ->
  Phase.ramp f1 f2 (Some p1) (Some p2) fk =
  Some (Cunit (- fk / (f2 - f1) * (p2 - p1))).
Proof.
  intros Hf. assert (Hd : f2 - f1 <> 0) by lra.
  unfold Phase.ramp, xCdiv, xCmul, xRsub, xRtoC, xCexp, cfin, fin, lift1, lift2.
  rewrite (Ceqb_RtoC_nonzero _ Hd). f_equal.
  unfold Cexp, Cunit, Cmul, Cdiv, Cneg, Ci, RtoC, Cnorm2. simpl.
  replace (((- 0 * fk - - (1) * 0) * (f2 - f1) + (- 0 * 0 + - (1) * fk) * 0) /
           ((f2 - f1) * (f2 - f1) + 0 * 0) * (p2 - p1) -
           ((- 0 * 0 + - (1) * fk) * (f2 - f1) - (- 0 * fk - - (1) * 0) * 0) /
           ((f2 - f1) * (f2 - f1) + 0 * 0) * 0) with 0 by (field; exact Hd).
  replace (((- 0 * fk - - (1) * 0) * (f2 - f1) + (- 0 * 0 + - (1) * fk) * 0) /
           ((f2 - f1) * (f2 - f1) + 0 * 0) * 0 +
           ((- 0 * 0 + - (1) * fk) * (f2 - f1) - (- 0 * fk - - (1) * 0) * 0) /
           ((f2 - f1) * (f2 - f1) + 0 * 0) * (p2 - p1))
    with (- fk / (f2 - f1) * (p2 - p1)) by (field; exact Hd).
  rewrite exp_0. f_equal; ring.
Qed.

(** The final rotation, with its angle. *)
Lemma final_rotation (phi0 : R) :
  xCexp (xCmul (cfin (Cneg Ci)) (xRtoC (Some phi0))) = Some (Cunit (- phi0)).
Proof.
  unfold xCexp, xCmul, xRtoC, cfin, lift1, lift2. f_equal.
  unfold Cexp, Cunit, Cmul, Cneg, Ci, RtoC. simpl.
  replace (- 0 * phi0 - - (1) * 0) with 0 by ring.
  replace (- 0 * 0 + - (1) * phi0) with (- phi0) by ring.
  rewrite exp_0. f_equal; ring.
Qed.

Lemma Cnorm2_mul (a b : C) : Cnorm2 (Cmul a b) = Cnorm2 a * Cnorm2 b.
Proof. destruct a, b. unfold Cnorm2, Cmul. simpl. ring. Qed.

Lemma Cnorm2_unit (theta : R) : Cnorm2 (Cunit theta) = 1.
Proof.
  unfold Cnorm2, Cunit. simpl. pose proof (sin2_cos2 theta) as H.
  unfold Rsqr in H. lra.
Qed.

Lemma Cabs_mul_unit (a : C) (theta : R) : Cabs (Cmul a (Cunit theta)) = Cabs a.
Proof.
  unfold Cabs. rewrite Cnorm2_mul, Cnorm2_unit, Rmult_1_r. reflexivity.
Qed.

(** Every row of what [rotate_phase] returns: the row of [A] times the
    ramp of its frequency, times the final rotation. *)
Lemma rotate_phase_rows (A : ndarray) (f : list R) (f1 f2 : R) (i1 i2 : nat) :
  wf_array A -> shape1 A <> 0%nat -> length f = shape0 A ->
  argmin (dists f f1) = Return i1 -> argmin (dists f f2) = Return i2 ->
  exists phi1 phi2 row1 fk1 out,
    let phi := Phase.unwrap
                 (map xCangle (map (fun row => last row None) (data A))) in
    nth_error phi i1 = Some phi1 /\ nth_error phi i2 = Some phi2 /\
    nth_error (data A) i1 = Some row1 /\ nth_error f i1 = Some fk1 /\
    let w := xCmul (last row1 None) (Phase.ramp f1 f2 phi1 phi2 fk1) in
    let r := xCexp (xCmul (cfin (Cneg Ci)) (xRtoC (xCangle w))) in
    Phase.rotate_phase A f f1 f2 = Return out /\
    length out = shape0 A /\
    forall i row fi,
      nth_error (data A) i = Some row -> nth_error f i = Some fi ->
      nth_error out i =
      Some (map (fun a => xCmul (xCmul a (Phase.ramp f1 f2 phi1 phi2 fi)) r)
                row).
Proof.
  intros Hwf Hn1 Hlen H1 H2.
  destruct (rotate_phase_returns A f f1 f2 i1 i2 Hwf Hn1 Hlen H1 H2)
    as (phi1 & phi2 & row1 & fk1 & Hp1 & Hp2 & Hrow1 & Hfk1 & Hr & _).
  cbv zeta in Hp1, Hp2, Hr.
  eexists phi1, phi2, row1, fk1, _. cbv zeta.
  do 4 (split; [assumption |]). split; [exact Hr |]. split.
  - rewrite length_map, length_zipWith, length_map, Hlen.
    destruct Hwf as [Hrows _]. rewrite Hrows. apply Nat.min_id.
  - intros i row fi Hrow Hfi.
    rewrite nth_error_map.
    rewrite (nth_error_zipWith
               (fun row bk => map (fun a => xCmul a bk) row) (data A)
               (map (Phase.ramp f1 f2 phi1 phi2) f) i row
               (Phase.ramp f1 f2 phi1 phi2 fi) Hrow)
      by (rewrite nth_error_map, Hfi; reflexivity).
    cbn [option_map]. rewrite map_map. reflexivity.
Qed.

(** The phases the ramp is fitted through are finite when the last column
    is. *)
Lemma unwrapped_phases_finite (A : ndarray) (i : nat) (phi : xR) :
  last_column_finite A ->
  nth_error (Phase.unwrap
               (map xCangle (map (fun row => last row None) (data A)))) i =
    Some phi ->
  is_fin phi.
Proof.
  intros Hcol Hphi.
  assert (H : Forall is_fin
            (Phase.unwrap
               (map xCangle (map (fun row => last row None) (data A))))).
  { apply unwrap_finite. rewrite map_map. apply Forall_map.
    eapply Forall_impl; [| exact Hcol].
    intros r (c & ->). eexists. reflexivity. }
  rewrite Forall_forall in H. apply H. eapply nth_error_In. exact Hphi.
Qed.

(** X17. For distinct reference frequencies and a finite last column the
    phase normaliser returns an array of the shape of [A] in which every
    finite entry has the modulus it had in [A], and every nan is still a
    nan: only phases are changed. *)
Theorem rotate_phase_keeps_moduli
    (A : ndarray) (f : list R) (f1 f2 : R) :
  wf_array A -> shape0 A <> 0%nat -> shape1 A <> 0%nat ->
  length f = shape0 A -> last_column_finite A -> f1 <> f2 ->
  exists out,
    Phase.rotate_phase A f f1 f2 = Return out /\
    length out = shape0 A /\
    (forall i j a, entry (data A) i j = Some (Some a) ->
       exists o, entry out i j = Some (Some o) /\ Cabs o = Cabs a) /\
    (forall i j, entry (data A) i j = Some None -> entry out i j = Some None).
Proof.
  intros Hwf Hn0 Hn1 Hlen Hcol Hf.
  assert (Hne : forall x0, dists f x0 <> []).
  { intros x0. unfold dists. destruct f; [simpl in Hlen; congruence |].
    discriminate. }
  destruct (argmin_returns _ (Hne f1)) as (i1 & Hi1 & _).
  destruct (argmin_returns _ (Hne f2)) as (i2 & Hi2 & _).
  destruct (rotate_phase_rows A f f1 f2 i1 i2 Hwf Hn1 Hlen Hi1 Hi2)
    as (phi1 & phi2 & row1 & fk1 & out & Hp1 & Hp2 & Hrow1 & Hfk1 & Hr
        & Hlo & Hrows).
  cbv zeta in Hp1, Hp2, Hr, Hrows.
  destruct (unwrapped_phases_finite A i1 phi1 Hcol Hp1) as (p1 & ->).
  destruct (unwrapped_phases_finite A i2 phi2 Hcol Hp2) as (p2 & ->).
  unfold last_column_finite in Hcol. rewrite Forall_forall in Hcol.
  destruct (Hcol _ (nth_error_In _ _ Hrow1)) as (a1 & Ha1).
  set (R := xCexp _) in Hrows.
  assert (HR : exists t, R = Some (Cunit t)).
  { unfold R, xC in *. rewrite Ha1, (ramp_angle f1 f2 p1 p2 fk1 Hf).
    cbn [xCmul lift2 xCangle lift1]. rewrite final_rotation. eauto. }
  destruct HR as (t & HR). rewrite HR in Hrows. clear R HR.
  exists out. split; [exact Hr |]. split; [exact Hlo |].
  assert (Hfi : forall i row, nth_error (data A) i = Some row ->
                  exists fi, nth_error f i = Some fi).
  { intros i row Hrow.
    assert (i < length f)%nat.
    { rewrite Hlen. destruct Hwf as [Hl _]. rewrite <- Hl.
      apply nth_error_Some. rewrite Hrow. discriminate. }
    destruct (FieldsFacts.getitem_lt f i) as (fi & Hfi & _); eauto. }
  split.
  - intros i j a Ha. unfold entry in *.
    destruct (nth_error (data A) i) as [row |] eqn:Hrow; [| discriminate].
    destruct (Hfi i row Hrow) as (fi & Hfi').
    rewrite (Hrows i row fi Hrow Hfi'), nth_error_map, Ha.
    rewrite (ramp_angle f1 f2 p1 p2 fi Hf). cbn [option_map xCmul lift2].
    eexists. split; [reflexivity |].
    rewrite !Cabs_mul_unit. reflexivity.
  - intros i j Ha. unfold entry in *.
    destruct (nth_error (data A) i) as [row |] eqn:Hrow; [| discriminate].
    destruct (Hfi i row Hrow) as (fi & Hfi').
    rewrite (Hrows i row fi Hrow Hfi'), nth_error_map, Ha. reflexivity.
Qed.

Lemma demo_array_last_column_finite : last_column_finite demo_array.
Proof.
  unfold last_column_finite, demo_array. simpl.
  repeat constructor; eexists; reflexivity.
Qed.

Lemma rotate_phase_keeps_moduli_witness :
  exists out,
    Phase.rotate_phase demo_array demo_freqs 1 2 = Return out /\
    length out = 2%nat /\
    (forall i j a, entry (data demo_array) i j = Some (Some a) ->
       exists o, entry out i j = Some (Some o) /\ Cabs o = Cabs a) /\
    (forall i j, entry (data demo_array) i j = Some None ->
       entry out i j = Some None).
Proof.
  apply (rotate_phase_keeps_moduli demo_array demo_freqs 1 2).
  - exact demo_array_wf.
  - discriminate.
  - discriminate.
  - reflexivity.
  - exact demo_array_last_column_finite.
  - lra.
Defined.

(** ** np.unwrap adds whole turns *)

Lemma Reqb_eq (a b : R) : Reqb a b = true -> a = b.
Proof. unfold Reqb. destruct (Req_dec_T a b); [auto | discriminate]. Qed.

Lemma is_turn_0 : is_turn 0.
Proof. exists 0%Z. simpl. ring. Qed.

Lemma is_turn_plus (s t : R) : is_turn s -> is_turn t -> is_turn (s + t).
Proof.
  intros (k & ->) (l & ->). exists (k + l)%Z. rewrite plus_IZR. ring.
Qed.

Lemma is_turn_opp (t : R) : is_turn t -> is_turn (- t).
Proof. intros (k & ->). exists (- k)%Z. rewrite opp_IZR. ring. Qed.

Lemma ph_correct_turn (d : R) :
  exists c, Phase.ph_correct (Some d) = Some c /\ is_turn c.
Proof.
  unfold Phase.ph_correct.
  destruct (Rltb (Rabs d) PI); [exists 0; split; [reflexivity | apply is_turn_0] |].
  set (n := Zfloor ((d + PI) / (2 * PI))).
  assert (Hm : Phase.Rmod (d + PI) (2 * PI) - PI = d - 2 * PI * IZR n).
  { unfold Phase.Rmod. fold n. ring. }
  destruct (Reqb (Phase.Rmod (d + PI) (2 * PI) - PI) (- PI) && Rltb 0 d)
    eqn:E.
  - eexists. split; [reflexivity |].
    apply andb_true_iff in E. destruct E as [E _]. apply Reqb_eq in E.
    exists (1 - n)%Z. rewrite minus_IZR. rewrite Hm in E. simpl. lra.
  - eexists. split; [reflexivity |].
    exists (- n)%Z. rewrite opp_IZR, Hm. ring.
Qed.

(** A finite value that is a whole number of turns. *)
Lemma turns_xdiff (p : list xR) :
  Forall is_fin p ->
  Forall (fun e => exists c, e = Some c /\ is_turn c)
         (map Phase.ph_correct (Phase.xdiff p)).
Proof.
  intros H. pose proof (xdiff_finite p H) as Hd.
  induction Hd as [| e l (d & ->) _ IH]; simpl; constructor; [| exact IH].
  apply ph_correct_turn.
Qed.

Lemma turns_xcumsum_from (acc : R) (l : list xR) :
  is_turn acc ->
  Forall (fun e => exists c, e = Some c /\ is_turn c) l ->
  Forall (fun e => exists c, e = Some c /\ is_turn c)
         (Phase.xcumsum_from (Some acc) l).
Proof.
  intros Ha Hl. revert acc Ha.
  induction Hl as [| e l (c & -> & Hc) _ IH]; intros acc Ha; simpl;
    constructor.
  - eexists. split; [reflexivity |]. apply is_turn_plus; assumption.
  - apply IH. apply is_turn_plus; assumption.
Qed.

Lemma turns_xcumsum (l : list xR) :
  Forall (fun e => exists c, e = Some c /\ is_turn c) l ->
  Forall (fun e => exists c, e = Some c /\ is_turn c) (Phase.xcumsum l).
Proof.
  intros H. destruct H as [| e l (c & -> & Hc) Hl]; simpl; constructor.
  - eexists. split; [reflexivity | exact Hc].
  - apply turns_xcumsum_from; assumption.
Qed.

(** [np.unwrap] changes a finite phase by a whole number of turns. *)
Lemma unwrap_adds_turns (p : list xR) (i : nat) (x : R) :
  Forall is_fin p -> nth_error p i = Some (Some x) ->
  exists t, nth_error (Phase.unwrap p) i = Some (Some (x + t)) /\ is_turn t.
Proof.
  intros Hp Hx. destruct p as [| p0 ps]; [destruct i; discriminate |].
  destruct i as [| i].
  - simpl in Hx. inversion Hx; subst. exists 0.
    split; [| apply is_turn_0].
    unfold Phase.unwrap. simpl. rewrite Rplus_0_r. reflexivity.
  - simpl in Hx.
    set (cs := Phase.xcumsum (map Phase.ph_correct (Phase.xdiff (p0 :: ps)))).
    assert (Hcs : Forall (fun e => exists c, e = Some c /\ is_turn c) cs)
      by (apply turns_xcumsum, turns_xdiff; exact Hp).
    assert (Hlen : length cs = length ps).
    { unfold cs. rewrite length_xcumsum, length_map, length_xdiff.
      reflexivity. }
    assert (Hi : (i < length cs)%nat).
    { rewrite Hlen. apply nth_error_Some. rewrite Hx. discriminate. }
    destruct (FieldsFacts.getitem_lt cs i Hi) as (e & He & _).
    rewrite Forall_forall in Hcs.
    destruct (Hcs e (nth_error_In _ _ He)) as (c & -> & Hc).
    exists c. split; [| exact Hc].
    change (nth_error (Phase.unwrap (p0 :: ps)) (S i))
      with (nth_error (zipWith xRadd ps cs) i).
    rewrite (nth_error_zipWith xRadd ps cs i (Some x) (Some c) Hx He).
    reflexivity.
Qed.

(** ** Unit complex numbers *)

Lemma Cunit_mul (s t : R) : Cmul (Cunit s) (Cunit t) = Cunit (s + t).
Proof.
  unfold Cunit, Cmul. simpl. rewrite cos_plus, sin_plus.
  apply C_eq; simpl; ring.
Qed.

Lemma cos_sin_turn (x t : R) :
  is_turn t -> cos (x + t) = cos x /\ sin (x + t) = sin x.
Proof.
  intros (k & ->).
  destruct (Z_le_gt_dec 0 k) as [Hk | Hk].
  - rewrite <- (Z2Nat.id k Hk), <- INR_IZR_INZ.
    replace (x + 2 * PI * INR (Z.to_nat k))
      with (x + 2 * INR (Z.to_nat k) * PI) by ring.
    split; [apply cos_period | apply sin_period].
  - assert (Hk' : (0 <= - k)%Z) by lia.
    set (y := x + 2 * PI * IZR k).
    assert (Hx : x = y + 2 * INR (Z.to_nat (- k)) * PI).
    { unfold y. rewrite INR_IZR_INZ, (Z2Nat.id _ Hk'), opp_IZR. ring. }
    clearbody y. split; symmetry; rewrite Hx;
      [apply cos_period | apply sin_period].
Qed.

Lemma Cunit_turn (x t : R) : is_turn t -> Cunit (x + t) = Cunit x.
Proof.
  intros Ht. destruct (cos_sin_turn x t Ht) as [Hc Hs].
  unfold Cunit. rewrite Hc, Hs. reflexivity.
Qed.

(** A non-zero complex number in polar form. *)
Lemma polar_form (a : C) :
  a <> C0 -> a = Cmul (RtoC (Cabs a)) (Cunit (Cangle a)).
Proof.
  intros Ha. destruct (Cangle_cos_sin a Ha) as [Hc Hs].
  pose proof (Cnorm2_pos a Ha) as Hn.
  assert (Hq : 0 < Cabs a) by (apply sqrt_lt_R0; exact Hn).
  unfold Cunit. rewrite Hc, Hs. destruct a as [x y].
  apply C_eq; unfold Cmul, RtoC; simpl; field; lra.
Qed.

Lemma Cmul_assoc (a b c : C) : Cmul (Cmul a b) c = Cmul a (Cmul b c).
Proof. destruct a, b, c. apply C_eq; unfold Cmul; simpl; ring. Qed.

Lemma Cmul_RtoC_unit_0 (r : R) : Cmul (RtoC r) (Cunit 0) = RtoC r.
Proof.
  unfold Cunit. rewrite cos_0, sin_0. apply C_eq; unfold Cmul, RtoC; simpl; ring.
Qed.

(** The argument of [a * e^(j*theta)] is that of [a] plus [theta], up to
    whole turns. *)
Lemma Cunit_angle_mul (a : C) (theta : R) :
  a <> C0 ->
  Cunit (Cangle (Cmul a (Cunit theta))) = Cunit (Cangle a + theta).
Proof.
  intros Ha.
  assert (Hw : Cmul a (Cunit theta) <> C0) by (apply Cmul_unit_nonzero; exact Ha).
  destruct (Cangle_cos_sin _ Hw) as [Hc Hs].
  pose proof (Cnorm2_pos a Ha) as Hn.
  assert (Hq : 0 < Cabs a) by (apply sqrt_lt_R0; exact Hn).
  rewrite Cabs_mul_unit in Hc, Hs.
  assert (Ew : Cmul a (Cunit theta) =
               Cmul (RtoC (Cabs a)) (Cunit (Cangle a + theta))).
  { rewrite <- Cunit_mul, <- Cmul_assoc, <- polar_form by exact Ha.
    reflexivity. }
  set (w := Cmul a (Cunit theta)) in *. clearbody w. subst w.
  unfold Cunit at 1. rewrite Hc, Hs.
  unfold Cunit, Cmul, RtoC. simpl. apply C_eq; simpl; field; lra.
Qed.

Lemma Cunit_neg_congr (s t : R) : Cunit s = Cunit t -> Cunit (- s) = Cunit (- t).
Proof.
  unfold Cunit. intros H. injection H as Hc Hs.
  rewrite !cos_neg, !sin_neg, Hc, Hs. reflexivity.
Qed.

(** The last entry of a row of [A] and its phase before unwrapping. *)
Lemma last_column_phase (A : ndarray) (i : nat) (row : list xC) :
  last_column_nonzero A -> nth_error (data A) i = Some row ->
  exists a, last row None = Some a /\ a <> C0 /\
    nth_error (map xCangle (map (fun row => last row None) (data A))) i =
    Some (Some (Cangle a)).
Proof.
  intros Hcol Hrow. unfold last_column_nonzero in Hcol.
  rewrite Forall_forall in Hcol.
  destruct (Hcol _ (nth_error_In _ _ Hrow)) as (a & Ha & Ha0).
  exists a. split; [exact Ha |]. split; [exact Ha0 |].
  rewrite map_map, nth_error_map. unfold xC in *. rewrite Hrow.
  cbn [option_map]. rewrite Ha. reflexivity.
Qed.

Lemma last_column_angles_finite (A : ndarray) :
  last_column_nonzero A ->
  Forall is_fin (map xCangle (map (fun row => last row None) (data A))).
Proof.
  intros Hcol. rewrite map_map. apply Forall_map.
  eapply Forall_impl; [| exact Hcol].
  intros r (c & -> & _). eexists. reflexivity.
Qed.

(** The docstring's second promise, on the complex numbers involved. *)
Lemma second_reference_positive (a1 a2 : C) (f1 f2 t1 t2 : R) :
  a1 <> C0 -> a2 <> C0 -> f1 <> f2 -> is_turn t1 -> is_turn t2 ->
  let p1 := Cangle a1 + t1 in
  let p2 := Cangle a2 + t2 in
  let theta fk := - fk / (f2 - f1) * (p2 - p1) in
  let w := Cmul a1 (Cunit (theta f1)) in
  Cmul (Cmul a2 (Cunit (theta f2))) (Cunit (- Cangle w)) = RtoC (Cabs a2).
Proof.
  intros Ha1 Ha2 Hf Ht1 Ht2 p1 p2 theta w.
  assert (Hd : f2 - f1 <> 0) by lra.
  assert (Hr : Cunit (- Cangle w) = Cunit (- (Cangle a1 + theta f1))).
  { apply Cunit_neg_congr. unfold w. apply Cunit_angle_mul. exact Ha1. }
  rewrite Hr, Cmul_assoc, Cunit_mul.
  rewrite (polar_form a2 Ha2) at 1. rewrite Cmul_assoc, Cunit_mul.
  replace (Cangle a2 + (theta f2 + - (Cangle a1 + theta f1)))
    with (0 + (t1 + - t2)) by (unfold theta, p1, p2; field; exact Hd).
  rewrite Cunit_turn
    by (apply is_turn_plus; [exact Ht1 | apply is_turn_opp; exact Ht2]).
  apply Cmul_RtoC_unit_0.
Qed.

(** X18. The docstring's promise for the second reference: when [f1] and
    [f2] are two distinct frequencies of [f] and the last column of [A] is
    finite and non-zero, the last entry of the row of [f2], too, comes out
    with phase zero. *)
Theorem rotate_phase_second_reference_phase_is_zero
    (A : ndarray) (f : list R) (f1 f2 : R) (i1 i2 : nat) :
  wf_array A -> shape1 A <> 0%nat -> length f = shape0 A ->
  last_column_nonzero A -> f1 <> f2 ->
  first_min (dists f f1) i1 -> first_min (dists f f2) i2 ->
  nth_error f i1 = Some f1 -> nth_error f i2 = Some f2 ->
  exists out w,
    Phase.rotate_phase A f f1 f2 = Return out /\
    Phase.entry_last out i2 = Return w /\
    xCangle w = Some 0.
Proof.
  intros Hwf Hn1 Hlen Hcol Hf Hm1 Hm2 Hf1 Hf2.
  apply argmin_first_min in Hm1. apply argmin_first_min in Hm2.
  destruct (rotate_phase_rows A f f1 f2 i1 i2 Hwf Hn1 Hlen Hm1 Hm2)
    as (phi1 & phi2 & row1 & fk1 & out & Hp1 & Hp2 & Hrow1 & Hfk1 & Hr
        & _ & Hrows).
  cbv zeta in Hp1, Hp2, Hr, Hrows.
  assert (fk1 = f1) by congruence. subst fk1.
  assert (Hi2 : (i2 < length (data A))%nat).
  { destruct Hwf as [Hl _]. rewrite Hl, <- Hlen.
    apply nth_error_Some. rewrite Hf2. discriminate. }
  destruct (FieldsFacts.getitem_lt _ _ Hi2) as (row2 & Hrow2 & _).
  destruct (last_column_phase A i1 row1 Hcol Hrow1) as (a1 & Ha1 & Ha10 & Hang1).
  destruct (last_column_phase A i2 row2 Hcol Hrow2) as (a2 & Ha2 & Ha20 & Hang2).
  pose proof (last_column_angles_finite A Hcol) as Hfin.
  destruct (unwrap_adds_turns _ i1 _ Hfin Hang1) as (t1 & Hu1 & Ht1).
  destruct (unwrap_adds_turns _ i2 _ Hfin Hang2) as (t2 & Hu2 & Ht2).
  rewrite Hu1 in Hp1. rewrite Hu2 in Hp2.
  inversion Hp1; subst phi1. inversion Hp2; subst phi2. clear Hp1 Hp2.
  assert (Hrne : row2 <> []).
  { destruct Hwf as [_ Hc]. rewrite Forall_forall in Hc.
    pose proof (Hc row2 (nth_error_In _ _ Hrow2)) as Hl.
    intros ->. simpl in Hl. lia. }
  pose proof (Hrows i2 row2 f2 Hrow2 Hf2) as Hout.
  set (R := xCexp _) in Hout.
  assert (HR : R = Some (Cunit (- Cangle
            (Cmul a1 (Cunit (- f1 / (f2 - f1)
                             * (Cangle a2 + t2 - (Cangle a1 + t1)))))))).
  { unfold R, xC in *. rewrite Ha1, (ramp_angle f1 f2 _ _ f1 Hf).
    cbn [xCmul lift2 xCangle lift1]. apply final_rotation. }
  rewrite HR in Hout. clear R HR.
  rewrite (ramp_angle f1 f2 _ _ f2 Hf) in Hout.
  exists out. eexists. split; [exact Hr |]. split.
  - unfold Phase.entry_last.
    rewrite (FieldsFacts.getitem_Some _ _ _ Hout). cbn [obind].
    apply (getlast_map _ row2 None Hrne).
  - unfold xC in *. rewrite Ha2. cbn [xCmul lift2 xCangle lift1]. f_equal.
    rewrite (second_reference_positive a1 a2 f1 f2 t1 t2 Ha10 Ha20 Hf Ht1 Ht2).
    apply Cangle_RtoC_nonneg. apply sqrt_pos.
Qed.

Lemma demo_freqs_first_min_2 : first_min (dists demo_freqs 2) 1.
Proof.
  exists (Rabs (2 - 2)). split; [reflexivity |].
  replace (2 - 2) with 0 by lra. rewrite Rabs_R0. split.
  - intros j w Hj. destruct j as [| [| j]]; simpl in Hj.
    + inversion Hj. apply Rabs_pos.
    + inversion Hj. apply Rabs_pos.
    + destruct j; discriminate.
  - intros j w Hj Hw. assert (j = 0)%nat by lia. subst j.
    simpl in Hw. inversion Hw. apply Rabs_pos_lt. lra.
Qed.

Lemma rotate_phase_second_reference_phase_is_zero_witness :
  exists out w,
    Phase.rotate_phase demo_array demo_freqs 1 2 = Return out /\
    Phase.entry_last out 1%nat = Return w /\
    xCangle w = Some 0.
Proof.
  apply (rotate_phase_second_reference_phase_is_zero demo_array demo_freqs
           1 2 0%nat 1%nat).
  - exact demo_array_wf.
  - discriminate.
  - reflexivity.
  - exact demo_array_last_column.
  - lra.
  - exact demo_freqs_first_min.
  - exact demo_freqs_first_min_2.
  - reflexivity.
  - reflexivity.
Defined.

(** ** slice_1d: failures, what a return means, slicing again *)

Lemma getitem_inv {A} (l : list A) (i : nat) (a : A) :
  getitem l i = Return a -> nth_error l i = Some a.
Proof.
  unfold getitem. destruct (nth_error l i); intros H; inversion H; reflexivity.
Qed.

(** What a return of [slice_1d] tells. *)
Lemma slice_1d_inv efn hfn xlines ylines zlines fields3d x0 y0 s :
  Fields.slice_1d efn hfn xlines ylines zlines fields3d x0 y0 = Return s ->
  exists ix iy xb yb,
    first_min (dists xlines x0) ix /\ first_min (dists ylines y0) iy /\
    nth_error xlines ix = Some (Fields.x0_used s) /\
    nth_error xlines (S ix) = Some xb /\
    nth_error ylines iy = Some (Fields.y0_used s) /\
    nth_error ylines (S iy) = Some yb /\
    Fields.slice_loop fields3d ix iy (xb - Fields.x0_used s)
      (yb - Fields.y0_used s) (seq 0 (length (efn ++ hfn))) =
    Return (Fields.z_comps s, Fields.x_grads s, Fields.y_grads s).
Proof.
  unfold Fields.slice_1d, Fields.nearest. intros H.
  destruct (argmin (map (fun x => Rabs (x - x0)) xlines)) as [ix | e] eqn:Eix;
    [| discriminate].
  cbn [obind] in H.
  destruct (getitem xlines ix) as [xa | e] eqn:Exa; [| discriminate].
  cbn [obind] in H.
  destruct (getitem xlines (ix + 1)) as [xb | e] eqn:Exb; [| discriminate].
  cbn [obind] in H.
  destruct (argmin (map (fun x => Rabs (x - y0)) ylines)) as [iy | e] eqn:Eiy;
    [| discriminate].
  cbn [obind] in H.
  destruct (getitem ylines iy) as [ya | e] eqn:Eya; [| discriminate].
  cbn [obind] in H.
  destruct (getitem ylines (iy + 1)) as [yb | e] eqn:Eyb; [| discriminate].
  cbn [obind] in H.
  destruct (Fields.slice_loop fields3d ix iy (xb - xa) (yb - ya)
              (seq 0 (length (efn ++ hfn)))) as [[[zc xg] yg] | e] eqn:El;
    [| discriminate].
  cbn [obind] in H. inversion H; subst s; clear H.
  cbn [Fields.x0_used Fields.y0_used Fields.z_comps Fields.x_grads
       Fields.y_grads].
  replace (ix + 1)%nat with (S ix) in Exb by lia.
  replace (iy + 1)%nat with (S iy) in Eyb by lia.
  exists ix, iy, xb, yb.
  split; [apply argmin_first_min; exact Eix |].
  split; [apply argmin_first_min; exact Eiy |].
  do 4 (split; [apply getitem_inv; assumption |]). exact El.
Qed.

(** X19. Where the nearest line is the last one of its axis there is no
    forward neighbour, and the slicer fails with an IndexError: on x
    whatever y is, on y when x has a neighbour. *)
Theorem slice_1d_fails_on_last_line
    (efield_names hfield_names : list string) (xlines ylines zlines : list R)
    (fields3d : list (list Fields.array3)) (x0 y0 : R) (ix iy : nat) :
  first_min (dists xlines x0) ix ->
  (S ix = length xlines ->
   Fields.slice_1d efield_names hfield_names xlines ylines zlines fields3d
     x0 y0 = Raise IndexError) /\
  ((S ix < length xlines)%nat -> first_min (dists ylines y0) iy ->
   S iy = length ylines ->
   Fields.slice_1d efield_names hfield_names xlines ylines zlines fields3d
     x0 y0 = Raise IndexError).
Proof.
  intros Hix. split.
  - intros Hlast. eapply FieldsFacts.slice_1d_last_line; eassumption.
  - intros Hx Hiy Hlast. unfold Fields.slice_1d, Fields.nearest.
    pose proof Hiy as (v & Hv & _).
    apply argmin_first_min in Hix. apply argmin_first_min in Hiy.
    unfold dists in Hix, Hiy, Hv. rewrite Hix. cbn [obind].
    destruct (FieldsFacts.getitem_lt xlines ix) as (xa & _ & ->); [lia |].
    cbn [obind]. replace (ix + 1)%nat with (S ix) by lia.
    destruct (FieldsFacts.getitem_lt xlines (S ix)) as (xb & _ & ->); [lia |].
    cbn [obind]. rewrite Hiy. cbn [obind].
    rewrite nth_error_map in Hv.
    destruct (nth_error ylines iy) as [ya |] eqn:E; [| discriminate].
    rewrite (FieldsFacts.getitem_Some _ _ _ E). cbn [obind].
    rewrite FieldsFacts.getitem_ge by lia. reflexivity.
Qed.

Lemma demo_lines_first_min_last : first_min (dists demo_lines 5) 2.
Proof.
  exists (Rabs (2 - 5)). split; [reflexivity |].
  rewrite (Rabs_left (2 - 5)) by lra. split.
  - intros j w Hj. destruct j as [| [| [| j]]]; simpl in Hj;
      try (destruct j; discriminate); inversion Hj;
      rewrite Rabs_left by lra; lra.
  - intros j w Hlt Hj. destruct j as [| [| j]]; simpl in Hj; try lia;
      inversion Hj; rewrite Rabs_left by lra; lra.
Qed.

Lemma slice_1d_fails_on_last_line_witness :
  Fields.slice_1d ["e"%string] [] demo_lines demo_lines [0; 1] [demo_field]
    5 ((1 + 2) / 2) = Raise IndexError /\
  Fields.slice_1d ["e"%string] [] demo_lines demo_lines [0; 1] [demo_field]
    ((0 + 1) / 2) 5 = Raise IndexError.
Proof.
  split.
  - destruct (slice_1d_fails_on_last_line ["e"%string] [] demo_lines
                demo_lines [0; 1] [demo_field] 5 ((1 + 2) / 2) 2%nat 1%nat
                demo_lines_first_min_last) as [H _].
    apply H. reflexivity.
  - destruct (slice_1d_fails_on_last_line ["e"%string] [] demo_lines
                demo_lines [0; 1] [demo_field] ((0 + 1) / 2) 5 0%nat 2%nat)
      as [_ H].
    + apply (midway_first_min demo_lines 0 0 1);
        [exact demo_lines_increasing | reflexivity | reflexivity].
    + apply H.
      * simpl. lia.
      * exact demo_lines_first_min_last.
      * reflexivity.
Defined.

(** X20. On a mesh without x lines, or without y lines, the slicer fails
    with a ValueError (argmin of an empty sequence) unless an IndexError
    on x comes first. *)
Theorem slice_1d_fails_on_empty_mesh
    (efield_names hfield_names : list string) (xlines ylines zlines : list R)
    (fields3d : list (list Fields.array3)) (x0 y0 : R) (ix : nat) :
  (exists msg,
     Fields.slice_1d efield_names hfield_names [] ylines zlines fields3d
       x0 y0 = Raise (ValueError msg)) /\
  (first_min (dists xlines x0) ix -> (S ix < length xlines)%nat ->
   exists msg,
     Fields.slice_1d efield_names hfield_names xlines [] zlines fields3d
       x0 y0 = Raise (ValueError msg)).
Proof.
  split; [eexists; reflexivity |].
  intros Hix Hx. unfold Fields.slice_1d, Fields.nearest.
  apply argmin_first_min in Hix. unfold dists in Hix. rewrite Hix.
  cbn [obind].
  destruct (FieldsFacts.getitem_lt xlines ix) as (xa & _ & ->); [lia |].
  cbn [obind]. replace (ix + 1)%nat with (S ix) by lia.
  destruct (FieldsFacts.getitem_lt xlines (S ix)) as (xb & _ & ->); [lia |].
  cbn [obind map argmin]. eexists. reflexivity.
Qed.

Lemma slice_1d_fails_on_empty_mesh_witness :
  (exists msg,
     Fields.slice_1d ["e"%string] [] [] demo_lines [0; 1] [demo_field]
       1 1 = Raise (ValueError msg)) /\
  (exists msg,
     Fields.slice_1d ["e"%string] [] demo_lines [] [0; 1] [demo_field]
       ((0 + 1) / 2) 1 = Raise (ValueError msg)).
Proof.
  destruct (slice_1d_fails_on_empty_mesh ["e"%string] [] demo_lines
              demo_lines [0; 1] [demo_field] ((0 + 1) / 2) 1 0%nat)
    as [H1 H2].
  split; [exact H1 |]. apply H2.
  - apply (midway_first_min demo_lines 0 0 1);
      [exact demo_lines_increasing | reflexivity | reflexivity].
  - simpl. lia.
Defined.

(** X21. Whenever the slicer returns, the coordinates it reports are mesh
    lines, no mesh line is nearer to the requested location, and each has a
    successor line on its axis. *)
Theorem slice_1d_reports_nearest_lines
    (efield_names hfield_names : list string) (xlines ylines zlines : list R)
    (fields3d : list (list Fields.array3)) (x0 y0 : R) (s : Fields.slices) :
  Fields.slice_1d efield_names hfield_names xlines ylines zlines fields3d
    x0 y0 = Return s ->
  exists ix iy,
    nth_error xlines ix = Some (Fields.x0_used s) /\
    nth_error ylines iy = Some (Fields.y0_used s) /\
    (S ix < length xlines)%nat /\ (S iy < length ylines)%nat /\
    (forall x, In x xlines ->
       Rabs (Fields.x0_used s - x0) <= Rabs (x - x0)) /\
    (forall y, In y ylines ->
       Rabs (Fields.y0_used s - y0) <= Rabs (y - y0)).
Proof.
  intros H.
  destruct (slice_1d_inv _ _ _ _ _ _ _ _ _ H)
    as (ix & iy & xb & yb & Hix & Hiy & Hxa & Hxb & Hya & Hyb & _).
  exists ix, iy. split; [exact Hxa |]. split; [exact Hya |].
  split; [apply nth_error_Some; rewrite Hxb; discriminate |].
  split; [apply nth_error_Some; rewrite Hyb; discriminate |].
  assert (Hnear : forall lines c i u,
            first_min (dists lines c) i -> nth_error lines i = Some u ->
            forall x, In x lines -> Rabs (u - c) <= Rabs (x - c)).
  { intros lines c i u (v & Hv & Hle & _) Hu x Hin.
    unfold dists in Hv, Hle. rewrite nth_error_map, Hu in Hv.
    inversion Hv; subst v.
    destruct (In_nth_error _ _ Hin) as (j & Hj).
    apply (Hle j). rewrite nth_error_map, Hj. reflexivity. }
  split; [eapply Hnear; eassumption | eapply Hnear; eassumption].
Qed.

Lemma slice_1d_reports_nearest_lines_witness :
  exists s ix iy,
    Fields.slice_1d ["e"%string] [] demo_lines demo_lines [0; 1] [demo_field]
      ((0 + 1) / 2) ((1 + 2) / 2) = Return s /\
    nth_error demo_lines ix = Some (Fields.x0_used s) /\
    nth_error demo_lines iy = Some (Fields.y0_used s) /\
    (S ix < length demo_lines)%nat /\ (S iy < length demo_lines)%nat /\
    (forall x, In x demo_lines ->
       Rabs (Fields.x0_used s - (0 + 1) / 2) <= Rabs (x - (0 + 1) / 2)) /\
    (forall y, In y demo_lines ->
       Rabs (Fields.y0_used s - (1 + 2) / 2) <= Rabs (y - (1 + 2) / 2)).
Proof.
  destruct (FieldsFacts.slice_1d_returns ["e"%string] [] demo_lines
              demo_lines [0; 1] [demo_field] ((0 + 1) / 2) ((1 + 2) / 2)
              0%nat 1%nat) as (s & Hs & _).
  - exact demo_field_on_mesh.
  - apply (midway_first_min demo_lines 0 0 1);
      [exact demo_lines_increasing | reflexivity | reflexivity].
  - apply (midway_first_min demo_lines 1 1 2);
      [exact demo_lines_increasing | reflexivity | reflexivity].
  - simpl. lia.
  - simpl. lia.
  - exists s.
    destruct (slice_1d_reports_nearest_lines _ _ _ _ _ _ _ _ s Hs)
      as (ix & iy & H).
    exists ix, iy. split; [exact Hs | exact H].
Defined.

(** On increasing lines, a line is its own first nearest line. *)
Lemma first_min_at_line (l : list R) (i : nat) (a : R) :
  increasing l -> nth_error l i = Some a -> first_min (dists l a) i.
Proof.
  intros Hinc Ha. exists (Rabs (a - a)). unfold dists.
  split; [rewrite nth_error_map, Ha; reflexivity |].
  replace (a - a) with 0 by lra. rewrite Rabs_R0. split.
  - intros j w Hj. rewrite nth_error_map in Hj.
    destruct (nth_error l j); inversion Hj. apply Rabs_pos.
  - intros j w Hlt Hj. rewrite nth_error_map in Hj.
    destruct (nth_error l j) as [x |] eqn:Ex; inversion Hj.
    pose proof (Hinc j i x a Hlt Ex Ha). apply Rabs_pos_lt. lra.
Qed.

(** X22. Slicing again at the coordinates the slicer reported gives the
    same result: on strictly increasing mesh lines snapping is
    idempotent. *)
Theorem slice_1d_at_reported_coordinates
    (efield_names hfield_names : list string) (xlines ylines zlines : list R)
    (fields3d : list (list Fields.array3)) (x0 y0 : R) (s : Fields.slices) :
  increasing xlines -> increasing ylines ->
  Fields.slice_1d efield_names hfield_names xlines ylines zlines fields3d
    x0 y0 = Return s ->
  Fields.slice_1d efield_names hfield_names xlines ylines zlines fields3d
    (Fields.x0_used s) (Fields.y0_used s) = Return s.
Proof.
  intros Hxi Hyi H.
  destruct (slice_1d_inv _ _ _ _ _ _ _ _ _ H)
    as (ix & iy & xb & yb & _ & _ & Hxa & Hxb & Hya & Hyb & Hl).
  rewrite (FieldsFacts.slice_1d_unfold _ _ _ _ _ _ _ _ ix iy
             (Fields.x0_used s) xb (Fields.y0_used s) yb);
    try assumption; try (apply first_min_at_line; assumption).
  rewrite Hl. cbn [obind]. destruct s. reflexivity.
Qed.

Lemma slice_1d_at_reported_coordinates_witness :
  exists s,
    Fields.slice_1d ["e"%string] [] demo_lines demo_lines [0; 1] [demo_field]
      ((0 + 1) / 2) ((1 + 2) / 2) = Return s /\
    Fields.slice_1d ["e"%string] [] demo_lines demo_lines [0; 1] [demo_field]
      (Fields.x0_used s) (Fields.y0_used s) = Return s.
Proof.
  destruct (FieldsFacts.slice_1d_returns ["e"%string] [] demo_lines
              demo_lines [0; 1] [demo_field] ((0 + 1) / 2) ((1 + 2) / 2)
              0%nat 1%nat) as (s & Hs & _).
  - exact demo_field_on_mesh.
  - apply (midway_first_min demo_lines 0 0 1);
      [exact demo_lines_increasing | reflexivity | reflexivity].
  - apply (midway_first_min demo_lines 1 1 2);
      [exact demo_lines_increasing | reflexivity | reflexivity].
  - simpl. lia.
  - simpl. lia.
  - exists s. split; [exact Hs |].
    apply (slice_1d_at_reported_coordinates _ _ _ _ _ _ _ _ s
             demo_lines_increasing demo_lines_increasing Hs).
Defined.

(** What a return of the loop tells, field by field. *)
Lemma slice_loop_inv fields3d ix iy dx dy idx zcs xgs ygs :
  Fields.slice_loop fields3d ix iy dx dy idx = Return (zcs, xgs, ygs) ->
  length zcs = length idx /\ length xgs = length idx /\
  length ygs = length idx /\
  forall k i, nth_error idx k = Some i ->
    exists zc xg yg,
      Fields.slice_field fields3d ix iy dx dy i = Return (zc, xg, yg) /\
      nth_error zcs k = Some zc /\ nth_error xgs k = Some xg /\
      nth_error ygs k = Some yg.
Proof.
  revert zcs xgs ygs. induction idx as [| i idx IH]; intros zcs xgs ygs H.
  - simpl in H. inversion H. repeat split; try reflexivity.
    intros k j Hk. destruct k; discriminate.
  - simpl in H.
    destruct (Fields.slice_field fields3d ix iy dx dy i)
      as [[[zc xg] yg] | e] eqn:Ef; [| discriminate].
    cbn [obind] in H.
    destruct (Fields.slice_loop fields3d ix iy dx dy idx)
      as [[[zcs' xgs'] ygs'] | e] eqn:El; [| discriminate].
    cbn [obind] in H. inversion H; subst; clear H.
    destruct (IH _ _ _ eq_refl) as (L1 & L2 & L3 & Hk).
    simpl. repeat split; try (f_equal; assumption).
    intros k j Hj. destruct k as [| k].
    + simpl in Hj. inversion Hj; subst j. exists zc, xg, yg. auto.
    + simpl in Hj. apply Hk. exact Hj.
Qed.

Lemma slice_field_inv fields3d ix iy dx dy i zc xg yg :
  Fields.slice_field fields3d ix iy dx dy i = Return (zc, xg, yg) ->
  exists field3d z_comp_3d lx ly,
    nth_error fields3d i = Some field3d /\
    nth_error field3d 2 = Some z_comp_3d /\
    Fields.line_at z_comp_3d ix iy = Return zc /\
    Fields.line_at z_comp_3d (S ix) iy = Return lx /\
    Fields.line_at z_comp_3d ix (S iy) = Return ly /\
    xg = Fields.fwd_diff lx zc dx /\ yg = Fields.fwd_diff ly zc dy.
Proof.
  unfold Fields.slice_field. intros H.
  destruct (getitem fields3d i) as [field3d | e] eqn:E1; [| discriminate].
  cbn [obind] in H.
  destruct (getitem field3d 2) as [z3 | e] eqn:E2; [| discriminate].
  cbn [obind] in H.
  destruct (Fields.line_at z3 ix iy) as [l0 | e] eqn:E3; [| discriminate].
  cbn [obind] in H.
  destruct (Fields.line_at z3 (ix + 1) iy) as [lx | e] eqn:E4;
    [| discriminate].
  cbn [obind] in H.
  destruct (Fields.line_at z3 ix (iy + 1)) as [ly | e] eqn:E5;
    [| discriminate].
  cbn [obind] in H. inversion H; subst; clear H.
  replace (ix + 1)%nat with (S ix) in E4 by lia.
  replace (iy + 1)%nat with (S iy) in E5 by lia.
  exists field3d, z3, lx, ly.
  split; [apply getitem_inv; exact E1 |].
  split; [apply getitem_inv; exact E2 |]. auto.
Qed.

(** X23. Whenever the slicer returns, it returns one profile and one pair
    of gradients per named field, in the order of the names; for the field
    of index [i] the profile is the line [field3d[2][ix, iy, :]] at the
    snapped node and the gradients are the differences to the lines at
    [ix+1] and at [iy+1], divided by the steps to those lines. *)
Theorem slice_1d_profiles
    (efield_names hfield_names : list string) (xlines ylines zlines : list R)
    (fields3d : list (list Fields.array3)) (x0 y0 : R) (s : Fields.slices) :
  Fields.slice_1d efield_names hfield_names xlines ylines zlines fields3d
    x0 y0 = Return s ->
  let n := length (efield_names ++ hfield_names) in
  length (Fields.z_comps s) = n /\ length (Fields.x_grads s) = n /\
  length (Fields.y_grads s) = n /\
  exists ix iy xb yb,
    nth_error xlines ix = Some (Fields.x0_used s) /\
    nth_error xlines (S ix) = Some xb /\
    nth_error ylines iy = Some (Fields.y0_used s) /\
    nth_error ylines (S iy) = Some yb /\
    forall i, (i < n)%nat ->
      exists field3d z_comp_3d l0 lx ly,
        nth_error fields3d i = Some field3d /\
        nth_error field3d 2 = Some z_comp_3d /\
        Fields.line_at z_comp_3d ix iy = Return l0 /\
        Fields.line_at z_comp_3d (S ix) iy = Return lx /\
        Fields.line_at z_comp_3d ix (S iy) = Return ly /\
        nth_error (Fields.z_comps s) i = Some l0 /\
        nth_error (Fields.x_grads s) i =
          Some (Fields.fwd_diff lx l0 (xb - Fields.x0_used s)) /\
        nth_error (Fields.y_grads s) i =
          Some (Fields.fwd_diff ly l0 (yb - Fields.y0_used s)).
Proof.
  intros H n.
  destruct (slice_1d_inv _ _ _ _ _ _ _ _ _ H)
    as (ix & iy & xb & yb & _ & _ & Hxa & Hxb & Hya & Hyb & Hl).
  destruct (slice_loop_inv _ _ _ _ _ _ _ _ _ Hl) as (L1 & L2 & L3 & Hk).
  rewrite length_seq in L1, L2, L3. fold n in L1, L2, L3.
  do 3 (split; [assumption |]).
  exists ix, iy, xb, yb. do 4 (split; [assumption |]).
  intros i Hi.
  assert (Hseq : nth_error (seq 0 (length (efield_names ++ hfield_names))) i
                 = Some i).
  { rewrite nth_error_seq. fold n.
    destruct (Nat.ltb_spec i n) as [_ | Hge]; [reflexivity | lia]. }
  destruct (Hk i i Hseq) as (zc & xg & yg & Hf & Hz & Hx & Hy).
  destruct (slice_field_inv _ _ _ _ _ _ _ _ _ Hf)
    as (field3d & z3 & lx & ly & E1 & E2 & E3 & E4 & E5 & -> & ->).
  exists field3d, z3, zc, lx, ly. repeat split; assumption.
Qed.

Lemma slice_1d_profiles_witness :
  exists s,
    Fields.slice_1d ["e"%string] [] demo_lines demo_lines [0; 1] [demo_field]
      ((0 + 1) / 2) ((1 + 2) / 2) = Return s /\
    length (Fields.z_comps s) = 1%nat /\ length (Fields.x_grads s) = 1%nat /\
    length (Fields.y_grads s) = 1%nat.
Proof.
  destruct (FieldsFacts.slice_1d_returns ["e"%string] [] demo_lines
              demo_lines [0; 1] [demo_field] ((0 + 1) / 2) ((1 + 2) / 2)
              0%nat 1%nat) as (s & Hs & _).
  - exact demo_field_on_mesh.
  - apply (midway_first_min demo_lines 0 0 1);
      [exact demo_lines_increasing | reflexivity | reflexivity].
  - apply (midway_first_min demo_lines 1 1 2);
      [exact demo_lines_increasing | reflexivity | reflexivity].
  - simpl. lia.
  - simpl. lia.
  - exists s. split; [exact Hs |].
    destruct (slice_1d_profiles _ _ _ _ _ _ _ _ s Hs) as (L1 & L2 & L3 & _).
    auto.
Defined.

(** ** hd5_import_path *)

Section ImportFacts.

Variable listdir : string -> H5.io (list string).
Variable h5_import_file : string -> H5.io H5.h5_slice.

Lemma import_loop_all (path : string) (F : string -> H5.h5_slice)
    (names : list string) (st : H5.import_state) :
  (forall n, In n names -> h5_import_file (path ++ n) = H5.Done (F n)) ->
  H5.import_loop h5_import_file path names st =
  H5.Done
    (H5.mkState
       (H5.st_f st ++ map (fun n => H5.file_f (F n)) names)
       (H5.st_dEz_dx st ++ map (fun n => H5.file_dEz_dx (F n)) names)
       (H5.st_dEz_dy st ++ map (fun n => H5.file_dEz_dy (F n)) names)
       (H5.st_Ez st ++ map (fun n => H5.file_Ez (F n)) names)
       (fold_left
          (fun _ n =>
             Some (H5.file_z (F n), H5.file_x0 (F n), H5.file_y0 (F n)))
          names (H5.st_z_x0_y0 st))).
Proof.
  revert st. induction names as [| n names IH]; intros st H.
  - simpl. rewrite !app_nil_r. destruct st. reflexivity.
  - simpl. rewrite (H n (in_eq _ _)).
    rewrite IH by (intros m Hm; apply H; right; exact Hm).
    simpl. rewrite <- !app_assoc. reflexivity.
Qed.

Lemma import_loop_fails (path : string) (pre post : list string) (n : string)
    (e : H5.io_exn) (st : H5.import_state) :
  (forall m, In m pre -> exists s, h5_import_file (path ++ m) = H5.Done s) ->
  h5_import_file (path ++ n) = H5.Fails e ->
  H5.import_loop h5_import_file path (pre ++ n :: post) st = H5.Fails e.
Proof.
  revert st. induction pre as [| m pre IH]; intros st Hpre Hn.
  - simpl. rewrite Hn. reflexivity.
  - simpl. destruct (Hpre m (in_eq _ _)) as (s & ->).
    apply IH; [| exact Hn]. intros k Hk. apply Hpre. right. exact Hk.
Qed.

Lemma uniform_map {A B} (g : A -> list B) (names : list A) (k : nat) :
  (forall n, In n names -> length (g n) = k) ->
  uniform (map g names) = true.
Proof.
  intros H. destruct names as [| n0 names]; [reflexivity |].
  simpl. apply forallb_forall. intros r Hr.
  apply in_map_iff in Hr. destruct Hr as (n & <- & Hn).
  rewrite (H n (in_cons _ _ _ Hn)), (H n0 (in_eq _ _)).
  apply Nat.eqb_refl.
Qed.

(** X24. On an empty folder hd5_import_path does not return empty arrays:
    it fails with an UnboundLocalError, [z] was never bound.  When reading
    a file fails, that failure is the outcome, whatever the later files
    hold. *)
Theorem hd5_import_path_failures (path : string) :
  (listdir path = H5.Done [] ->
   H5.hd5_import_path listdir h5_import_file path =
   H5.Fails (H5.UnboundLocalError "z")) /\
  (forall pre post n e,
     listdir path = H5.Done (pre ++ n :: post) ->
     (forall m, In m pre ->
        exists s, h5_import_file (path ++ m) = H5.Done s) ->
     h5_import_file (path ++ n) = H5.Fails e ->
     H5.hd5_import_path listdir h5_import_file path = H5.Fails e).
Proof.
  split.
  - intros H. unfold H5.hd5_import_path. rewrite H. reflexivity.
  - intros pre post n e H Hpre Hn. unfold H5.hd5_import_path. rewrite H.
    rewrite (import_loop_fails path pre post n e _ Hpre Hn). reflexivity.
Qed.

(** X25. When every file of the folder is read and the profiles of the
    files have one length, hd5_import_path returns one frequency and one
    row of [Ez], [dEz_dx], [dEz_dy] per file, in the order of the listing,
    and the [z], [x0], [y0] of the last file alone. *)
Theorem hd5_import_path_collects (path : string) (names : list string)
    (last_name : string) (F : string -> H5.h5_slice) (nz nx ny : nat) :
  listdir path = H5.Done (names ++ [last_name]) ->
  (forall n, In n (names ++ [last_name]) ->
     h5_import_file (path ++ n) = H5.Done (F n)) ->
  (forall n, In n (names ++ [last_name]) ->
     length (H5.file_Ez (F n)) = nz /\
     length (H5.file_dEz_dx (F n)) = nx /\
     length (H5.file_dEz_dy (F n)) = ny) ->
  H5.hd5_import_path listdir h5_import_file path =
  H5.Done
    (map (fun n => H5.file_f (F n)) (names ++ [last_name]),
     H5.file_z (F last_name),
     map (fun n => H5.file_Ez (F n)) (names ++ [last_name]),
     map (fun n => H5.file_dEz_dx (F n)) (names ++ [last_name]),
     map (fun n => H5.file_dEz_dy (F n)) (names ++ [last_name]),
     H5.file_x0 (F last_name), H5.file_y0 (F last_name)).
Proof.
  intros Hl HF Hlen. unfold H5.hd5_import_path. rewrite Hl.
  rewrite (import_loop_all path F _ _ HF).
  cbn [H5.st_z_x0_y0 H5.st_f H5.st_Ez H5.st_dEz_dx H5.st_dEz_dy
       H5.initial_state app].
  unfold H5.np_array.
  rewrite (uniform_map (fun n => H5.file_dEz_dx (F n)) _ nx)
    by (intros n Hn; apply (Hlen n Hn)).
  rewrite (uniform_map (fun n => H5.file_dEz_dy (F n)) _ ny)
    by (intros n Hn; apply (Hlen n Hn)).
  rewrite (uniform_map (fun n => H5.file_Ez (F n)) _ nz)
    by (intros n Hn; apply (Hlen n Hn)).
  rewrite fold_left_app. reflexivity.
Qed.

End ImportFacts.

Lemma hd5_import_path_failures_witness :
  H5.hd5_import_path demo_empty_listdir demo_h5_import_file "dir/" =
  H5.Fails (H5.UnboundLocalError "z").
Proof.
  destruct (hd5_import_path_failures demo_empty_listdir demo_h5_import_file
              "dir/") as [H _].
  apply H. reflexivity.
Defined.

Lemma hd5_import_path_collects_witness :
  H5.hd5_import_path demo_listdir demo_h5_import_file "dir/" =
  H5.Done
    ([1; 2], [0; 1],
     [[cfin (RtoC 1); cfin (RtoC 2)]; [cfin (RtoC 3); cfin (RtoC 4)]],
     [[]; []], [[]; []], 0, 1).
Proof.
  apply (hd5_import_path_collects demo_listdir demo_h5_import_file "dir/"
           ["a.hdf5"%string] "b.hdf5"
           (fun n => if String.eqb n "a.hdf5"
                     then H5.mkSlice 1 [0; 1] [cfin (RtoC 1); cfin (RtoC 2)]
                            [] [] 0 0
                     else H5.mkSlice 2 [0; 1] [cfin (RtoC 3); cfin (RtoC 4)]
                            [] [] 0 1) 2%nat 0%nat 0%nat).
  - reflexivity.
  - intros n [<- | [<- | []]]; reflexivity.
  - intros n [<- | [<- | []]]; repeat split; reflexivity.
Defined.

(** ** load_fields: unpacking a result buffer *)

Lemma nth_error_evens (l : list R) (k : nat) :
  nth_error (Load.evens l) k = nth_error l (2 * k).
Proof.
  revert l. induction k as [| k IH]; intros l.
  - destruct l; reflexivity.
  - replace (2 * S k)%nat with (S (S (2 * k))) by lia.
    destruct l as [| a [| b t]].
    + reflexivity.
    + simpl. destruct k; reflexivity.
    + change (Load.evens (a :: b :: t)) with (a :: Load.evens t).
      simpl nth_error. apply IH.
Qed.

Lemma nth_error_odds (l : list R) (k : nat) :
  nth_error (Load.odds l) k = nth_error l (2 * k + 1).
Proof.
  destruct l as [| a t].
  - simpl. destruct k; [reflexivity |]. destruct (2 * S k + 1)%nat; reflexivity.
  - unfold Load.odds. rewrite nth_error_evens.
    replace (2 * k + 1)%nat with (S (2 * k)) by lia. reflexivity.
Qed.

Lemma length_evens_odds (m : nat) (l : list R) :
  length l = (2 * m)%nat ->
  length (Load.evens l) = m /\ length (Load.odds l) = m.
Proof.
  revert l. induction m as [| m IH]; intros l Hl.
  - destruct l; [split; reflexivity | discriminate].
  - destruct l as [| a [| b t]]; simpl in Hl; try lia.
    destruct (IH t) as [He Ho]; [lia |].
    change (Load.evens (a :: b :: t)) with (a :: Load.evens t).
    unfold Load.odds.
    change (Load.evens (b :: t))
      with (b :: match t with [] => [] | _ :: t' => Load.evens t' end).
    fold (Load.odds t). simpl. split; f_equal; assumption.
Qed.

(** The complex samples of a buffer of [2*m] numbers. *)
Lemma add_imaginary_samples (buffer : list R) (m : nat) :
  length buffer = (2 * m)%nat ->
  exists field3d,
    Load.add_imaginary (Load.evens buffer) (Load.odds buffer) =
      Return field3d /\
    length field3d = m /\
    forall k, (k < m)%nat ->
      exists a b, nth_error buffer (2 * k) = Some a /\
        nth_error buffer (2 * k + 1) = Some b /\
        nth_error field3d k = Some (cfin (mkC a b)).
Proof.
  intros Hl. destruct (length_evens_odds m buffer Hl) as [He Ho].
  unfold Load.add_imaginary. rewrite He, Ho, Nat.eqb_refl.
  eexists. split; [reflexivity |]. split.
  - rewrite length_zipWith, He, Ho. apply Nat.min_id.
  - intros k Hk.
    destruct (FieldsFacts.getitem_lt (Load.evens buffer) k) as (a & Ha & _);
      [lia |].
    destruct (FieldsFacts.getitem_lt (Load.odds buffer) k) as (b & Hb & _);
      [lia |].
    exists a, b.
    split; [rewrite <- nth_error_evens; exact Ha |].
    split; [rewrite <- nth_error_odds; exact Hb |].
    rewrite (nth_error_zipWith _ _ _ k a b Ha Hb). f_equal.
    unfold Load.plus_j, cfin.
    f_equal. apply C_eq; unfold Cadd, Cmul, Ci, RtoC; simpl; ring.
Qed.

Lemma flat_index_bound (Nx Ny Nz ix iy iz : nat) :
  (ix < Nx)%nat -> (iy < Ny)%nat -> (iz < Nz)%nat ->
  ((iz * Ny + iy) * Nx + ix < Nx * Ny * Nz)%nat.
Proof.
  intros Hx Hy Hz.
  assert (H1 : (iz * Ny + iy + 1 <= Nz * Ny)%nat) by nia.
  assert (H2 : ((iz * Ny + iy + 1) * Nx <= Nz * Ny * Nx)%nat)
    by (apply Nat.mul_le_mono_r; exact H1).
  nia.
Qed.

(** One component of a field that holds its samples. *)
Lemma component_entries (Nx Ny Nz : nat) (field3d : list xC) (c : nat) :
  let Np := (Nx * Ny * Nz)%nat in
  ((c + 1) * Np <= length field3d)%nat ->
  exists comp,
    Load.component Nx Ny Nz field3d c = Return comp /\
    shape3 Nx Ny comp /\
    forall ix iy, (ix < Nx)%nat -> (iy < Ny)%nat ->
      exists line,
        Fields.line_at comp ix iy = Return line /\ length line = Nz /\
        forall iz, (iz < Nz)%nat ->
          nth_error line iz =
          Some (nth ((c * Np) + ((iz * Ny + iy) * Nx + ix)) field3d None).
Proof.
  intros Np Hlen. unfold Load.component. fold Np.
  assert (Hs : length (firstn Np (skipn (c * Np) field3d)) = (Nz * Ny * Nx)%nat).
  { rewrite length_firstn, length_skipn. unfold Np in *. nia. }
  unfold Load.reshape3. rewrite Hs, Nat.eqb_refl. cbn [obind].
  eexists. split; [reflexivity |]. split.
  - split.
    + unfold Load.swapaxes02. rewrite length_map, length_seq. reflexivity.
    + unfold Load.swapaxes02. apply Forall_map. apply Forall_forall.
      intros i _. rewrite length_map, length_seq. reflexivity.
  - intros ix iy Hx Hy.
    eexists. split; [| split].
    + unfold Fields.line_at, Load.swapaxes02, getitem.
      rewrite nth_error_map, nth_error_seq.
      destruct (Nat.ltb_spec ix Nx) as [_ | ?]; [| lia].
      cbn [option_map obind].
      rewrite nth_error_map, nth_error_seq.
      destruct (Nat.ltb_spec iy Ny) as [_ | ?]; [| lia].
      reflexivity.
    + rewrite length_map, length_seq. reflexivity.
    + intros iz Hz. rewrite nth_error_map, nth_error_seq.
      destruct (Nat.ltb_spec iz Nz) as [_ | ?]; [| lia].
      cbn [option_map Nat.add]. f_equal. unfold Load.get3.
      rewrite nth_error_map, nth_error_seq.
      destruct (Nat.ltb_spec iz Nz) as [_ | ?]; [| lia].
      cbn [option_map Nat.add].
      rewrite nth_error_map, nth_error_seq.
      destruct (Nat.ltb_spec iy Ny) as [_ | ?]; [| lia].
      cbn [option_map Nat.add].
      rewrite nth_error_firstn.
      destruct (Nat.ltb_spec ix Nx) as [_ | ?]; [| lia].
      rewrite nth_error_skipn, nth_error_firstn.
      pose proof (flat_index_bound Nx Ny Nz ix iy iz Hx Hy Hz) as Hb.
      fold Np in Hb.
      destruct (Nat.ltb_spec ((iz * Ny + iy) * Nx + ix) Np) as [_ | ?];
        [| lia].
      rewrite nth_error_skipn.
      destruct (nth_error field3d (c * Np + ((iz * Ny + iy) * Nx + ix)))
        as [e |] eqn:E.
      * symmetry. apply nth_error_nth with (d := @None C) in E.
        rewrite E. reflexivity.
      * apply nth_error_None in E. unfold Np in *. nia.
Qed.

Lemma length_evens_odds_odd (m : nat) (l : list R) :
  length l = (2 * m + 1)%nat ->
  length (Load.evens l) = S m /\ length (Load.odds l) = m.
Proof.
  intros Hl. destruct l as [| a t]; simpl in Hl; [lia |].
  destruct (length_evens_odds m t) as [He Ho]; [lia |].
  change (Load.evens (a :: t)) with (a :: Load.odds t).
  change (Load.odds (a :: t)) with (Load.evens t).
  simpl. split; [f_equal |]; assumption.
Qed.

Lemma component_short (Nx Ny Nz : nat) (field3d : list xC) (c : nat) :
  (length field3d < (c + 1) * (Nx * Ny * Nz))%nat ->
  Load.component Nx Ny Nz field3d c = Raise (ValueError "cannot reshape array").
Proof.
  intros Hlen. unfold Load.component, Load.reshape3.
  destruct (Nat.eqb_spec
    (length (firstn (Nx * Ny * Nz) (skipn (c * (Nx * Ny * Nz)) field3d)))
    (Nz * Ny * Nx)) as [E | _]; [| reflexivity].
  rewrite length_firstn, length_skipn in E. nia.
Qed.

(** X26. [load_fields] unpacks a buffer of [2*m] numbers exactly when it
    holds the three components, [3*Nx*Ny*Nz <= m] complex samples (what
    follows them is ignored); with fewer samples the reshape of the first
    incomplete component raises a ValueError.  A buffer with an odd count
    of at least five numbers is refused when the real and the imaginary
    parts are added. *)
Theorem unpack_field_needs_three_components
    (Nx Ny Nz m : nat) (buffer : list R) :
  (length buffer = (2 * m)%nat ->
     (3 * (Nx * Ny * Nz) <= m)%nat ->
     returns (Load.unpack_field Nx Ny Nz buffer)) /\
  (length buffer = (2 * m)%nat ->
     (m < 3 * (Nx * Ny * Nz))%nat ->
     Load.unpack_field Nx Ny Nz buffer =
       Raise (ValueError "cannot reshape array")) /\
  (length buffer = (2 * m + 1)%nat -> (2 <= m)%nat ->
     Load.unpack_field Nx Ny Nz buffer =
       Raise (ValueError "operands could not be broadcast together")).
Proof.
  split; [| split].
  - intros Hl Hm.
    destruct (add_imaginary_samples buffer m Hl) as (field & Hf & Hlen & _).
    unfold Load.unpack_field. rewrite Hf. cbn [obind].
    destruct (component_entries Nx Ny Nz field 0) as (cx & Hx & _);
      [cbv zeta; lia |].
    destruct (component_entries Nx Ny Nz field 1) as (cy & Hy & _);
      [cbv zeta; lia |].
    destruct (component_entries Nx Ny Nz field 2) as (cz & Hz & _);
      [cbv zeta; lia |].
    rewrite Hx. cbn [obind]. rewrite Hy. cbn [obind]. rewrite Hz.
    cbn [obind]. eexists. reflexivity.
  - intros Hl Hm.
    destruct (add_imaginary_samples buffer m Hl) as (field & Hf & Hlen & _).
    unfold Load.unpack_field. rewrite Hf. cbn [obind].
    destruct (Nat.lt_ge_cases m (Nx * Ny * Nz)) as [H0 | H0].
    { rewrite component_short by lia. reflexivity. }
    destruct (component_entries Nx Ny Nz field 0) as (cx & Hx & _);
      [cbv zeta; lia |].
    rewrite Hx. cbn [obind].
    destruct (Nat.lt_ge_cases m (2 * (Nx * Ny * Nz))) as [H1 | H1].
    { rewrite component_short by lia. reflexivity. }
    destruct (component_entries Nx Ny Nz field 1) as (cy & Hy & _);
      [cbv zeta; lia |].
    rewrite Hy. cbn [obind].
    rewrite component_short by lia. reflexivity.
  - intros Hl Hm.
    destruct (length_evens_odds_odd m buffer Hl) as [He Ho].
    unfold Load.unpack_field, Load.add_imaginary.
    rewrite He, Ho.
    destruct (Nat.eqb_spec (S m) m) as [? | _]; [lia |].
    destruct (Load.evens buffer) as [| a [| a' e]]; simpl in He; try lia.
    destruct (Load.odds buffer) as [| b [| b' o]]; simpl in Ho; try lia.
    reflexivity.
Qed.

Lemma length_demo_buffer : length demo_buffer = (2 * 12)%nat.
Proof. reflexivity. Qed.

Lemma unpack_field_needs_three_components_witness :
  returns (Load.unpack_field 2 1 2 demo_buffer) /\
  Load.unpack_field 2 2 2 demo_buffer =
    Raise (ValueError "cannot reshape array") /\
  Load.unpack_field 2 1 2 (0 :: demo_buffer) =
    Raise (ValueError "operands could not be broadcast together").
Proof.
  split; [| split].
  - destruct (unpack_field_needs_three_components 2 1 2 12 demo_buffer)
      as (H & _ & _).
    apply H; [reflexivity | simpl; lia].
  - destruct (unpack_field_needs_three_components 2 2 2 12 demo_buffer)
      as (_ & H & _).
    apply H; [reflexivity | simpl; lia].
  - destruct (unpack_field_needs_three_components 2 1 2 12 (0 :: demo_buffer))
      as (_ & _ & H).
    apply H; [reflexivity | lia].
Defined.

(** X27. Where [load_fields] puts the samples: after unpacking a buffer
    that holds the three components, component [c] at mesh node
    [ix, iy, iz] is the complex sample number
    [c*Np + (iz*Ny + iy)*Nx + ix] of the buffer, its real part taken from
    the even and its imaginary part from the following odd position; each
    component has [Nx] by [Ny] lines of [Nz] values. *)
Theorem unpack_field_entries (Nx Ny Nz m : nat) (buffer : list R) :
  length buffer = (2 * m)%nat ->
  (3 * (Nx * Ny * Nz) <= m)%nat ->
  exists x_comp_3d y_comp_3d z_comp_3d,
    Load.unpack_field Nx Ny Nz buffer =
      Return [x_comp_3d; y_comp_3d; z_comp_3d] /\
    forall c comp,
      nth_error [x_comp_3d; y_comp_3d; z_comp_3d] c = Some comp ->
      shape3 Nx Ny comp /\
      forall ix iy iz, (ix < Nx)%nat -> (iy < Ny)%nat -> (iz < Nz)%nat ->
        let k := (c * (Nx * Ny * Nz) + ((iz * Ny + iy) * Nx + ix))%nat in
        exists line a b,
          Fields.line_at comp ix iy = Return line /\
          length line = Nz /\
          nth_error buffer (2 * k) = Some a /\
          nth_error buffer (2 * k + 1) = Some b /\
          nth_error line iz = Some (cfin (mkC a b)).
Proof.
  intros Hl Hm.
  destruct (add_imaginary_samples buffer m Hl) as (field & Hf & Hlen & Hs).
  unfold Load.unpack_field. rewrite Hf. cbn [obind].
  destruct (component_entries Nx Ny Nz field 0) as (cx & Hx & Sx & Ex);
    [cbv zeta; lia |].
  destruct (component_entries Nx Ny Nz field 1) as (cy & Hy & Sy & Ey);
    [cbv zeta; lia |].
  destruct (component_entries Nx Ny Nz field 2) as (cz & Hz & Sz & Ez);
    [cbv zeta; lia |].
  rewrite Hx. cbn [obind]. rewrite Hy. cbn [obind]. rewrite Hz. cbn [obind].
  exists cx, cy, cz. split; [reflexivity |].
  assert (Hall : forall c comp, (c < 3)%nat -> shape3 Nx Ny comp ->
    (forall ix iy, (ix < Nx)%nat -> (iy < Ny)%nat ->
      exists line,
        Fields.line_at comp ix iy = Return line /\ length line = Nz /\
        forall iz, (iz < Nz)%nat ->
          nth_error line iz =
          Some (nth ((c * (Nx * Ny * Nz)) + ((iz * Ny + iy) * Nx + ix))
                  field None)) ->
    shape3 Nx Ny comp /\
    forall ix iy iz, (ix < Nx)%nat -> (iy < Ny)%nat -> (iz < Nz)%nat ->
      let k := (c * (Nx * Ny * Nz) + ((iz * Ny + iy) * Nx + ix))%nat in
      exists line a b,
        Fields.line_at comp ix iy = Return line /\
        length line = Nz /\
        nth_error buffer (2 * k) = Some a /\
        nth_error buffer (2 * k + 1) = Some b /\
        nth_error line iz = Some (cfin (mkC a b))).
  { intros c comp Hc Hshape Hent. split; [exact Hshape |].
    intros ix iy iz Hix Hiy Hiz k.
    destruct (Hent ix iy Hix Hiy) as (line & Hline & Hlenl & Hnth).
    pose proof (flat_index_bound Nx Ny Nz ix iy iz Hix Hiy Hiz) as Hb.
    assert (Hk : (k < m)%nat) by (unfold k; nia).
    destruct (Hs k Hk) as (a & b & Ha & Hb' & Hab).
    exists line, a, b. repeat split; try assumption.
    rewrite (Hnth iz Hiz). f_equal. fold k.
    apply nth_error_nth with (d := @None C) in Hab. exact Hab. }
  intros c comp Hc.
  destruct c as [| [| [| c]]]; simpl in Hc.
  - injection Hc as <-. apply Hall; [lia | exact Sx | exact Ex].
  - injection Hc as <-. apply Hall; [lia | exact Sy | exact Ey].
  - injection Hc as <-. apply Hall; [lia | exact Sz | exact Ez].
  - destruct c; discriminate.
Qed.

Lemma unpack_field_entries_witness :
  exists x_comp_3d y_comp_3d z_comp_3d,
    Load.unpack_field 2 1 2 demo_buffer =
      Return [x_comp_3d; y_comp_3d; z_comp_3d] /\
    forall c comp,
      nth_error [x_comp_3d; y_comp_3d; z_comp_3d] c = Some comp ->
      shape3 2 1 comp /\
      forall ix iy iz, (ix < 2)%nat -> (iy < 1)%nat -> (iz < 2)%nat ->
        let k := (c * (2 * 1 * 2) + ((iz * 1 + iy) * 2 + ix))%nat in
        exists line a b,
          Fields.line_at comp ix iy = Return line /\
          length line = 2%nat /\
          nth_error demo_buffer (2 * k) = Some a /\
          nth_error demo_buffer (2 * k + 1) = Some b /\
          nth_error line iz = Some (cfin (mkC a b)).
Proof.
  apply (unpack_field_entries 2 1 2 12 demo_buffer);
    [reflexivity | simpl; lia].
Defined.

(** ** curves.py *)

Lemma split_nonempty (sep : Ascii.ascii) (s : string) :
  Curves.split sep s <> [].
Proof.
  destruct s as [| c s]; simpl; [discriminate |].
  destruct (Ascii.eqb c sep); [discriminate |].
  destruct (Curves.split sep s); discriminate.
Qed.

Lemma split_free (sep : Ascii.ascii) (w : string) :
  Curves.free_of sep w = true -> Curves.split sep w = [w].
Proof.
  induction w as [| c w IH]; simpl; intros H; [reflexivity |].
  apply andb_true_iff in H. destruct H as [Hc Hw].
  apply negb_true_iff in Hc. rewrite Hc, (IH Hw). reflexivity.
Qed.

Lemma split_app_sep (sep : Ascii.ascii) (w rest : string) :
  Curves.free_of sep w = true ->
  Curves.split sep (w ++ String sep rest) = w :: Curves.split sep rest.
Proof.
  induction w as [| c w IH]; simpl; intros H.
  - rewrite Ascii.eqb_refl. reflexivity.
  - apply andb_true_iff in H. destruct H as [Hc Hw].
    apply negb_true_iff in Hc. rewrite Hc, (IH Hw). reflexivity.
Qed.

(** Splitting what was joined gives the pieces back, when there is a
    piece and no piece holds the separator. *)
Lemma split_join (sep : Ascii.ascii) (lines : list string) :
  lines <> [] ->
  Forall (fun l => Curves.free_of sep l = true) lines ->
  Curves.split sep (Curves.join sep lines) = lines.
Proof.
  induction lines as [| w ws IH]; intros Hne Hfree; [contradiction |].
  pose proof (Forall_inv Hfree) as Hw.
  pose proof (Forall_inv_tail Hfree) as Hws.
  destruct ws as [| w' ws'].
  - simpl. apply split_free. exact Hw.
  - change (Curves.join sep (w :: w' :: ws'))
      with (w ++ String sep (Curves.join sep (w' :: ws')))%string.
    rewrite (split_app_sep sep w _ Hw). f_equal.
    apply IH; [discriminate | exact Hws].
Qed.

Lemma drop_last_app (s : string) (c : Ascii.ascii) :
  Curves.drop_last (s ++ String c EmptyString) = s.
Proof.
  induction s as [| a s IH]; [reflexivity |].
  change (Curves.drop_last (String a (s ++ String c EmptyString)) = String a s).
  simpl. destruct (s ++ String c EmptyString)%string as [| b t] eqn:E.
  - destruct s; discriminate.
  - f_equal. exact IH.
Qed.

Lemma free_of_app (c : Ascii.ascii) (a b : string) :
  Curves.free_of c (a ++ b) = Curves.free_of c a && Curves.free_of c b.
Proof.
  induction a as [| x a IH]; simpl; [reflexivity |].
  rewrite IH. apply andb_assoc.
Qed.

Lemma free_of_join (sep c : Ascii.ascii) (cells : list string) :
  Ascii.eqb sep c = false ->
  Forall (fun w => Curves.free_of c w = true) cells ->
  Curves.free_of c (Curves.join sep cells) = true.
Proof.
  intros Hsep. induction cells as [| w ws IH]; intros H; [reflexivity |].
  pose proof (Forall_inv H) as Hw. pose proof (Forall_inv_tail H) as Hws.
  destruct ws as [| w' ws']; [exact Hw |].
  change (Curves.join sep (w :: w' :: ws'))
    with (w ++ String sep (Curves.join sep (w' :: ws')))%string.
  rewrite free_of_app, Hw. simpl. rewrite Hsep. simpl. apply IH. exact Hws.
Qed.

Section ClipboardFacts.

Variable format : xR -> string.
Variable parse : string -> option xR.

Lemma parse_row_format (row : list xR) :
  (forall x, In x row -> parse (format x) = Some x) ->
  Curves.parse_row parse (map format row) = Return row.
Proof.
  induction row as [| x row IH]; intros H; [reflexivity |].
  simpl. rewrite (H x (in_eq _ _)).
  rewrite IH by (intros y Hy; apply H; right; exact Hy). reflexivity.
Qed.

Lemma parse_rows_format (rows : matrix xR) :
  (forall row x, In row rows -> In x row -> parse (format x) = Some x) ->
  Curves.parse_rows parse (map (map format) rows) = Return rows.
Proof.
  induction rows as [| r rows IH]; intros H; [reflexivity |].
  simpl. rewrite parse_row_format by (intros x Hx; apply (H r x (in_eq _ _) Hx)).
  cbn [obind].
  rewrite IH by (intros row x Hr Hx; apply (H row x (in_cons _ _ _ Hr) Hx)).
  reflexivity.
Qed.

End ClipboardFacts.

Lemma column_of_uniform (rows : matrix xR) (k j : nat) :
  (forall row, In row rows -> length row = k) -> (j < k)%nat ->
  Curves.column_of rows j = Return (map (fun row => nth j row None) rows).
Proof.
  intros Hk Hj. induction rows as [| r rows IH]; [reflexivity |].
  simpl.
  destruct (FieldsFacts.getitem_lt r j) as (x & Hx & Hg).
  { rewrite (Hk r (in_eq _ _)). exact Hj. }
  rewrite Hg. cbn [obind].
  rewrite IH by (intros row Hr; apply Hk; right; exact Hr).
  cbn [obind]. f_equal. f_equal.
  symmetry. apply nth_error_nth. exact Hx.
Qed.

Lemma column_uniform (rows : matrix xR) (k j : nat) :
  rows <> [] ->
  (forall row, In row rows -> length row = k) -> (j < k)%nat ->
  Curves.column rows j = Return (map (fun row => nth j row None) rows).
Proof.
  intros Hne Hk Hj. destruct rows as [| r rows]; [contradiction |].
  unfold Curves.column. apply (column_of_uniform _ k); assumption.
Qed.

Lemma short_body (content : list string) :
  (length content <= 25)%nat -> removelast (skipn 24 content) = [].
Proof.
  intros H.
  assert (Hb : (length (skipn 24 content) <= 1)%nat)
    by (rewrite length_skipn; lia).
  destruct (skipn 24 content) as [| a [| b t]]; [reflexivity | reflexivity |].
  simpl in Hb. lia.
Qed.

Lemma zipWith_map_same {A B D E} (f : B -> D -> E) (g : A -> B) (h : A -> D)
    (l : list A) :
  zipWith f (map g l) (map h l) = map (fun x => f (g x) (h x)) l.
Proof.
  induction l as [| a l IH]; simpl; [reflexivity | rewrite IH; reflexivity].
Qed.

(** X28. [paste] needs more than a header: when the clipboard holds at
    most 25 lines (the empty clipboard among them) no data row is left
    after the 24 header lines and the last line are taken away, and [paste]
    raises an IndexError, whatever the numbers read. *)
Theorem paste_short_clipboard (parse : string -> option xR)
    (clipboard : string) :
  (length (Curves.split Curves.LF clipboard) <= 25)%nat ->
  Curves.paste parse clipboard = Raise IndexError.
Proof.
  intros H. unfold Curves.paste.
  rewrite (short_body _ H). reflexivity.
Qed.

Lemma paste_short_clipboard_witness :
  Curves.paste demo_parse "" = Raise IndexError.
Proof.
  apply (paste_short_clipboard demo_parse ""). simpl. lia.
Defined.

(** The clipboard that [copy] writes, read back line by line. *)
Lemma copy_lines (format : xR -> string) (head : list string)
    (data : matrix xR) :
  head <> [] ->
  Forall (fun l => Curves.free_of Curves.LF l = true) head ->
  (forall row x, In row data -> In x row ->
     Curves.free_of Curves.LF (format x) = true) ->
  Curves.split Curves.LF (Curves.copy format head data) =
  head ++
  map (fun x =>
         (Curves.join Curves.TAB (map format x) ++
          String Curves.CR EmptyString)%string) data.
Proof.
  intros Hne Hhead Hcells. unfold Curves.copy. apply split_join.
  - destruct head; [contradiction | discriminate].
  - apply Forall_app. split; [exact Hhead |].
    apply Forall_map. apply Forall_forall. intros row Hrow.
    rewrite free_of_app. apply andb_true_iff. split; [| reflexivity].
    apply free_of_join; [reflexivity |].
    apply Forall_map. apply Forall_forall. intros x Hx.
    apply (Hcells row x Hrow Hx).
Qed.

(** X29. A curve does not survive the round trip through the clipboard:
    [copy] ends the text without a line break and [paste] throws the last
    line away, so pasting what [copy] wrote (a header of 24 lines free of
    line breaks, rows of at least three numbers that numpy prints without
    tab or line break and reads back) returns the header and every row
    but the last one, the frequencies and complex values of those rows;
    a curve of one row cannot be pasted back at all, [paste] raises an
    IndexError. *)
Theorem copy_then_paste_drops_last_row (format : xR -> string)
    (parse : string -> option xR) (head : list string) (rows : matrix xR)
    (last_row : list xR) (k : nat) :
  length head = 24%nat ->
  Forall (fun l => Curves.free_of Curves.LF l = true) head ->
  (forall row x, In row (rows ++ [last_row]) -> In x row ->
     Curves.free_of Curves.LF (format x) = true /\
     Curves.free_of Curves.TAB (format x) = true) ->
  (forall row x, In row rows -> In x row -> parse (format x) = Some x) ->
  (forall row, In row rows -> length row = k) -> (3 <= k)%nat ->
  (rows <> [] ->
   Curves.paste parse (Curves.copy format head (rows ++ [last_row])) =
   Return (head, rows,
           map (fun row => nth 0 row None) rows,
           map (fun row =>
                  Curves.complex_of (nth 1 row None) (nth 2 row None)) rows)) /\
  (rows = [] ->
   Curves.paste parse (Curves.copy format head (rows ++ [last_row])) =
   Raise IndexError).
Proof.
  intros Hlen Hhead Hfree Hparse Hk H3.
  assert (Hpaste :
    Curves.paste parse (Curves.copy format head (rows ++ [last_row])) =
    let! freq := Curves.column rows 0 in
    let! re_part := Curves.column rows 1 in
    let! im_part := Curves.column rows 2 in
    Return (head, rows, freq, zipWith Curves.complex_of re_part im_part)).
  { unfold Curves.paste. rewrite copy_lines.
    - rewrite firstn_app, skipn_app, Hlen, Nat.sub_diag, firstn_O, skipn_O.
      rewrite (firstn_all2 head) by lia.
      rewrite (skipn_all2 head) by lia.
      rewrite app_nil_r, app_nil_l, map_app.
      change (map ?f [last_row]) with [f last_row].
      rewrite removelast_last.
      rewrite map_map.
      rewrite (map_ext_in _ (map format)).
      + unfold Curves.asfarray.
        rewrite (uniform_map (map format) rows k)
          by (intros row Hrow; rewrite length_map; apply Hk; exact Hrow).
        rewrite <- (map_map (map format) (fun x => x)), map_id.
        rewrite (parse_rows_format format parse rows Hparse).
        reflexivity.
      + intros row Hrow. rewrite drop_last_app. apply split_join.
        * pose proof (Hk row Hrow) as Hl. destruct row; simpl in Hl;
            [lia | discriminate].
        * apply Forall_map. apply Forall_forall. intros x Hx.
          apply (Hfree row x); [apply in_or_app; left; exact Hrow | exact Hx].
    - destruct head; [discriminate | discriminate].
    - exact Hhead.
    - intros row x Hrow Hx. apply (Hfree row x Hrow Hx). }
  rewrite Hpaste. split.
  - intros Hne.
    rewrite (column_uniform rows k 0 Hne Hk) by lia. cbn [obind].
    rewrite (column_uniform rows k 1 Hne Hk) by lia. cbn [obind].
    rewrite (column_uniform rows k 2 Hne Hk) by lia. cbn [obind].
    rewrite zipWith_map_same. reflexivity.
  - intros ->. reflexivity.
Qed.

Lemma demo_format_parse (x : xR) :
  x = Some 0 \/ x = Some 1 -> demo_parse (demo_format x) = Some x.
Proof.
  intros [-> | ->]; unfold demo_format.
  - rewrite (Reqb_false 0 1) by lra. reflexivity.
  - rewrite (Reqb_true 1 1) by reflexivity. reflexivity.
Qed.

Lemma demo_format_free (x : xR) :
  Curves.free_of Curves.LF (demo_format x) = true /\
  Curves.free_of Curves.TAB (demo_format x) = true.
Proof.
  destruct x as [r |]; unfold demo_format; [| split; reflexivity].
  destruct (Reqb r 1); split; reflexivity.
Qed.

Lemma copy_then_paste_drops_last_row_witness :
  Curves.paste demo_parse (Curves.copy demo_format demo_head demo_curve) =
    Return (demo_head, [[Some 0; Some 1; Some 0]], [Some 0],
            [Curves.complex_of (Some 1) (Some 0)]) /\
  Curves.paste demo_parse
    (Curves.copy demo_format demo_head [[Some 1; Some 0; Some 1]]) =
    Raise IndexError.
Proof.
  split.
  - destruct (copy_then_paste_drops_last_row demo_format demo_parse demo_head
                [[Some 0; Some 1; Some 0]] [Some 1; Some 0; Some 1] 3)
      as [H _].
    + reflexivity.
    + repeat constructor.
    + intros row x _ _. apply demo_format_free.
    + intros row x [<- | []] Hx. apply demo_format_parse.
      simpl in Hx. intuition auto.
    + intros row [<- | []]. reflexivity.
    + lia.
    + apply H. discriminate.
  - destruct (copy_then_paste_drops_last_row demo_format demo_parse demo_head
                [] [Some 1; Some 0; Some 1] 3) as [_ H].
    + reflexivity.
    + repeat constructor.
    + intros row x _ _. apply demo_format_free.
    + intros row x [].
    + intros row [].
    + lia.
    + apply H. reflexivity.
Defined.

Lemma nth_error_list_setitem {A} (l : list A) (i j : nat) (v : A) :
  (i < length l)%nat ->
  nth_error (firstn i l ++ v :: skipn (S i) l) j =
  if Nat.eqb j i then Some v else nth_error l j.
Proof.
  intros Hi.
  assert (Hf : length (firstn i l) = i) by (rewrite length_firstn; lia).
  destruct (Nat.eqb_spec j i) as [-> | Hne].
  - rewrite nth_error_app2 by lia. rewrite Hf, Nat.sub_diag. reflexivity.
  - destruct (Nat.lt_ge_cases j i) as [Hlt | Hge].
    + rewrite nth_error_app1 by lia. rewrite nth_error_firstn.
      destruct (Nat.ltb_spec j i); [reflexivity | lia].
    + rewrite nth_error_app2 by lia. rewrite Hf.
      destruct (j - i)%nat as [| d] eqn:E; [lia |].
      cbn [nth_error]. rewrite nth_error_skipn. f_equal. lia.
Qed.

Lemma length_list_setitem {A} (l : list A) (i : nat) (v : A) :
  (i < length l)%nat ->
  length (firstn i l ++ v :: skipn (S i) l) = length l.
Proof.
  intros Hi. rewrite length_app, length_firstn. cbn [length].
  rewrite length_skipn. lia.
Qed.

Lemma paste_head (parse : string -> option xR) (clipboard : string)
    (head : list string) (data : matrix xR) (freq : list xR)
    (cmplx : list xC) :
  Curves.paste parse clipboard = Return (head, data, freq, cmplx) ->
  length head = 24%nat.
Proof.
  intros H.
  destruct (Nat.le_gt_cases (length (Curves.split Curves.LF clipboard)) 25)
    as [Hs | Hs].
  - unfold Curves.paste in H. rewrite (short_body _ Hs) in H. discriminate.
  - unfold Curves.paste in H. cbv zeta in H.
    assert (Hh : length (firstn 24 (Curves.split Curves.LF clipboard)) =
                 24%nat) by (rewrite length_firstn; lia).
    set (h := firstn 24 (Curves.split Curves.LF clipboard)) in H, Hh.
    clearbody h.
    destruct (Curves.asfarray parse _) as [d |]; [| discriminate].
    cbn [obind] in H.
    destruct (Curves.column d 0); [| discriminate]. cbn [obind] in H.
    destruct (Curves.column d 1); [| discriminate]. cbn [obind] in H.
    destruct (Curves.column d 2); [| discriminate]. cbn [obind] in H.
    injection H as <- _ _ _. exact Hh.
Qed.

(** X30. [new_label] writes line 6 of the header and nothing else: on a
    header of fewer than 7 lines it raises an IndexError; otherwise the
    header keeps its length and all its other lines, line 6 is the label
    line, and an earlier label leaves no trace once a new one is set.  A
    header that [paste] returned has 24 lines, so it can always be
    relabelled. *)
Theorem new_label_rewrites_line_6 (head : list string) (label : string) :
  ((length head <= 6)%nat -> Curves.new_label head label = Raise IndexError) /\
  ((6 < length head)%nat ->
   exists head',
     Curves.new_label head label = Return head' /\
     length head' = length head /\
     nth_error head' 6 =
       Some ("Curvelabel  = " ++ label ++ String Curves.CR EmptyString)%string /\
     (forall i, i <> 6%nat -> nth_error head' i = nth_error head i) /\
     (forall label', Curves.new_label head' label' =
                     Curves.new_label head label')) /\
  (forall parse clipboard data freq cmplx,
     Curves.paste parse clipboard = Return (head, data, freq, cmplx) ->
     returns (Curves.new_label head label)).
Proof.
  assert (Hlong : (6 < length head)%nat ->
    Curves.new_label head label =
    Return (firstn 6 head ++
            ("Curvelabel  = " ++ label ++ String Curves.CR EmptyString)%string
            :: skipn 7 head)).
  { intros H. unfold Curves.new_label, Curves.list_setitem.
    destruct (Nat.ltb_spec 6 (length head)); [reflexivity | lia]. }
  split; [| split].
  - intros H. unfold Curves.new_label, Curves.list_setitem.
    destruct (Nat.ltb_spec 6 (length head)); [lia | reflexivity].
  - intros H. eexists. split; [apply Hlong; exact H |].
    split; [apply length_list_setitem; exact H |].
    split; [rewrite nth_error_list_setitem by exact H; reflexivity |].
    split.
    + intros i Hi. rewrite nth_error_list_setitem by exact H.
      destruct (Nat.eqb_spec i 6); [contradiction | reflexivity].
    + intros label'. unfold Curves.new_label, Curves.list_setitem.
      rewrite length_list_setitem by exact H.
      destruct (Nat.ltb_spec 6 (length head)); [| lia].
      f_equal. f_equal.
      * rewrite firstn_app, firstn_firstn, length_firstn.
        replace (6 - Nat.min 6 (length head))%nat with 0%nat by lia.
        rewrite firstn_O, app_nil_r. reflexivity.
      * f_equal. rewrite skipn_app, length_firstn.
        rewrite (skipn_all2 (firstn 6 head)) by (rewrite length_firstn; lia).
        replace (7 - Nat.min 6 (length head))%nat with 1%nat by lia.
        reflexivity.
  - intros parse clipboard data freq cmplx H.
    apply paste_head in H. eexists. apply Hlong. lia.
Qed.

Lemma new_label_rewrites_line_6_witness :
  Curves.new_label [] "S1,1" = Raise IndexError /\
  (exists head',
     Curves.new_label demo_head "S1,1" = Return head' /\
     length head' = length demo_head /\
     nth_error head' 6 =
       Some ("Curvelabel  = " ++ "S1,1" ++ String Curves.CR EmptyString)%string /\
     (forall i, i <> 6%nat -> nth_error head' i = nth_error demo_head i) /\
     (forall label', Curves.new_label head' label' =
                     Curves.new_label demo_head label')).
Proof.
  split.
  - destruct (new_label_rewrites_line_6 [] "S1,1") as (H & _ & _).
    apply H. simpl. lia.
  - destruct (new_label_rewrites_line_6 demo_head "S1,1") as (_ & H & _).
    apply H. simpl. lia.
Defined.
